(** * The creative-generation endpoint (`app/api/generate-product-image/route.ts`)

    A shallow embedding of the request handler [POST] and of its two helpers
    [urlToInlineData] and [extractJson], with the properties of the
    specification stated and settled over it.

    Conventions of the embedding.

    - A JavaScript string is a Rocq [string]; one character is one UTF-16
      code unit below 256 (ASCII and Latin-1 text: URLs, MIME types, Base64,
      JSON syntax).  The values that [JSON.parse] builds carry their strings
      as lists of code units, so that a [\uXXXX] escape is kept exactly.
    - The handler is sequential `async` code.  It is embedded in a monad of
      state and exceptions: a value of [M A] takes the state of the world
      and ends either in [Return a] or in [Throw e], with the new state.
    - The collaborators (document store, image host, generation model,
      `fetch`, the clock) are not part of the repository.  The document
      store is a finite map that the handler reads and writes; what the
      other services answer, and whether a call is rejected, is given by an
      environment [Env] over which every theorem quantifies.  Every call to
      a collaborator is recorded, with its answer, in the trace of the
      state. *)

From Stdlib Require Import Ascii ZArith Lia.
From stdpp Require Import gmap strings list pretty sorting.

Local Open Scope Z_scope.
Local Set Warnings "-register-all".

(** ** Strings: the methods of `String.prototype` the handler uses *)

Module Str.

(** The line feed and the double quote, written by their codes. *)
Definition nl : string := String "010"%char "".
Definition dquote : string := String "034"%char "".

(** A double quote for every apostrophe, to write JSON texts: in
    [q "{'a':1}"] the key [a] stands between double quotes. *)
Fixpoint q (s : string) : string :=
  match s with
  | "" => ""
  | String c s' => String (if Ascii.eqb c "'" then "034"%char else c) (q s')
  end.

(** The lines of a template literal, joined by line feeds. *)
Fixpoint lines (l : list string) : string :=
  match l with
  | [] => ""
  | [x] => x
  | x :: l' => x +:+ nl +:+ lines l'
  end.

(** WhiteSpace and LineTerminator code points below 256: TAB, LF, VT, FF,
    CR, SP and NBSP. *)
Definition is_white_space (c : ascii) : bool :=
  let n := N_of_ascii c in
  ((9 <=? n) && (n <=? 13) || (n =? 32) || (n =? 160))%N.

Fixpoint trimStart (s : string) : string :=
  match s with
  | "" => ""
  | String c s' => if is_white_space c then trimStart s' else s
  end.

Fixpoint trimEnd (s : string) : string :=
  match s with
  | "" => ""
  | String c s' =>
      match trimEnd s' with
      | "" => if is_white_space c then "" else String c ""
      | r => String c r
      end
  end.

(** Every character of [s] is white space. *)
Fixpoint blank (s : string) : bool :=
  match s with
  | "" => true
  | String c s' => is_white_space c && blank s'
  end.

(** `s.trim()` *)
Definition trim (s : string) : string := trimEnd (trimStart s).

(** `s.startsWith(p)` *)
Fixpoint startsWith (p s : string) : bool :=
  match p, s with
  | "", _ => true
  | String a p', String b s' => Ascii.eqb a b && startsWith p' s'
  | String _ _, "" => false
  end.

Fixpoint drop (n : nat) (s : string) : string :=
  match n, s with
  | O, _ => s
  | S n', String _ s' => drop n' s'
  | S _, "" => ""
  end.

(** `s.endsWith(p)`: the last [length p] characters of [s] are [p]. *)
Definition endsWith (p s : string) : bool :=
  (String.length p <=? String.length s)%nat
  && String.eqb (drop (String.length s - String.length p) s) p.

(** `s.includes(p)` *)
Fixpoint includes (p s : string) : bool :=
  startsWith p s
  || match s with
     | "" => false
     | String _ s' => includes p s'
     end.

(** `s.replace(p, r)` with a string pattern: the first occurrence of [p],
    when there is one, is replaced. *)
Fixpoint replace (p r s : string) : string :=
  if startsWith p s then r +:+ drop (String.length p) s
  else match s with
       | "" => ""
       | String c s' => String c (replace p r s')
       end.

(** `s.toLowerCase()` on code units below 256: `A`-`Z`, and the Latin-1
    capitals U+00C0-U+00DE without the multiplication sign U+00D7. *)
Definition lower_char (c : ascii) : ascii :=
  let n := N_of_ascii c in
  if ((65 <=? n) && (n <=? 90)
      || (192 <=? n) && (n <=? 222) && negb (n =? 215))%N
  then ascii_of_N (n + 32) else c.

Fixpoint toLowerCase (s : string) : string :=
  match s with
  | "" => ""
  | String c s' => String (lower_char c) (toLowerCase s')
  end.

(** The match of the regular expression `/\{[\s\S]*\}/`: it starts at the
    first `{` and, the star being greedy, ends at the last `}` after
    it. *)
Fixpoint from_first_open (s : string) : option string :=
  match s with
  | "" => None
  | String c s' => if Ascii.eqb c "{" then Some s else from_first_open s'
  end.

Fixpoint upto_last_close (s : string) : option string :=
  match s with
  | "" => None
  | String c s' =>
      match upto_last_close s' with
      | Some r => Some (String c r)
      | None => if Ascii.eqb c "}" then Some (String c "") else None
      end
  end.

Definition match_braces (s : string) : option string :=
  from_first_open s ≫= upto_last_close.

(** No character of [p] is [x]. *)
Definition lacks (x : ascii) (p : string) : Prop :=
  Forall (λ c, c ≠ x) (String.list_ascii_of_string p).

(** The code units of a string. *)
Fixpoint units (s : string) : list N :=
  match s with
  | "" => []
  | String c s' => N_of_ascii c :: units s'
  end.

(** JavaScript truthiness of a string: it is not empty. *)
Definition truthy (s : string) : bool :=
  match s with "" => false | _ => true end.

End Str.

(** ** JSON values and `JSON.parse`

    `JSON.parse` is a built-in of the JavaScript runtime.  It is modelled
    after ECMA-404: a scanner turns the text into tokens, a recursive-descent
    parser turns the tokens into a value.  [parse] answers [None] where
    `JSON.parse` throws a `SyntaxError`.

    A number is kept as its literal, which is finer than the double that
    JavaScript computes from it: two parses that are equal here are equal
    there.  The members of an object are kept in the order of the text;
    reading a key that occurs twice gives the last value, as in
    JavaScript. *)

Module JSON.

Inductive value : Type :=
| JNull
| JBool (b : bool)
| JNumber (literal : string)
| JString (s : list N)
| JArray (elements : list value)
| JObject (members : list (list N * value)).

#[global] Instance value_eq_dec : EqDecision value.
Proof.
  refine (fix go (x y : value) {struct x} : Decision (x = y) :=
    match x, y with
    | JNull, JNull => left _
    | JBool a, JBool b => cast_if (decide (a = b))
    | JNumber a, JNumber b => cast_if (decide (a = b))
    | JString a, JString b => cast_if (decide (a = b))
    | JArray a, JArray b => cast_if (@decide (a = b) (@list_eq_dec _ go a b))
    | JObject a, JObject b =>
        cast_if (@decide (a = b) (@list_eq_dec _ (@prod_eq_dec _ _ _ go) a b))
    | _, _ => right _
    end); congruence.
Defined.

(** The JSON value of a JavaScript string. *)
Definition JStr (s : string) : value := JString (Str.units s).

Inductive token : Type :=
| TLBrace | TRBrace | TLBracket | TRBracket | TColon | TComma
| TString (s : list N)
| TNumber (literal : string)
| TTrue | TFalse | TNull.

(** *** The scanner *)

(** JSON white space: TAB, LF, CR and SP. *)
Definition is_ws (c : ascii) : bool :=
  let n := N_of_ascii c in
  ((n =? 9) || (n =? 10) || (n =? 13) || (n =? 32))%N.

Definition is_digit (c : ascii) : bool :=
  let n := N_of_ascii c in ((48 <=? n) && (n <=? 57))%N.

Definition is_letter (c : ascii) : bool :=
  let n := N_of_ascii c in
  ((65 <=? n) && (n <=? 90) || (97 <=? n) && (n <=? 122))%N.

(** The characters of numbers and of the literals [true], [false] and
    [null].  A maximal run of them is one word; no JSON text has two
    scalar tokens side by side, so scanning by words accepts the same
    texts. *)
Definition is_word_char (c : ascii) : bool :=
  is_digit c || is_letter c
  || Ascii.eqb c "-" || Ascii.eqb c "+" || Ascii.eqb c ".".

Fixpoint skip_digits (s : string) : string :=
  match s with
  | "" => ""
  | String c s' => if is_digit c then skip_digits s' else s
  end.

Definition digits1 (s : string) : option string :=
  match s with
  | "" => None
  | String c s' => if is_digit c then Some (skip_digits s') else None
  end.

Definition number_int (s : string) : option string :=
  match s with
  | "" => None
  | String c s' =>
      if Ascii.eqb c "0" then Some s'
      else if is_digit c then Some (skip_digits s') else None
  end.

Definition number_frac (s : string) : option string :=
  match s with
  | String c s' => if Ascii.eqb c "." then digits1 s' else Some s
  | "" => Some s
  end.

Definition number_sign (s : string) : string :=
  match s with
  | String c s' => if Ascii.eqb c "+" || Ascii.eqb c "-" then s' else s
  | "" => s
  end.

Definition number_exp (s : string) : option string :=
  match s with
  | String c s' =>
      if Ascii.eqb c "e" || Ascii.eqb c "E" then digits1 (number_sign s')
      else Some s
  | "" => Some s
  end.

(** An optional minus; zero, or a non-zero digit and digits; an optional
    fraction; an optional exponent with an optional sign. *)
Definition valid_number (s : string) : bool :=
  let s1 := match s with
            | String c s' => if Ascii.eqb c "-" then s' else s
            | "" => s
            end in
  match (number_int s1 ≫= number_frac) ≫= number_exp with
  | Some "" => true
  | _ => false
  end.

Definition word_token (rev_word : string) : option token :=
  let w := String.rev rev_word in
  if String.eqb w "true" then Some TTrue
  else if String.eqb w "false" then Some TFalse
  else if String.eqb w "null" then Some TNull
  else if valid_number w then Some (TNumber w) else None.

Definition punctuation (c : ascii) : option token :=
  if Ascii.eqb c "{" then Some TLBrace
  else if Ascii.eqb c "}" then Some TRBrace
  else if Ascii.eqb c "[" then Some TLBracket
  else if Ascii.eqb c "]" then Some TRBracket
  else if Ascii.eqb c ":" then Some TColon
  else if Ascii.eqb c "," then Some TComma
  else None.

Definition escape (c : ascii) : option N :=
  (if Ascii.eqb c "034" then Some 34
   else if Ascii.eqb c "\" then Some 92
   else if Ascii.eqb c "/" then Some 47
   else if Ascii.eqb c "b" then Some 8
   else if Ascii.eqb c "f" then Some 12
   else if Ascii.eqb c "n" then Some 10
   else if Ascii.eqb c "r" then Some 13
   else if Ascii.eqb c "t" then Some 9
   else None)%N.

Definition hex_digit (c : ascii) : option N :=
  let n := N_of_ascii c in
  (if (48 <=? n) && (n <=? 57) then Some (n - 48)
   else if (65 <=? n) && (n <=? 70) then Some (n - 55)
   else if (97 <=? n) && (n <=? 102) then Some (n - 87)
   else None)%N.

(** Where the scanner stands: between tokens, inside a word, inside a
    string, after a backslash, or inside the four digits of `\u`.  The
    characters read so far are kept newest first. *)
Inductive mode : Type :=
| Top
| InWord (rev_word : string)
| InStr (rev_units : list N)
| InEsc (rev_units : list N)
| InHex (rev_units : list N) (read : nat) (code : N).

Definition scan : Type := list token * mode.

Definition top_char (ts : list token) (c : ascii) : option scan :=
  if is_ws c then Some (ts, Top)
  else match punctuation c with
       | Some t => Some (t :: ts, Top)
       | None =>
           if Ascii.eqb c "034" then Some (ts, InStr [])
           else if is_word_char c then Some (ts, InWord (String c ""))
           else None
       end.

Definition lex_char (st : scan) (c : ascii) : option scan :=
  let '(ts, m) := st in
  match m with
  | Top => top_char ts c
  | InWord w =>
      if is_word_char c then Some (ts, InWord (String c w))
      else word_token w ≫= λ t, top_char (t :: ts) c
  | InStr u =>
      if Ascii.eqb c "034" then Some (TString (reverse u) :: ts, Top)
      else if Ascii.eqb c "\" then Some (ts, InEsc u)
      else if (N_of_ascii c <? 32)%N then None
      else Some (ts, InStr (N_of_ascii c :: u))
  | InEsc u =>
      if Ascii.eqb c "u" then Some (ts, InHex u 0 0%N)
      else escape c ≫= λ n, Some (ts, InStr (n :: u))
  | InHex u k code =>
      hex_digit c ≫= λ d,
        let code' := (16 * code + d)%N in
        if (k =? 3)%nat then Some (ts, InStr (code' :: u))
        else Some (ts, InHex u (S k) code')
  end.

Fixpoint lex_run (st : scan) (s : string) : option scan :=
  match s with
  | "" => Some st
  | String c s' => lex_char st c ≫= λ st', lex_run st' s'
  end.

Definition lex_end (st : scan) : option (list token) :=
  match st with
  | (ts, Top) => Some (reverse ts)
  | (ts, InWord w) => word_token w ≫= λ t, Some (reverse (t :: ts))
  | _ => None
  end.

Definition lex (s : string) : option (list token) :=
  lex_run ([], Top) s ≫= lex_end.

(** The first token of the scan is, or will be, another one than the
    opening brace. *)
Definition other_first (st : scan) : Prop :=
  match last st.1 with
  | Some t => t ≠ TLBrace
  | None => st.2 ≠ Top
  end.

(** *** The parser

    The fuel bounds the depth of the calls; a value never needs more fuel
    than it has tokens ([parse_value_fuel] below). *)

Fixpoint parse_value (n : nat) (ts : list token) : option (value * list token) :=
  match n with
  | O => None
  | S n' =>
      match ts with
      | TString s :: r => Some (JString s, r)
      | TNumber x :: r => Some (JNumber x, r)
      | TTrue :: r => Some (JBool true, r)
      | TFalse :: r => Some (JBool false, r)
      | TNull :: r => Some (JNull, r)
      | TLBracket :: TRBracket :: r => Some (JArray [], r)
      | TLBracket :: r => parse_elements n' r []
      | TLBrace :: TRBrace :: r => Some (JObject [], r)
      | TLBrace :: r => parse_members n' r []
      | _ => None
      end
  end
with parse_elements (n : nat) (ts : list token) (acc : list value)
  : option (value * list token) :=
  match n with
  | O => None
  | S n' =>
      match parse_value n' ts with
      | Some (v, TComma :: r) => parse_elements n' r (v :: acc)
      | Some (v, TRBracket :: r) => Some (JArray (reverse (v :: acc)), r)
      | _ => None
      end
  end
with parse_members (n : nat) (ts : list token) (acc : list (list N * value))
  : option (value * list token) :=
  match n with
  | O => None
  | S n' =>
      match ts with
      | TString k :: TColon :: r =>
          match parse_value n' r with
          | Some (v, TComma :: r') => parse_members n' r' ((k, v) :: acc)
          | Some (v, TRBrace :: r') => Some (JObject (reverse ((k, v) :: acc)), r')
          | _ => None
          end
      | _ => None
      end
  end.

Definition parse_tokens (ts : list token) : option value :=
  match parse_value (length ts) ts with
  | Some (v, []) => Some v
  | _ => None
  end.

(** `JSON.parse(text)` *)
Definition parse (text : string) : option value :=
  lex text ≫= parse_tokens.

(** *** Reading a property of a parsed value *)

Fixpoint lookup_member (k : list N) (ms : list (list N * value)) : option value :=
  match ms with
  | [] => None
  | (k', v) :: ms' =>
      match lookup_member k ms' with
      | Some v' => Some v'
      | None => if decide (k = k') then Some v else None
      end
  end.

(** `v?.key` for a key that no prototype defines: [None] is
    `undefined`. *)
Definition member (key : string) (v : value) : option value :=
  match v with
  | JObject ms => lookup_member (Str.units key) ms
  | _ => None
  end.

Definition is_object (v : value) : bool :=
  match v with JObject _ => true | _ => false end.

End JSON.

(** ** Base64: `Buffer.from(bytes).toString("base64")` *)

Module Base64.

Definition alphabet : list ascii :=
  String.list_ascii_of_string
    "ABCDEFGHIJKLMNOPQRSTUVWXYZabcdefghijklmnopqrstuvwxyz0123456789+/".

Definition pad : ascii := "="%char.

Definition digit (n : N) : ascii := nth (N.to_nat n) alphabet pad.

Fixpoint encode (bs : list Byte.byte) : string :=
  match bs with
  | [] => ""
  | [a] =>
      let x := Byte.to_N a in
      String (digit (x / 4)) (String (digit (x mod 4 * 16))
        (String pad (String pad "")))
  | [a; b] =>
      let x := Byte.to_N a in
      let y := Byte.to_N b in
      String (digit (x / 4)) (String (digit (x mod 4 * 16 + y / 16))
        (String (digit (y mod 16 * 4)) (String pad "")))
  | a :: b :: c :: r =>
      let x := Byte.to_N a in
      let y := Byte.to_N b in
      let z := Byte.to_N c in
      String (digit (x / 4)) (String (digit (x mod 4 * 16 + y / 16))
        (String (digit (y mod 16 * 4 + z / 64)) (String (digit (z mod 64))
          (encode r))))
  end%N.

End Base64.

(** ** Exceptions *)

Inductive JsError : Type :=
| Error (message : string)
| TypeError (message : string)
| SyntaxError
| FirebaseError (code : string)
| Rejection (reason : string).

Inductive Result (A : Type) : Type :=
| Return (a : A)
| Throw (e : JsError).
Arguments Return {A} a.
Arguments Throw {A} e.

(** ** The data of the request and of the collaborators *)

Import JSON.

(** A document is a map from field names to values; the store maps a
    collection name and a document identifier to a document. *)
Abbreviation Doc := (gmap string value).
Abbreviation Store := (gmap (string * string) Doc).

(** The `File` of a multipart form. *)
Record File : Type := {
  file_bytes : list Byte.byte;
  file_type : string }.

(** The fields that [POST] reads from `req.formData()`; [None] is the `null`
    that `formData.get` gives for an absent field. *)
Module Form.
Record t : Type := {
  file : option File;
  description : option string;
  size : option string;
  userEmail : option string;
  avatar : option string;
  imageUrl : option string }.
End Form.

(** What `fetch` resolves to: the status, the `content-type` header and the
    outcome of `arrayBuffer()`. *)
Record FetchResponse : Type := {
  res_status : Z;
  res_content_type : option string;
  res_arrayBuffer : Result (list Byte.byte) }.

(** `res.ok`: the status is in the range 200-299. *)
Definition res_ok (res : FetchResponse) : bool :=
  (200 <=? res_status res) && (res_status res <=? 299).

Record InlineData : Type := {
  data : string;
  mimeType : string }.

(** A part of a request to the model: `{ text }` (any value, or `undefined`)
    or `{ inlineData }`. *)
Inductive Part : Type :=
| PText (text : option value)
| PInline (inlineData : InlineData).

Record Content : Type := {
  role : string;
  parts : list Part }.

Record GenerateRequest : Type := {
  model : string;
  contents : list Content;
  config : option value }.

(** The part of the model's answer that the handler reads. *)
Record AnswerInline : Type := {
  a_data : option string }.
Record AnswerPart : Type := {
  a_inlineData : option AnswerInline }.
Record AnswerContent : Type := {
  a_parts : option (list AnswerPart) }.
Record Candidate : Type := {
  c_content : option AnswerContent }.
Record GenerateResponse : Type := {
  g_text : option string;
  g_candidates : option (list Candidate) }.

Record UploadOptions : Type := {
  up_file : string;
  up_fileName : string;
  up_isPublished : bool }.

Record UploadResponse : Type := {
  up_url : string }.

(** The answer of the route: `NextResponse.json(body)` has status 200. *)
Record Response : Type := {
  status : Z;
  body : value }.

Definition NextResponse_json (v : value) : Response :=
  {| status := 200; body := v |}.

(** ** The world: the document store and the trace of the calls *)

Inductive LogArg : Type :=
| LogValue (v : value)
| LogError (e : JsError).

Inductive Event : Type :=
| EvGetDocs (collection field : string) (v : value)
    (answer : Result (list (string * Doc)))
| EvSetDoc (collection id : string) (fields : Doc) (rejected : option JsError)
| EvUpdateDoc (collection id : string) (fields : list (string * option value))
    (rejected : option JsError)
| EvDeleteDoc (collection id : string) (rejected : option JsError)
| EvFetch (url : string) (answer : Result FetchResponse)
| EvUpload (options : UploadOptions) (answer : Result UploadResponse)
| EvGenerate (request : GenerateRequest) (answer : Result GenerateResponse)
| EvLog (args : list LogArg).

Record World : Type := {
  store : Store;
  trace : list Event }.

Inductive StoreCall : Type :=
| CallGetDocs (collection field : string) (v : value)
| CallSetDoc (collection id : string) (fields : Doc)
| CallUpdateDoc (collection id : string) (fields : list (string * option value))
| CallDeleteDoc (collection id : string).

(** What the handler does not decide.  Each answer may depend on the whole
    world at the time of the call.  [store_rejects] is the failure of a call
    to the store (network, security rules); [ignoreUndefinedProperties] is the
    setting of the `db` handle, which `@/configs/firebaseConfig` creates. *)
Record Env : Type := {
  Date_now : World → Z;
  store_rejects : World → StoreCall → option JsError;
  ignoreUndefinedProperties : bool;
  fetch_answer : World → string → Result FetchResponse;
  upload_answer : World → UploadOptions → Result UploadResponse;
  generate_answer : World → GenerateRequest → Result GenerateResponse }.

(** ** The monad of the handler *)

Definition M (A : Type) : Type := World → Result A * World.

Definition ret {A} (a : A) : M A := λ w, (Return a, w).

Definition throw {A} (e : JsError) : M A := λ w, (Throw e, w).

Definition bind {A B} (m : M A) (k : A → M B) : M B :=
  λ w, match m w with
       | (Return a, w') => k a w'
       | (Throw e, w') => (Throw e, w')
       end.

(** `try { m } catch (e) { h e }` *)
Definition try_catch {A} (m : M A) (h : JsError → M A) : M A :=
  λ w, match m w with
       | (Return a, w') => (Return a, w')
       | (Throw e, w') => h e w'
       end.

(** A value already computed, or the exception it threw. *)
Definition lift {A} (r : Result A) : M A := λ w, (r, w).

Notation "'let!' x := m 'in' k" := (bind m (λ x, k))
  (at level 10, x name, m at level 200, k at level 200,
   format "'[v' 'let!'  x  :=  m  'in' '/' k ']'").
Notation "'run!' m 'in' k" := (bind m (λ _, k))
  (at level 10, m at level 200, k at level 200,
   format "'[v' 'run!'  m  'in' '/' k ']'").

Definition log_event (ev : Event) (w : World) : World :=
  {| store := store w; trace := trace w ++ [ev] |}.

Definition commit (st : Store) (ev : Event) (w : World) : World :=
  {| store := st; trace := trace w ++ [ev] |}.

(** ** The instruction templates

    A template literal that opens and closes on lines of its own starts and
    ends with a line feed.  The one character of the templates beyond
    Latin-1, a dash, appears as the three bytes of its UTF-8 form; the
    properties below use only that the two templates differ.  (The
    repository holds a second copy of the route that differs in the text of
    the two templates and in nothing else.) *)

Definition PROMPT : string :=
  Str.q (Str.lines
    [ "";
       "Create a high-quality creative featuring the uploaded product image as the main subject. ";
       "Allow full flexibility—this creative may be a product showcase, marketing banner, 3D-style render, ";
       "ecommerce listing image, premium ad visual, or AI SaaS-style creative depending on what fits best.";
       "";
       "Place the product clearly in focus. You may use any of the following creative styles based on the product:";
       "- Modern ecommerce product display";
       "- Vibrant liquid splash / motion energy effects";
       "- Minimalistic premium brand layout";
       "- 3D glossy cinematic product render";
       "- Abstract futuristic AI-themed backdrop";
       "- Tech-style UI/UX elements (for AI/SaaS product branding)";
       "- Clean gradient or soft shadow background";
       "- Composition with floating ingredients, icons, or material elements";
       "";
       "You can add subtle environmental elements, textures, particles, or lighting to amplify visual appeal.";
       "Ensure the final composition is sharp, well-lit, and polished with strong visual hierarchy.";
       "";
       "Also return an 'image to video' animation prompt to animate this same creative (movement, energy, environment, or 3D reveal).";
       "";
       "Return STRICT JSON ONLY in the following format:";
       "{";
       "  'textToImage': '',";
       "  'imageToVideo': ''";
       "}";
       "Do not add any other text or comments.";
       "" ]).

Definition AVATAR_PROMPT : string :=
  Str.q (Str.lines
    [ "";
       "Create a high-quality creative featuring the uploaded avatar interacting naturally with the uploaded product image. ";
       "The avatar may hold, display, showcase, use, or present the product in a natural, realistic, or modern AI-styled scenario.";
       "";
       "Allow flexible creative interpretations, such as:";
       "- Professional ecommerce model photo";
       "- Lifestyle scene showcasing the product";
       "- Minimalistic clean background ad creative";
       "- Cinematic or stylized portrait with product in hand";
       "- AI SaaS-themed layout (for branding / influencer + product ads)";
       "- Futuristic tech wallpaper or holographic product display";
       "- Vibrant splash / energetic composition around both avatar & product";
       "- Floating icons, UI elements, or thematic materials based on the product";
       "";
       "Ensure the avatar remains natural, well-lit, sharp, and blended realistically with the product. ";
       "Maintain clear focus on the product while preserving a professional and polished look.";
       "";
       "Also provide an 'image to video' animation prompt suitable for animating the same concept (motion, 3D parallax, liquid/spark effects, light motion, camera sway, or dynamic avatar+product movement).";
       "";
       "Return STRICT JSON ONLY in the following format:";
       "{";
       "  'textToImage': '',";
       "  'imageToVideo': ''";
       "}";
       "Do not add any other text or comments.";
       "" ]).

(** ** The collaborators, as the handler calls them *)

Section Handler.

Variable env : Env.

(** `Date.now()` *)
Definition now : M Z := λ w, (Return (Date_now env w), w).

(** `console.log(...)` *)
Definition console_log (args : list LogArg) : M unit :=
  λ w, (Return (), log_event (EvLog args) w).

(** The documents of a collection whose [field] equals [v], in the order
    of their identifiers. *)
Definition query (st : Store) (collection field : string) (v : value)
  : list (string * Doc) :=
  merge_sort (λ a b, String.le a.1 b.1)
    (omap (λ kd : string * string * Doc,
             if decide (kd.1.1 = collection ∧ kd.2 !! field = Some v)
             then Some (kd.1.2, kd.2) else None)
          (map_to_list st)).

(** `getDocs(query(collection(db, c), where(field, "==", v)))`: the `docs`
    of the snapshot. *)
Definition getDocs (collection field : string) (v : value)
  : M (list (string * Doc)) :=
  λ w,
    let answer :=
      match store_rejects env w (CallGetDocs collection field v) with
      | Some e => Throw e
      | None => Return (query (store w) collection field v)
      end in
    (answer, log_event (EvGetDocs collection field v answer) w).

(** `setDoc(doc(db, c, id), fields)`: the document becomes [fields]. *)
Definition setDoc (collection id : string) (fields : Doc) : M unit :=
  λ w,
    match store_rejects env w (CallSetDoc collection id fields) with
    | Some e => (Throw e, log_event (EvSetDoc collection id fields (Some e)) w)
    | None =>
        (Return (),
         commit (<[(collection, id) := fields]> (store w))
                (EvSetDoc collection id fields None) w)
    end.

Definition defined_fields (fields : list (string * option value)) : Doc :=
  foldr (λ kv d, match kv.2 with Some v => <[kv.1 := v]> d | None => d end)
        ∅ fields.

Definition has_undefined (fields : list (string * option value)) : bool :=
  existsb (λ kv, match kv.2 with None => true | Some _ => false end) fields.

(** `updateDoc(doc(db, c, id), fields)`: the given fields replace those of
    the document, which has to exist.  A field that is `undefined` is
    refused, unless the `db` handle ignores undefined properties. *)
Definition updateDoc (collection id : string)
    (fields : list (string * option value)) : M unit :=
  λ w,
    let rejected :=
      if has_undefined fields && negb (ignoreUndefinedProperties env)
      then Some (FirebaseError "invalid-argument")
      else match store_rejects env w (CallUpdateDoc collection id fields) with
           | Some e => Some e
           | None =>
               match store w !! (collection, id) with
               | None => Some (FirebaseError "not-found")
               | Some _ => None
               end
           end in
    match rejected with
    | Some e =>
        (Throw e, log_event (EvUpdateDoc collection id fields (Some e)) w)
    | None =>
        (Return (),
         commit (alter (λ d, defined_fields fields ∪ d) (collection, id) (store w))
                (EvUpdateDoc collection id fields None) w)
    end.

(** `deleteDoc(doc(db, c, id))` *)
Definition deleteDoc (collection id : string) : M unit :=
  λ w,
    match store_rejects env w (CallDeleteDoc collection id) with
    | Some e => (Throw e, log_event (EvDeleteDoc collection id (Some e)) w)
    | None =>
        (Return (),
         commit (delete (collection, id) (store w))
                (EvDeleteDoc collection id None) w)
    end.

(** `fetch(url, { redirect: "follow" })` *)
Definition fetch (url : string) : M FetchResponse :=
  λ w, let answer := fetch_answer env w url in
       (answer, log_event (EvFetch url answer) w).

(** `imagekit.upload(options)` *)
Definition imagekit_upload (options : UploadOptions) : M UploadResponse :=
  λ w, let answer := upload_answer env w options in
       (answer, log_event (EvUpload options answer) w).

(** `ai.models.generateContent(request)` *)
Definition generateContent (request : GenerateRequest) : M GenerateResponse :=
  λ w, let answer := generate_answer env w request in
       (answer, log_event (EvGenerate request answer) w).

(** ** `urlToInlineData` *)

(** The MIME type: the `content-type` header when it names an image, else
    what the extension of the URL says. *)
Definition mime_of (content_type : option string) (url : string) : string :=
  let mimeType := default "" content_type in
  if negb (Str.startsWith "image/" mimeType) then
    let lower := Str.toLowerCase url in
    if Str.endsWith ".jpg" lower || Str.endsWith ".jpeg" lower then "image/jpeg"
    else if Str.endsWith ".webp" lower then "image/webp"
    else if Str.endsWith ".gif" lower then "image/gif"
    else "image/png"
  else mimeType.

Definition urlToInlineData (url : string) : M Part :=
  let! res := fetch url in
  if negb (res_ok res) then
    throw (Error ("Failed to fetch image. Status " +:+ pretty (res_status res)))
  else
    let! arrayBuffer := lift (res_arrayBuffer res) in
    if (length arrayBuffer <? 20)%nat then
      throw (Error "Fetched image is empty or too small.")
    else
      let base64 := Base64.encode arrayBuffer in
      let mimeType := mime_of (res_content_type res) url in
      ret (PInline {| data := base64; mimeType := mimeType |}).

End Handler.

(** ** `extractJson` *)

Definition extractJson (text : string) : Result value :=
  match JSON.parse text with
  | Some v => Return v
  | None =>
      match Str.match_braces text with
      | None => Throw (Error "No JSON found in model output")
      | Some m =>
          match JSON.parse m with
          | Some v => Return v
          | None => Throw SyntaxError
          end
      end
  end.

(** ** The handler `POST` *)

(** `formData.get(name)` of a text field, as a value for the store. *)
Definition field_value (o : option string) : value :=
  match o with
  | Some s => JStr s
  | None => JNull
  end.

(** `avatar?.length > 2` *)
Definition avatar_given (avatar : option string) : bool :=
  match avatar with
  | Some a => (2 <? String.length a)%nat
  | None => false
  end.

(** `!imageUrl` is false: the request names an image that exists already. *)
Definition imageUrl_given (imageUrl : option string) : bool :=
  match imageUrl with
  | Some u => Str.truthy u
  | None => false
  end.

(** `file.arrayBuffer()`; reading a property of `null` is a `TypeError`. *)
Definition file_arrayBuffer (file : option File) : M (list Byte.byte) :=
  match file with
  | Some f => ret (file_bytes f)
  | None => throw (TypeError "Cannot read properties of null (reading 'arrayBuffer')")
  end.

(** `json.imageToVideo`: reading a property of `null` is a `TypeError`. *)
Definition get_imageToVideo (json : value) : Result (option value) :=
  match json with
  | JNull => Throw (TypeError "Cannot read properties of null (reading 'imageToVideo')")
  | _ => Return (member "imageToVideo" json)
  end.

(** The `config` of the first request to the model. *)
Definition json_config : value :=
  JObject
    [ (Str.units "responseMimeType", JStr "application/json");
      (Str.units "responseSchema",
       JObject
         [ (Str.units "type", JStr "object");
           (Str.units "properties",
            JObject
              [ (Str.units "textToImage", JObject [(Str.units "type", JStr "string")]);
                (Str.units "imageToVideo", JObject [(Str.units "type", JStr "string")]) ]);
           (Str.units "required", JArray [JStr "textToImage"; JStr "imageToVideo"]) ]) ].

(** The job record that intake creates. *)
Definition pending_record (form : Form.t) (docId : string) : Doc :=
  {[ "userEmail" := field_value (Form.userEmail form);
     "status" := JStr "pending";
     "description" := field_value (Form.description form);
     "size" := field_value (Form.size form);
     "docId" := JStr docId ]}.

(** The fields that the final `updateDoc` sets. *)
Definition completed_fields (finalUrl productImageUrl : string)
    (imageToVideo : option value) : list (string * option value) :=
  [ ("finalProductImageUrl", Some (JStr finalUrl));
    ("productImageUrl", Some (JStr productImageUrl));
    ("status", Some (JStr "completed"));
    ("imageToVideoPrompt", imageToVideo) ].

(** The payload of every failure. *)
Definition error_payload : value :=
  JObject [(Str.units "error", JStr "Please Try Again")].

(** `x?.trim() || ""` followed by the removal of the code-fence markers. *)
Definition clean_output (text : option string) : string :=
  let textOutput := match text with Some t => Str.trim t | None => "" end in
  Str.trim (Str.replace "```" "" (Str.replace "```json" "" textOutput)).

(** Lines 192-194: from the text of the model to the parsed value. *)
Definition parse_output (text : option string) : Result value :=
  extractJson (clean_output text).

(** A text between the markers of a Markdown code fence. *)
Definition code_fence (lang t : string) : string :=
  "```" +:+ lang +:+ Str.nl +:+ t +:+ Str.nl +:+ "```".

(** `contentParts.find(p => p.inlineData?.data)`: the data of the first part
    that carries a non-empty one. *)
Definition part_data (p : AnswerPart) : option string :=
  match a_inlineData p with
  | Some i => match a_data i with
              | Some d => if Str.truthy d then Some d else None
              | None => None
              end
  | None => None
  end.

Definition content_parts (r : GenerateResponse) : list AnswerPart :=
  match default [] (g_candidates r) with
  | c :: _ => match c_content c with
              | Some k => default [] (a_parts k)
              | None => []
              end
  | [] => []
  end.

Fixpoint find_image (ps : list AnswerPart) : option string :=
  match ps with
  | [] => None
  | p :: ps' => match part_data p with
                | Some d => Some d
                | None => find_image ps'
                end
  end.

Section Route.

Variable env : Env.
Variable form : Form.t.

Let file := Form.file form.
Let avatar := Form.avatar form.
Let imageUrl := Form.imageUrl form.

(** Lines 137-156: the product image.  The result is `uploadedBase64`,
    `uploadedMime` and `productImageUrl`. *)
Definition normalize_asset : M (option string * string * string) :=
  if negb (imageUrl_given imageUrl) then
    let! arrayBuffer := file_arrayBuffer file in
    let uploadedBase64 := Base64.encode arrayBuffer in
    let uploadedMime :=
      match file with
      | Some f => if Str.truthy (file_type f) then file_type f else "image/png"
      | None => "image/png"
      end in
    let! t := now env in
    let! imageKitRef :=
      imagekit_upload env
        {| up_file := uploadedBase64;
           up_fileName := pretty t +:+ ".png";
           up_isPublished := true |} in
    ret (Some uploadedBase64, uploadedMime, up_url imageKitRef)
  else ret (None, "image/png", default "" imageUrl).

(** Lines 164-166: the uploaded bytes when there are some, else the
    image behind the URL. *)
Definition product_part (uploadedBase64 : option string)
    (uploadedMime productImageUrl : string) : M Part :=
  match uploadedBase64 with
  | Some b =>
      if Str.truthy b then ret (PInline {| data := b; mimeType := uploadedMime |})
      else urlToInlineData env productImageUrl
  | None => urlToInlineData env productImageUrl
  end.

(** The body of the `try` block. *)
Definition try_block (docId : string) : M Response :=
  let! asset := normalize_asset in
  let '(uploadedBase64, uploadedMime, productImageUrl) := asset in
  let jsonPrompt := if avatar_given avatar then AVATAR_PROMPT else PROMPT in
  let! productPart := product_part uploadedBase64 uploadedMime productImageUrl in
  let! jsonResponse :=
    generateContent env
      {| model := "gemini-2.0-flash";
         contents :=
           [ {| role := "user";
                parts := [PText (Some (JStr jsonPrompt)); productPart] |} ];
         config := Some json_config |} in
  let! json := lift (parse_output (g_text jsonResponse)) in
  run! console_log [LogValue (JStr "JSON"); LogValue json] in
  let partsForImage := [PText (member "textToImage" json); productPart] in
  let! partsForImage :=
    (if avatar_given avatar then
       let! avatarPart := urlToInlineData env (default "" avatar) in
       ret (partsForImage ++ [avatarPart])
     else ret partsForImage) in
  let! imageResponse :=
    generateContent env
      {| model := "gemini-2.5-flash-image";
         contents := [ {| role := "user"; parts := partsForImage |} ];
         config := None |} in
  match find_image (content_parts imageResponse) with
  | None => throw (Error "No image returned from Gemini")
  | Some generatedImage =>
      let! t := now env in
      let! uploadResult :=
        imagekit_upload env
          {| up_file := "data:image/png;base64," +:+ generatedImage;
             up_fileName := "generate-" +:+ pretty t +:+ ".png";
             up_isPublished := true |} in
      let! imageToVideo := lift (get_imageToVideo json) in
      run! updateDoc env "user-ads" docId
             (completed_fields (up_url uploadResult) productImageUrl imageToVideo) in
      ret (NextResponse_json (JStr (up_url uploadResult)))
  end.

(** The body of the `catch` block. *)
Definition catch_block (docId : string) (e : JsError) : M Response :=
  run! deleteDoc env "user-ads" docId in
  run! console_log [LogError e] in
  ret (NextResponse_json error_payload).

(** Lines 121-134: the user lookup and the creation of the job record.
    The result is `docId`. *)
Definition intake : M string :=
  let! docs := getDocs env "users" "email" (field_value (Form.userEmail form)) in
  match head docs with
  | None => throw (TypeError "Cannot read properties of undefined (reading 'data')")
  | Some userDoc =>
      let userInfo := userDoc.2 in
      let! t := now env in
      let docId := pretty t in
      run! setDoc env "user-ads" docId (pending_record form docId) in
      ret docId
  end.

Definition POST : M Response :=
  let! docId := intake in
  try_catch (try_block docId) (catch_block docId).

End Route.

(** ** Reading a trace *)

(** The options of the uploads, in the order of the calls. *)
Definition uploads (evs : list Event) : list UploadOptions :=
  omap (λ ev, match ev with EvUpload o _ => Some o | _ => None end) evs.

(** The requests to the model, in the order of the calls. *)
Definition generations (evs : list Event) : list GenerateRequest :=
  omap (λ ev, match ev with EvGenerate r _ => Some r | _ => None end) evs.

(** The calls that change the document store. *)
Definition store_writes (evs : list Event) : list Event :=
  omap (λ ev, match ev with
              | EvSetDoc _ _ _ _ | EvUpdateDoc _ _ _ _ | EvDeleteDoc _ _ _ => Some ev
              | _ => None
              end) evs.

(** What `fetch` answered before the first request to the model: these are
    the fetches of the product image, the avatar being fetched between the
    two requests. *)
Fixpoint fetched_before_model (evs : list Event)
  : list (string * Result FetchResponse) :=
  match evs with
  | [] => []
  | EvGenerate _ _ :: _ => []
  | EvFetch url answer :: evs' => (url, answer) :: fetched_before_model evs'
  | _ :: evs' => fetched_before_model evs'
  end.

(** A call to the document store, or a line of the console. *)
Definition quiet_event (ev : Event) : Prop :=
  match ev with
  | EvFetch _ _ | EvUpload _ _ | EvGenerate _ _ => False
  | _ => True
  end.

(** The two requests to the model and the two uploads, as [try_block]
    builds them. *)
Definition first_request (prompt : string) (productPart : Part) : GenerateRequest :=
  {| model := "gemini-2.0-flash";
     contents :=
       [ {| role := "user";
            parts := [PText (Some (JStr prompt)); productPart] |} ];
     config := Some json_config |}.

Definition second_request (textToImage : option value) (productPart : Part)
    (more : list Part) : GenerateRequest :=
  {| model := "gemini-2.5-flash-image";
     contents :=
       [ {| role := "user";
            parts := [PText textToImage; productPart] ++ more |} ];
     config := None |}.

Definition product_upload (bytes : list Byte.byte) (t : Z) : UploadOptions :=
  {| up_file := Base64.encode bytes;
     up_fileName := pretty t +:+ ".png";
     up_isPublished := true |}.

Definition creative_upload (generatedImage : string) (t : Z) : UploadOptions :=
  {| up_file := "data:image/png;base64," +:+ generatedImage;
     up_fileName := "generate-" +:+ pretty t +:+ ".png";
     up_isPublished := true |}.

(** The part that [urlToInlineData] makes of an answer of `fetch`. *)
Definition inline_part (url : string) (res : FetchResponse)
    (bytes : list Byte.byte) : Part :=
  PInline {| data := Base64.encode bytes;
             mimeType := mime_of (res_content_type res) url |}.

(** The job record after the final `updateDoc`. *)
Definition completed_record (form : Form.t) (docId finalUrl productImageUrl : string)
    (imageToVideo : option value) : Doc :=
  defined_fields (completed_fields finalUrl productImageUrl imageToVideo)
  ∪ pending_record form docId.

(** The URLs fetched, in the order of the calls. *)
Definition fetches (evs : list Event) : list string :=
  omap (λ ev, match ev with EvFetch url _ => Some url | _ => None end) evs.

(** The world in which intake reads the clock: the one after the user
    lookup. *)
Definition after_lookup (form : Form.t) (w : World) : World :=
  let v := field_value (Form.userEmail form) in
  log_event (EvGetDocs "users" "email" v (Return (query (store w) "users" "email" v))) w.

(** The identifier that intake gives to the job of a request that arrives
    in [w]: `Date.now().toString()`. *)
Definition job_id (env : Env) (form : Form.t) (w : World) : string :=
  pretty (Date_now env (after_lookup form w)).

(** The names of the fields of a job record. *)
Definition record_fields : list string :=
  ["userEmail"; "status"; "description"; "size"; "docId";
   "finalProductImageUrl"; "productImageUrl"; "imageToVideoPrompt"].

(** * Scenarios

    Concrete worlds, on which the handler is run below. *)

Definition text_answer (t : string) : GenerateResponse :=
  {| g_text := Some t; g_candidates := None |}.

Definition image_answer (d : string) : GenerateResponse :=
  {| g_text := None;
     g_candidates :=
       Some [ {| c_content :=
                   Some {| a_parts :=
                             Some [ {| a_inlineData := None |};
                                    {| a_inlineData := Some {| a_data := Some d |} |} ] |} |} ] |}.

Definition served (code : Z) (content_type : option string) (n : nat) : FetchResponse :=
  {| res_status := code;
     res_content_type := content_type;
     res_arrayBuffer := Return (repeat Byte.x41 n) |}.

(** A shop whose model answers [out] to the first request and an image to
    the second, whose URLs all serve [page], whose image host accepts every
    upload, and whose store refuses to delete when [locked]. *)
Definition shop (out : string) (page : FetchResponse) (locked : bool) : Env :=
  {| Date_now := λ w, 1700000000000 + Z.of_nat (length (trace w));
     store_rejects := λ _ c,
       match c with
       | CallDeleteDoc _ _ =>
           if locked then Some (FirebaseError "permission-denied") else None
       | _ => None
       end;
     ignoreUndefinedProperties := false;
     fetch_answer := λ _ _, Return page;
     upload_answer := λ _ o,
       Return {| up_url := "https://ik.imagekit.io/shop/" +:+ up_fileName o |};
     generate_answer := λ _ r,
       if String.eqb (model r) "gemini-2.0-flash" then Return (text_answer out)
       else Return (image_answer "iVBORw0KGgo=") |}.

Definition good_output : string :=
  Str.q "{'textToImage': 'a mug on a table', 'imageToVideo': 'slow zoom'}".

(** The model echoes the format of the template, with an empty
    `imageToVideo`. *)
Definition terse_output : string :=
  Str.q "{'textToImage': 'a mug on a table', 'imageToVideo': ''}".

Definition png : FetchResponse := served 200 (Some "image/png") 32.

Definition users_world : World :=
  {| store := {[ ("users", "u1") := ({[ "email" := JStr "ann@example.com" ]} : Doc) ]};
     trace := [] |}.

Definition url_form : Form.t :=
  {| Form.file := None;
     Form.description := Some "a mug";
     Form.size := Some "1:1";
     Form.userEmail := Some "ann@example.com";
     Form.avatar := None;
     Form.imageUrl := Some "https://ik.imagekit.io/shop/mug.webp" |}.

Definition file_form : Form.t :=
  {| Form.file := Some {| file_bytes := repeat Byte.x41 5; file_type := "" |};
     Form.description := Some "a mug";
     Form.size := Some "1:1";
     Form.userEmail := Some "ann@example.com";
     Form.avatar := Some "https://ik.imagekit.io/shop/ann.jpg";
     Form.imageUrl := None |}.

Definition stranger_form : Form.t :=
  {| Form.file := Some {| file_bytes := repeat Byte.x41 5; file_type := "image/png" |};
     Form.description := None;
     Form.size := None;
     Form.userEmail := Some "bob@example.com";
     Form.avatar := None;
     Form.imageUrl := None |}.


(** A page that is missing, an image of 9 bytes, and an image served
    without a `content-type`. *)
Definition missing : FetchResponse := served 404 None 9.
Definition tiny : FetchResponse := served 200 (Some "image/png") 9.
Definition untyped : FetchResponse := served 200 None 32.

(** The identifier that [shop] gives to the job of a first request. *)
Definition job : string := "1700000000001".

(** The worlds of a run from [users_world]: after intake, after the `try`
    block, and at the end. *)
Definition w_intake (env : Env) (form : Form.t) : World :=
  (intake env form users_world).2.

Definition w_try (env : Env) (form : Form.t) : World :=
  (try_block env form job (w_intake env form)).2.

Definition w_post (env : Env) (form : Form.t) : World :=
  (POST env form users_world).2.

(** A text of the model with a code fence inside a string. *)
Definition fenced_inside : string :=
  Str.q "{'textToImage': 'print ```json on the mug', 'imageToVideo': 'pan'}".

(** A text of the model with prose around the object. *)
Definition chatty_output : string :=
  Str.q "Here it is: {'textToImage': 'a mug', 'imageToVideo': 'pan'} Enjoy!".

(** A request without a file, whose `imageUrl` is the empty string. *)
Definition bare_form : Form.t :=
  {| Form.file := None;
     Form.description := Some "a mug";
     Form.size := Some "1:1";
     Form.userEmail := Some "ann@example.com";
     Form.avatar := None;
     Form.imageUrl := Some "" |}.

(** The model leaves `imageToVideo` out. *)
Definition partial_output : string :=
  Str.q "{'textToImage': 'a mug on a table'}".

(** The shop of [shop], with a clock that stands still. *)
Definition frozen_shop (out : string) (page : FetchResponse) : Env :=
  {| Date_now := λ _, 1700000000000;
     store_rejects := store_rejects (shop out page false);
     ignoreUndefinedProperties := false;
     fetch_answer := fetch_answer (shop out page false);
     upload_answer := upload_answer (shop out page false);
     generate_answer := generate_answer (shop out page false) |}.

(** A shop whose model answers the second request with words. *)
Definition wordy_shop (out : string) (page : FetchResponse) : Env :=
  {| Date_now := Date_now (shop out page false);
     store_rejects := store_rejects (shop out page false);
     ignoreUndefinedProperties := false;
     fetch_answer := fetch_answer (shop out page false);
     upload_answer := upload_answer (shop out page false);
     generate_answer := λ _ _, Return (text_answer out) |}.

(** The shop in which every run below succeeds, the URL of the product
    image of [url_form], and the URL that a shop gives to the image
    generated at the time [t]. *)
Definition good_shop : Env := shop good_output png false.

Definition mug_url : string := "https://ik.imagekit.io/shop/mug.webp".

Definition result_url (t : Z) : string :=
  "https://ik.imagekit.io/shop/generate-" +:+ pretty t +:+ ".png".

(** The value of [chatty_output]. *)
Definition chatty_value : value :=
  JObject [(Str.units "textToImage", JStr "a mug"); (Str.units "imageToVideo", JStr "pan")].

(** A request whose file is empty. *)
Definition hollow_form : Form.t :=
  {| Form.file := Some {| file_bytes := []; file_type := "image/png" |};
     Form.description := None;
     Form.size := None;
     Form.userEmail := Some "ann@example.com";
     Form.avatar := Some "no";
     Form.imageUrl := None |}.

(** * Properties *)

(** ** Runs of the definitions on small inputs *)

Example q_ex : Str.q "{'a':1}" = String "{" (String "034" (String "a" (String "034" ":1}"))).
Proof. reflexivity. Qed.
Example trim_ex : Str.trim (" " +:+ Str.nl +:+ "a b" +:+ Str.nl) = "a b".
Proof. reflexivity. Qed.
Example replace_ex : Str.replace "```" "" "x```y```" = "xy```".
Proof. reflexivity. Qed.
Example replace_empty_ex : Str.replace "" "z" "ab" = "zab".
Proof. reflexivity. Qed.
Example endsWith_ex : Str.endsWith ".webp" "a.webp" = true /\ Str.endsWith ".webp" "webp" = false.
Proof. split; reflexivity. Qed.
Example match_ex : Str.match_braces "say {a} and {b}." = Some "{a} and {b}".
Proof. reflexivity. Qed.
Example match_none_ex : Str.match_braces "} no {" = None.
Proof. reflexivity. Qed.
Example lower_ex : Str.toLowerCase "A.JPG" = "a.jpg".
Proof. reflexivity. Qed.
Example base64_ex :
  Base64.encode [Byte.x4d; Byte.x61; Byte.x6e] = "TWFu"
  /\ Base64.encode [Byte.x4d; Byte.x61] = "TWE="
  /\ Base64.encode [Byte.x4d] = "TQ=="
  /\ Base64.encode [Byte.xff; Byte.xfe; Byte.xfd; Byte.x00] = "//79AA==".
Proof. repeat split; reflexivity. Qed.

Example parse_ex1 :
  JSON.parse (Str.q "{'textToImage': 'a', 'imageToVideo': 'b'}")
  = Some (JSON.JObject [(Str.units "textToImage", JSON.JStr "a");
                        (Str.units "imageToVideo", JSON.JStr "b")]).
Proof. reflexivity. Qed.
Example parse_ex2 :
  JSON.parse (Str.q " [1, -2.5e+3, true, null, {'k': []}, 'x\u0041\n'] ")
  = Some (JSON.JArray [JSON.JNumber "1"; JSON.JNumber "-2.5e+3"; JSON.JBool true;
                       JSON.JNull; JSON.JObject [(Str.units "k", JSON.JArray [])];
                       JSON.JString [120; 65; 10]%N]).
Proof. reflexivity. Qed.
Example parse_ex3 :
  JSON.parse "{oops}" = None /\ JSON.parse "01" = None /\ JSON.parse "[1,]" = None
  /\ JSON.parse "" = None /\ JSON.parse "1 2" = None /\ JSON.parse (Str.q "{'a':1}```") = None
  /\ JSON.parse "[[[[1]]]]" = Some (JSON.JArray [JSON.JArray [JSON.JArray [JSON.JArray [JSON.JNumber "1"]]]]).
Proof. repeat split; reflexivity. Qed.

(** ** Facts about strings *)

Lemma app_nil_s (s : string) : "" +:+ s = s.
Proof. reflexivity. Qed.

Lemma app_cons_s (c : ascii) (a b : string) :
  String c a +:+ b = String c (a +:+ b).
Proof. reflexivity. Qed.

Lemma app_empty_r (s : string) : s +:+ "" = s.
Proof. induction s as [|c s IH]; [done | by rewrite app_cons_s, IH]. Qed.

Lemma app_assoc_s (a b c : string) : (a +:+ b) +:+ c = a +:+ (b +:+ c).
Proof. induction a as [|x a IH]; [done | by rewrite !app_cons_s, IH]. Qed.

Lemma length_app_s (a b : string) :
  String.length (a +:+ b) = (String.length a + String.length b)%nat.
Proof. induction a as [|x a IH]; [done | rewrite app_cons_s; simpl; by rewrite IH]. Qed.

Lemma startsWith_app (p s : string) : Str.startsWith p (p +:+ s) = true.
Proof.
  induction p as [|c p IH]; [done|].
  rewrite app_cons_s. simpl. by rewrite Ascii.eqb_refl, IH.
Qed.

Lemma startsWith_spec (p s : string) :
  Str.startsWith p s = true ↔ ∃ r, s = p +:+ r.
Proof.
  split.
  - revert s. induction p as [|c p IH]; intros s H; simpl in *.
    + by exists s.
    + destruct s as [|d s]; [done|].
      apply andb_true_iff in H as [Hc Hp].
      apply Ascii.eqb_eq in Hc as ->.
      destruct (IH _ Hp) as [r ->]. by exists r.
  - intros [r ->]. apply startsWith_app.
Qed.

Lemma drop_app_length (p s : string) (k : nat) :
  Str.drop (String.length p + k) (p +:+ s) = Str.drop k s.
Proof. induction p as [|c p IH]; [done | rewrite app_cons_s; apply IH]. Qed.

Lemma drop_0 (s : string) : Str.drop 0 s = s.
Proof. by destruct s. Qed.

Lemma drop_split (n : nat) (s : string) : ∃ p, s = p +:+ Str.drop n s.
Proof.
  revert s. induction n as [|n IH]; intros s.
  - exists "". by rewrite drop_0.
  - destruct s as [|c s]; simpl; [by exists ""|].
    destruct (IH s) as [p Hp]. exists (String c p).
    rewrite app_cons_s. by rewrite <- Hp.
Qed.

Lemma endsWith_spec (suf s : string) :
  Str.endsWith suf s = true ↔ ∃ p, s = p +:+ suf.
Proof.
  unfold Str.endsWith. split.
  - intros H. apply andb_true_iff in H as [_ H].
    apply String.eqb_eq in H.
    destruct (drop_split (String.length s - String.length suf) s) as [p Hp].
    exists p. by rewrite H in Hp.
  - intros [p ->]. rewrite length_app_s.
    apply andb_true_iff. split; [apply Nat.leb_le; lia|].
    replace (String.length p + String.length suf - String.length suf)%nat
      with (String.length p + 0)%nat by lia.
    rewrite drop_app_length, drop_0. apply String.eqb_refl.
Qed.

Lemma app_inj_tail_s (a b x y : string) :
  a +:+ x = b +:+ y → String.length x = String.length y → x = y.
Proof.
  revert b. induction a as [|c a IH]; intros [|d b] H L;
    rewrite ?app_cons_s, ?app_nil_s in H.
  - done.
  - apply (f_equal String.length) in H. simpl in H.
    rewrite length_app_s in H. lia.
  - apply (f_equal String.length) in H. simpl in H.
    rewrite length_app_s in H. lia.
  - injection H as _ H. by apply (IH b).
Qed.

(** A string has at most one ending of a given length. *)
Lemma endsWith_same_length (a b s : string) :
  Str.endsWith a s = true → Str.endsWith b s = true →
  String.length a = String.length b → a = b.
Proof.
  intros [p ->]%endsWith_spec [p' H]%endsWith_spec L.
  by apply (app_inj_tail_s p p').
Qed.

(** An ending of an ending is an ending. *)
Lemma endsWith_tail (a b s : string) :
  Str.endsWith (a +:+ b) s = true → Str.endsWith b s = true.
Proof.
  intros [p ->]%endsWith_spec. apply endsWith_spec.
  exists (p +:+ a). by rewrite app_assoc_s.
Qed.

Lemma toLowerCase_app (a b : string) :
  Str.toLowerCase (a +:+ b) = Str.toLowerCase a +:+ Str.toLowerCase b.
Proof.
  induction a as [|c a IH]; [done|].
  rewrite app_cons_s. simpl. by rewrite IH, app_cons_s.
Qed.

(** Two endings of one string, written out: the shorter is the tail of
    the longer. *)
Lemma endsWith_clash4 (a : ascii) (b c s : string) :
  String.length b = String.length c → b ≠ c →
  Str.endsWith (String a b) s = true → Str.endsWith c s = true → False.
Proof.
  intros L N H1 H2. apply N.
  apply (endsWith_same_length b c s); [|done..].
  by apply (endsWith_tail (String a "") b).
Qed.

Lemma endsWith_clash (b c s : string) :
  String.length b = String.length c → b ≠ c →
  Str.endsWith b s = true → Str.endsWith c s = true → False.
Proof. intros L N H1 H2. apply N. by apply (endsWith_same_length b c s). Qed.

(** ** The MIME type (C4) *)

Lemma mime_of_header (ct : option string) (url : string) :
  Str.startsWith "image/" (default "" ct) = true → mime_of ct url = default "" ct.
Proof. unfold mime_of. by intros ->. Qed.

Lemma mime_of_extension (ct : option string) (url : string) :
  Str.startsWith "image/" (default "" ct) = false →
  let lower := Str.toLowerCase url in
  (Str.endsWith ".jpg" lower = true ∨ Str.endsWith ".jpeg" lower = true →
     mime_of ct url = "image/jpeg")
  ∧ (Str.endsWith ".webp" lower = true → mime_of ct url = "image/webp")
  ∧ (Str.endsWith ".gif" lower = true → mime_of ct url = "image/gif")
  ∧ (Str.endsWith ".jpg" lower = false → Str.endsWith ".jpeg" lower = false →
     Str.endsWith ".webp" lower = false → Str.endsWith ".gif" lower = false →
     mime_of ct url = "image/png").
Proof.
  intros Hct lower. unfold mime_of. rewrite Hct. simpl. fold lower.
  repeat split.
  - by intros [-> | ->]; rewrite ?orb_true_r.
  - intros H.
    destruct (Str.endsWith ".jpg" lower) eqn:E1.
    { exfalso. by apply (endsWith_clash4 "." "webp" ".jpg" lower). }
    destruct (Str.endsWith ".jpeg" lower) eqn:E2.
    { exfalso. by apply (endsWith_clash ".webp" ".jpeg" lower). }
    by rewrite H.
  - intros H.
    destruct (Str.endsWith ".jpg" lower) eqn:E1.
    { exfalso. by apply (endsWith_clash ".gif" ".jpg" lower). }
    destruct (Str.endsWith ".jpeg" lower) eqn:E2.
    { exfalso. by apply (endsWith_clash4 "." "jpeg" ".gif" lower). }
    destruct (Str.endsWith ".webp" lower) eqn:E3.
    { exfalso. by apply (endsWith_clash4 "." "webp" ".gif" lower). }
    by rewrite H.
  - by intros -> -> -> ->.
Qed.

Lemma endsWith_lower_app (p ext : string) :
  Str.toLowerCase ext = ext →
  Str.endsWith ext (Str.toLowerCase (p +:+ ext)) = true.
Proof.
  intros H. apply endsWith_spec. exists (Str.toLowerCase p).
  by rewrite toLowerCase_app, H.
Qed.

Lemma mime_of_webp (ct : option string) (p : string) :
  Str.startsWith "image/" (default "" ct) = false →
  mime_of ct (p +:+ ".webp") = "image/webp".
Proof.
  intros Hct. apply mime_of_extension; [done|].
  by apply endsWith_lower_app.
Qed.

Lemma mime_of_xyz (ct : option string) (p : string) :
  Str.startsWith "image/" (default "" ct) = false →
  mime_of ct (p +:+ ".xyz") = "image/png".
Proof.
  intros Hct.
  assert (Str.endsWith ".xyz" (Str.toLowerCase (p +:+ ".xyz")) = true) as H
    by by apply endsWith_lower_app.
  apply mime_of_extension; [done|..].
  - destruct (Str.endsWith ".jpg" _) eqn:E; [|done].
    exfalso. by apply (endsWith_clash ".xyz" ".jpg" _ eq_refl ltac:(done) H E).
  - destruct (Str.endsWith ".jpeg" _) eqn:E; [|done].
    exfalso. by apply (endsWith_clash4 "." "jpeg" ".xyz" _ eq_refl ltac:(done) E H).
  - destruct (Str.endsWith ".webp" _) eqn:E; [|done].
    exfalso. by apply (endsWith_clash4 "." "webp" ".xyz" _ eq_refl ltac:(done) E H).
  - destruct (Str.endsWith ".gif" _) eqn:E; [|done].
    exfalso. by apply (endsWith_clash ".xyz" ".gif" _ eq_refl ltac:(done) H E).
Qed.

Lemma urlToInlineData_Return env url w part w' :
  urlToInlineData env url w = (Return part, w') →
  ∃ res bytes,
    fetch_answer env w url = Return res
    ∧ res_ok res = true
    ∧ res_arrayBuffer res = Return bytes
    ∧ (20 ≤ length bytes)%nat
    ∧ part = PInline {| data := Base64.encode bytes;
                        mimeType := mime_of (res_content_type res) url |}
    ∧ w' = log_event (EvFetch url (Return res)) w.
Proof.
  unfold urlToInlineData, fetch, bind, lift, throw, ret.
  destruct (fetch_answer env w url) as [res|e] eqn:F; [|done].
  destruct (res_ok res) eqn:Hok; simpl; [|done].
  destruct (res_arrayBuffer res) as [bytes|e] eqn:B; [|done].
  destruct (length bytes <? 20)%nat eqn:L; [done|].
  intros [= <- <-]. exists res, bytes. repeat split; try done.
  by apply Nat.ltb_ge.
Qed.

(** C4. The MIME type that [urlToInlineData] gives: the `content-type`
    header when it starts with [image/]; else, by the ending of the URL in
    lower case, [image/jpeg] for [.jpg] and [.jpeg], [image/webp] for
    [.webp], [image/gif] for [.gif], and [image/png] for every other URL.
    So a URL that ends in [.webp] gives [image/webp] and one that ends in
    [.xyz] gives [image/png] when the header is missing or names no
    image. *)
Theorem urlToInlineData_mimeType env url w part w' :
  urlToInlineData env url w = (Return part, w') →
  ∃ res d,
    fetch_answer env w url = Return res
    ∧ part = PInline {| data := d; mimeType := mime_of (res_content_type res) url |}
    ∧ let header := default "" (res_content_type res) in
      let lower := Str.toLowerCase url in
      let m := mime_of (res_content_type res) url in
      (Str.startsWith "image/" header = true → m = header)
      ∧ (Str.startsWith "image/" header = false →
           (Str.endsWith ".jpg" lower = true ∨ Str.endsWith ".jpeg" lower = true →
              m = "image/jpeg")
           ∧ (Str.endsWith ".webp" lower = true → m = "image/webp")
           ∧ (Str.endsWith ".gif" lower = true → m = "image/gif")
           ∧ (Str.endsWith ".jpg" lower = false → Str.endsWith ".jpeg" lower = false →
              Str.endsWith ".webp" lower = false → Str.endsWith ".gif" lower = false →
              m = "image/png")
           ∧ (∀ p, url = p +:+ ".webp" → m = "image/webp")
           ∧ (∀ p, url = p +:+ ".xyz" → m = "image/png")).
Proof.
  intros (res & bytes & F & _ & _ & _ & -> & _)%urlToInlineData_Return.
  exists res, (Base64.encode bytes). split; [done|]. split; [done|].
  intros header lower m. split.
  - apply mime_of_header.
  - intros H.
    destruct (mime_of_extension (res_content_type res) url H) as (J & W & G & P).
    repeat split; try done.
    + intros p ->. by apply mime_of_webp.
    + intros p ->. by apply mime_of_xyz.
Qed.

(** ** The scanner *)

Ltac each_char c := destruct c as [[] [] [] [] [] [] [] []].

Lemma lex_run_app (st : scan) (a b : string) :
  lex_run st (a +:+ b) = lex_run st a ≫= λ st', lex_run st' b.
Proof.
  revert st. induction a as [|c a IH]; intros st; [done|].
  rewrite app_cons_s. simpl. destruct (lex_char st c) as [st1|]; simpl; [apply IH | done].
Qed.

(** No JSON text ends with a backquote. *)
Lemma lex_char_backquote (st : scan) : lex_char st "`" ≫= lex_end = None.
Proof.
  destruct st as [ts [|w|u|u|u k code]]; simpl; try done.
  by destruct (word_token w).
Qed.

Lemma lex_backquote (s : string) : lex (s +:+ "`") = None.
Proof.
  unfold lex. rewrite lex_run_app.
  destruct (lex_run _ s) as [st|]; simpl; [|done].
  pose proof (lex_char_backquote st) as H. simpl in H.
  by destruct (lex_char st "`").
Qed.

Lemma parse_backquote (s : string) : parse (s +:+ "`") = None.
Proof. unfold parse. by rewrite lex_backquote. Qed.

(** White space of JavaScript before a JSON text is JSON white space. *)
Lemma top_char_white ts c :
  Str.is_white_space c = true →
  top_char ts c = if is_ws c then Some (ts, Top) else None.
Proof. intros H. each_char c; try done. Qed.

Lemma lex_trimStart (t : string) (toks : list token) :
  lex t = Some toks → lex (Str.trimStart t) = Some toks.
Proof.
  induction t as [|c t IH]; [done|]. simpl.
  destruct (Str.is_white_space c) eqn:W; [|done].
  unfold lex. simpl. rewrite (top_char_white _ _ W).
  destruct (is_ws c); [apply IH | done].
Qed.

Lemma white_not_word c : Str.is_white_space c = true → is_word_char c = false.
Proof. intros H. each_char c; try done. Qed.

(** White space after the last token changes nothing. *)
Lemma lex_char_white_end (st st1 : scan) c toks :
  Str.is_white_space c = true →
  lex_char st c = Some st1 → lex_end st1 = Some toks → lex_end st = Some toks.
Proof.
  intros W. destruct st as [ts [|w|u|u|u k code]]; simpl.
  - rewrite (top_char_white _ _ W). destruct (is_ws c); [|done]. by intros [= <-].
  - rewrite (white_not_word _ W). destruct (word_token w) as [t|]; simpl; [|done].
    rewrite (top_char_white _ _ W). destruct (is_ws c); [|done]. by intros [= <-].
  - each_char c; try done; vm_compute; try done; by intros [= <-].
  - each_char c; try done; vm_compute; try done; by intros [= <-].
  - each_char c; try done; vm_compute; try done; by intros [= <-].
Qed.

Lemma lex_run_blank_end (ws : string) (st st1 : scan) toks :
  Str.blank ws = true →
  lex_run st ws = Some st1 → lex_end st1 = Some toks → lex_end st = Some toks.
Proof.
  revert st. induction ws as [|c ws IH]; intros st B; simpl in *.
  - by intros [= <-].
  - apply andb_true_iff in B as [W B].
    destruct (lex_char st c) as [st2|] eqn:E; simpl; [|done].
    intros R L. apply (lex_char_white_end _ _ _ _ W E). by apply (IH st2).
Qed.

Lemma lex_blank_end (s ws : string) toks :
  Str.blank ws = true → lex (s +:+ ws) = Some toks → lex s = Some toks.
Proof.
  unfold lex. intros B. rewrite lex_run_app.
  destruct (lex_run _ s) as [st|]; simpl; [|done].
  destruct (lex_run st ws) as [st1|] eqn:R; simpl; [|done].
  by apply (lex_run_blank_end ws).
Qed.

(** *** Trimming *)

Lemma trimStart_split (t : string) :
  ∃ ws, Str.blank ws = true ∧ t = ws +:+ Str.trimStart t.
Proof.
  induction t as [|c t (ws & B & E)]; simpl.
  - by exists "".
  - destruct (Str.is_white_space c) eqn:W.
    + exists (String c ws). simpl. rewrite W, B. split; [done|].
      by rewrite app_cons_s, <- E.
    + by exists "".
Qed.

Lemma trimEnd_split (t : string) :
  ∃ ws, Str.blank ws = true ∧ t = Str.trimEnd t +:+ ws.
Proof.
  induction t as [|c t (ws & B & E)]; simpl.
  - by exists "".
  - destruct (Str.trimEnd t) as [|d r] eqn:T.
    + destruct (Str.is_white_space c) eqn:W.
      * exists (String c ws). simpl. rewrite W, B. split; [done|].
        rewrite app_nil_s in *. by rewrite <- E.
      * exists ws. split; [done|]. rewrite app_cons_s. by rewrite <- E.
    + exists ws. split; [done|]. rewrite app_cons_s. by rewrite <- E.
Qed.

Lemma lex_trim (t : string) (toks : list token) :
  lex t = Some toks → lex (Str.trim t) = Some toks.
Proof.
  intros H%lex_trimStart. unfold Str.trim.
  destruct (trimEnd_split (Str.trimStart t)) as (ws & B & E).
  rewrite E in H. by apply (lex_blank_end _ ws).
Qed.

(** `JSON.parse` does not see the white space that `trim` removes. *)
Lemma parse_trim (t : string) (v : value) :
  parse t = Some v → parse (Str.trim t) = Some v.
Proof.
  unfold parse. destruct (lex t) as [toks|] eqn:L; [|done].
  by rewrite (lex_trim _ _ L).
Qed.

(** *** The first and the last token *)

Lemma punctuation_LBrace c : punctuation c = Some TLBrace → c = "{"%char.
Proof.
  unfold punctuation.
  destruct (Ascii.eqb_spec c "{"); [done|].
  repeat (destruct (Ascii.eqb c _); [done|]). done.
Qed.

Lemma punctuation_RBrace c : punctuation c = Some TRBrace → c = "}"%char.
Proof.
  unfold punctuation.
  destruct (Ascii.eqb c "{"); [done|].
  destruct (Ascii.eqb_spec c "}"); [done|].
  repeat (destruct (Ascii.eqb c _); [done|]). done.
Qed.

Lemma word_token_scalar w t :
  word_token w = Some t → t ≠ TLBrace ∧ t ≠ TRBrace.
Proof.
  unfold word_token.
  repeat (destruct (String.eqb _ _); [by intros [= <-]|]).
  destruct (valid_number _); [by intros [= <-] | done].
Qed.


Lemma other_first_cons t ts m m' :
  (ts = [] → t ≠ TLBrace) → other_first (ts, m) → other_first (t :: ts, m').
Proof.
  unfold other_first. simpl. rewrite last_cons.
  destruct (last ts) eqn:L; [done|].
  apply last_None in L. intros H _. by apply H.
Qed.

Lemma other_first_mode ts m m' :
  other_first (ts, m) → m' ≠ Top → other_first (ts, m').
Proof. unfold other_first. simpl. by destruct (last ts). Qed.

Lemma other_first_nil_Top : ¬ other_first ([], Top).
Proof. unfold other_first. simpl. tauto. Qed.

Lemma top_char_other_first ts c st1 :
  other_first (ts, Top) → top_char ts c = Some st1 → other_first st1.
Proof.
  intros O. unfold top_char.
  destruct (is_ws c); [by intros [= <-]|].
  destruct (punctuation c) as [p|].
  { intros [= <-]. apply (other_first_cons _ _ Top); [|done].
    intros ->. by destruct other_first_nil_Top. }
  destruct (Ascii.eqb c _); [intros [= <-]; by apply (other_first_mode _ Top)|].
  destruct (is_word_char c); [intros [= <-]; by apply (other_first_mode _ Top) | done].
Qed.

Lemma lex_char_other_first st c st1 :
  other_first st → lex_char st c = Some st1 → other_first st1.
Proof.
  destruct st as [ts m]. intros O.
  destruct m as [|w|u|u|u k code]; simpl.
  - by apply top_char_other_first.
  - destruct (is_word_char c).
    { intros [= <-]. by apply (other_first_mode _ (InWord w)). }
    destruct (word_token w) as [t|] eqn:W; simpl; [|done].
    apply top_char_other_first.
    apply (other_first_cons _ _ (InWord w)); [|done].
    intros _. by apply word_token_scalar in W as [? ?].
  - destruct (Ascii.eqb c _).
    { intros [= <-]. by apply (other_first_cons _ _ (InStr u)). }
    destruct (Ascii.eqb c _); [intros [= <-]; by apply (other_first_mode _ (InStr u))|].
    destruct (_ <? _)%N; [done|].
    intros [= <-]; by apply (other_first_mode _ (InStr u)).
  - destruct (Ascii.eqb c _); [intros [= <-]; by apply (other_first_mode _ (InEsc u))|].
    destruct (escape c); simpl; [|done].
    intros [= <-]; by apply (other_first_mode _ (InEsc u)).
  - destruct (hex_digit c); simpl; [|done].
    destruct (k =? 3)%nat; intros [= <-]; by apply (other_first_mode _ (InHex u k code)).
Qed.

Lemma lex_run_other_first s st st1 :
  other_first st → lex_run st s = Some st1 → other_first st1.
Proof.
  revert st. induction s as [|c s IH]; intros st O; simpl.
  - by intros [= <-].
  - destruct (lex_char st c) as [st2|] eqn:E; simpl; [|done].
    apply IH. by apply (lex_char_other_first st c).
Qed.

Lemma lex_end_other_first st toks :
  other_first st → lex_end st = Some toks → head toks ≠ Some TLBrace.
Proof.
  destruct st as [ts m]. unfold other_first. simpl.
  destruct m as [|w|u|u|u k code]; simpl; try done.
  - intros O [= <-]. rewrite head_reverse. destruct (last ts); [congruence | done].
  - destruct (word_token w) as [t|] eqn:W; simpl; [|done].
    intros O [= <-]. rewrite head_reverse, last_cons.
    apply word_token_scalar in W as [? ?].
    destruct (last ts); congruence.
Qed.

(** A text that is not blank at its first character and whose first token
    is [{] starts with that character. *)
Lemma lex_first_brace c s toks :
  lex (String c s) = Some (TLBrace :: toks) → is_ws c = false → c = "{"%char.
Proof.
  unfold lex. simpl. unfold top_char. intros H W. rewrite W in H.
  destruct (punctuation c) as [p|] eqn:P.
  - destruct p; try (by apply punctuation_LBrace);
      simpl in H;
      (destruct (lex_run _ s) as [st1|] eqn:R; simpl in H; [|done];
       apply (lex_run_other_first s _ st1) in R; [|done];
       by apply (lex_end_other_first _ _ R) in H).
  - destruct (Ascii.eqb c _);
      [|destruct (is_word_char c); [|done]];
      simpl in H;
      (destruct (lex_run _ s) as [st1|] eqn:R; simpl in H; [|done];
       apply (lex_run_other_first s _ st1) in R; [|done];
       by apply (lex_end_other_first _ _ R) in H).
Qed.

Lemma ws_white c : is_ws c = true → Str.is_white_space c = true.
Proof. intros H. each_char c; try done. Qed.

Lemma top_char_RBrace ts c ts1 :
  top_char ts c = Some (TRBrace :: ts1, Top) →
  Str.is_white_space c = false → c = "}"%char.
Proof.
  unfold top_char. intros H W.
  destruct (is_ws c) eqn:J; [apply ws_white in J; congruence|].
  destruct (punctuation c) as [p|] eqn:P.
  - injection H as -> _. by apply punctuation_RBrace.
  - destruct (Ascii.eqb c _); [done|]. by destruct (is_word_char c).
Qed.

Lemma lex_char_RBrace st c ts1 :
  lex_char st c = Some (TRBrace :: ts1, Top) →
  Str.is_white_space c = false → c = "}"%char.
Proof.
  destruct st as [ts [|w|u|u|u k code]]; simpl.
  - apply top_char_RBrace.
  - destruct (is_word_char c); [done|].
    destruct (word_token w); simpl; [apply top_char_RBrace | done].
  - destruct (Ascii.eqb c _); [done|]. destruct (Ascii.eqb c _); [done|].
    by destruct (_ <? _)%N.
  - destruct (Ascii.eqb c _); [done|]. by destruct (escape c).
  - destruct (hex_digit c); simpl; [|done]. by destruct (k =? 3)%nat.
Qed.

Lemma lex_end_RBrace st toks :
  lex_end st = Some toks → last toks = Some TRBrace →
  ∃ ts1, st = (TRBrace :: ts1, Top).
Proof.
  destruct st as [ts [|w|u|u|u k code]]; simpl; try done.
  - intros [= <-]. rewrite last_reverse. destruct ts as [|t ts]; [done|].
    intros [= ->]. by exists ts.
  - destruct (word_token w) as [t|] eqn:W; simpl; [|done].
    intros [= <-]. rewrite last_reverse. simpl. intros [= ->].
    by apply word_token_scalar in W as [? ?].
Qed.

(** A text that is not blank at its last character and whose last token is
    [}] ends with that character. *)
Lemma lex_last_brace s c toks :
  lex (s +:+ String c "") = Some toks → last toks = Some TRBrace →
  Str.is_white_space c = false → c = "}"%char.
Proof.
  unfold lex. rewrite lex_run_app. intros H L W.
  destruct (lex_run _ s) as [st|]; simpl in H; [|done].
  destruct (lex_char st c) as [st1|] eqn:E; simpl in H; [|done].
  destruct (lex_end_RBrace _ _ H L) as [ts1 ->].
  by apply (lex_char_RBrace st c ts1).
Qed.

(** ** The parser *)

(** What a successful parse has read: the tokens before the rest.  An array
    comes from [parse_elements], an object from [parse_members], and an
    object ends with [}]. *)
Lemma parse_shape (n : nat) :
  (∀ ts v r, parse_value n ts = Some (v, r) →
     ∃ pre, ts = pre ++ r
       ∧ (is_object v = true → head ts = Some TLBrace ∧ last pre = Some TRBrace))
  ∧ (∀ ts acc v r, parse_elements n ts acc = Some (v, r) →
       is_object v = false ∧ ∃ pre, ts = pre ++ r)
  ∧ (∀ ts acc v r, parse_members n ts acc = Some (v, r) →
       ∃ pre, ts = pre ++ TRBrace :: r).
Proof.
  induction n as [|n IH]; [done|].
  destruct IH as (IHv & IHe & IHm).
  split; [|split].
  - intros ts v r H. simpl in H.
    destruct ts as [|t ts]; [done|].
    destruct t; simplify_eq; try (eexists [_]; split; [reflexivity | done]).
    + destruct ts as [|t ts]; [clear IHv IHe IHm; destruct n as [|[|?]]; simplify_eq/=|].
      destruct t; simplify_eq;
        try (apply IHm in H as [pre E]; rewrite E;
             exists (TLBrace :: pre ++ [TRBrace]); split;
             [simpl; by rewrite <- !app_assoc
             |intros _; split; [done|]; by rewrite last_cons, last_snoc]).
      exists [TLBrace; TRBrace]. split; [done|]. intros _. by split.
    + destruct ts as [|t ts]; [clear IHv IHe IHm; destruct n as [|[|?]]; simplify_eq/=|].
      destruct t; simplify_eq;
        try (apply IHe in H as [O [pre E]]; rewrite E;
             exists (TLBracket :: pre); split; [done | by rewrite O]).
      exists [TLBracket; TRBracket]. split; [done|]. by intros ?.
  - intros ts acc v r H. simpl in H.
    destruct (parse_value n ts) as [[v0 r0]|] eqn:E; [|done].
    apply IHv in E as (pre & -> & _).
    destruct r0 as [|t r0]; [done|]. destruct t; simplify_eq.
    + split; [done|]. exists (pre ++ [TRBracket]). by rewrite <- app_assoc.
    + apply IHe in H as [O [pre1 ->]]. split; [done|].
      exists (pre ++ TComma :: pre1). by rewrite <- app_assoc.
  - intros ts acc v r H. simpl in H.
    destruct ts as [|t ts]; [done|]. destruct t; try done.
    destruct ts as [|t ts]; [done|]. destruct t; try done.
    destruct (parse_value n ts) as [[v0 r0]|] eqn:E; [|done].
    apply IHv in E as (pre & -> & _).
    destruct r0 as [|t r0]; [done|]. destruct t; simplify_eq.
    + exists (TString s :: TColon :: pre). done.
    + apply IHm in H as [pre1 ->].
      exists (TString s :: TColon :: pre ++ TComma :: pre1).
      simpl. by rewrite <- app_assoc.
Qed.

Lemma parse_tokens_object toks v :
  parse_tokens toks = Some v → is_object v = true →
  head toks = Some TLBrace ∧ last toks = Some TRBrace.
Proof.
  unfold parse_tokens.
  destruct (parse_value _ toks) as [[v0 r]|] eqn:E; [|done].
  destruct r; [|done]. intros [= ->] O.
  destruct (parse_shape (length toks)) as (Hv & _ & _).
  destruct (Hv _ _ _ E) as (pre & -> & H).
  rewrite app_nil_r in *. by apply H.
Qed.

(** The fuel of the parser: a parse that succeeds with some fuel succeeds,
    with the same result, with as much fuel as it reads tokens. *)
Lemma parse_fuel (n : nat) :
  (∀ ts v r, parse_value n ts = Some (v, r) →
     ∀ m, (length ts - length r ≤ m)%nat → parse_value m ts = Some (v, r))
  ∧ (∀ ts acc v r, parse_elements n ts acc = Some (v, r) →
       ∀ m, (length ts - length r ≤ m)%nat → parse_elements m ts acc = Some (v, r))
  ∧ (∀ ts acc v r, parse_members n ts acc = Some (v, r) →
       ∀ m, (length ts - length r ≤ m)%nat → parse_members m ts acc = Some (v, r)).
Proof.
  induction n as [|n IH]; [done|].
  destruct IH as (IHv & IHe & IHm).
  destruct (parse_shape n) as (Sv & Se & Sm).
  split; [|split].
  - intros ts v r H m L. simpl in H.
    destruct ts as [|t ts]; [done|].
    destruct m as [|m]; [simpl in L|].
    { destruct t; simplify_eq; simpl in L; try lia.
      - destruct ts as [|t ts]; [clear IHv IHe IHm Sv Se Sm; destruct n as [|[|?]]; simplify_eq/=|].
        destruct t; simplify_eq; simpl in *; try lia;
          apply Sm in H as [pre E]; apply (f_equal length) in E;
          rewrite length_app in E; simpl in *; lia.
      - destruct ts as [|t ts]; [clear IHv IHe IHm Sv Se Sm; destruct n as [|[|?]]; simplify_eq/=|].
        destruct t; simplify_eq; simpl in *; try lia;
          apply Se in H as [_ [pre E]]; apply (f_equal length) in E;
          rewrite length_app in E; simpl in *; lia. }
    destruct t; simplify_eq; try done.
    + destruct ts as [|t ts]; [clear IHv IHe IHm Sv Se Sm; destruct n as [|[|?]]; simplify_eq/=|].
      destruct t; simplify_eq; try done;
        (simpl; apply (IHm _ _ _ _ H);
         apply Sm in H as [pre E]; apply (f_equal length) in E;
         rewrite length_app in E; simpl in *; lia).
    + destruct ts as [|t ts]; [clear IHv IHe IHm Sv Se Sm; destruct n as [|[|?]]; simplify_eq/=|].
      destruct t; simplify_eq; try done;
        (simpl; apply (IHe _ _ _ _ H);
         apply Se in H as [_ [pre E]]; apply (f_equal length) in E;
         rewrite length_app in E; simpl in *; lia).
  - intros ts acc v r H m L. simpl in H.
    destruct (parse_value n ts) as [[v0 r0]|] eqn:E; [|done].
    pose proof (Sv _ _ _ E) as (pre & Ets & _).
    apply (f_equal length) in Ets. rewrite length_app in Ets.
    destruct r0 as [|t r0]; [done|]. destruct t; simplify_eq.
    + simpl in *. destruct m as [|m]; [lia|]. simpl.
      rewrite (IHv _ _ _ E m); [done | simpl; lia].
    + pose proof (Se _ _ _ _ H) as (_ & pre1 & E1).
      apply (f_equal length) in E1. rewrite length_app in E1. simpl in *.
      destruct m as [|m]; [lia|]. simpl.
      rewrite (IHv _ _ _ E m); [|simpl; lia].
      apply (IHe _ _ _ _ H). lia.
  - intros ts acc v r H m L. simpl in H.
    destruct ts as [|t ts]; [done|]. destruct t; try done.
    destruct ts as [|t ts]; [done|]. destruct t; try done.
    destruct (parse_value n ts) as [[v0 r0]|] eqn:E; [|done].
    pose proof (Sv _ _ _ E) as (pre & Ets & _).
    apply (f_equal length) in Ets. rewrite length_app in Ets.
    destruct r0 as [|t r0]; [done|]. destruct t; simplify_eq.
    + simpl in *. destruct m as [|m]; [lia|]. simpl.
      rewrite (IHv _ _ _ E m); [done | simpl; lia].
    + pose proof (Sm _ _ _ _ H) as (pre1 & E1).
      apply (f_equal length) in E1. rewrite length_app in E1. simpl in *.
      destruct m as [|m]; [lia|]. simpl.
      rewrite (IHv _ _ _ E m); [|simpl; lia].
      apply (IHm _ _ _ _ H). lia.
Qed.

(** The fuel that [parse_tokens] gives is enough. *)
Lemma parse_value_fuel (n : nat) (ts : list token) (v : value) :
  parse_value n ts = Some (v, []) → parse_tokens ts = Some v.
Proof.
  intros H. unfold parse_tokens.
  destruct (parse_fuel n) as (Hv & _ & _).
  rewrite (Hv _ _ _ H (length ts)); [done | simpl; lia].
Qed.

(** ** Trimming *)

Lemma blank_app (a b : string) :
  Str.blank (a +:+ b) = Str.blank a && Str.blank b.
Proof.
  induction a as [|c a IH]; [done|].
  rewrite app_cons_s. simpl. by rewrite IH, andb_assoc.
Qed.

Lemma trimStart_blank (ws s : string) :
  Str.blank ws = true → Str.trimStart (ws +:+ s) = Str.trimStart s.
Proof.
  induction ws as [|c ws IH]; [done|]. simpl.
  intros [W B]%andb_true_iff. rewrite ?app_cons_s. simpl. rewrite W. by apply IH.
Qed.

Lemma trimEnd_blank (ws : string) : Str.blank ws = true → Str.trimEnd ws = "".
Proof.
  induction ws as [|c ws IH]; [done|]. simpl.
  intros [W B]%andb_true_iff. by rewrite (IH B), W.
Qed.

Lemma trimEnd_app_blank (s ws : string) :
  Str.blank ws = true → Str.trimEnd (s +:+ ws) = Str.trimEnd s.
Proof.
  intros B. induction s as [|c s IH]; [by apply trimEnd_blank|].
  rewrite app_cons_s. simpl. by rewrite IH.
Qed.

Lemma trimStart_fixed (c : ascii) (s : string) :
  Str.is_white_space c = false → Str.trimStart (String c s) = String c s.
Proof. simpl. by intros ->. Qed.

Lemma trimEnd_fixed (s : string) (c : ascii) :
  Str.is_white_space c = false →
  Str.trimEnd (s +:+ String c "") = s +:+ String c "".
Proof.
  intros W. induction s as [|d s IH]; simpl.
  - by rewrite W.
  - rewrite app_cons_s. simpl. rewrite IH.
    destruct s; by rewrite ?app_cons_s.
Qed.

Lemma trimStart_head (t : string) (x : ascii) (r : string) :
  Str.trimStart t = String x r → Str.is_white_space x = false.
Proof.
  induction t as [|c t IH]; [done|]. simpl.
  destruct (Str.is_white_space c) eqn:W; [done|]. by intros [= <- _].
Qed.

Lemma trimEnd_head (t : string) (x : ascii) (r : string) :
  Str.trimEnd t = String x r → ∃ r', t = String x r'.
Proof.
  destruct t as [|c t]; [done|]. simpl.
  destruct (Str.trimEnd t).
  - destruct (Str.is_white_space c); [done|]. intros [= <- _]. by exists t.
  - intros [= <- _]. by exists t.
Qed.

Lemma trimEnd_last (t : string) :
  Str.trimEnd t ≠ "" →
  ∃ init y, Str.trimEnd t = init +:+ String y "" ∧ Str.is_white_space y = false.
Proof.
  induction t as [|c t IH]; [done|]. simpl.
  destruct (Str.trimEnd t) as [|d r] eqn:T.
  - destruct (Str.is_white_space c) eqn:W; [done|]. intros _. by exists "", c.
  - intros _. destruct IH as (init & y & E & W); [done|].
    exists (String c init), y. by rewrite app_cons_s, <- E.
Qed.

(** What `trim` leaves is empty, or starts and ends with a character that is
    not white space. *)
Lemma trim_ends (t : string) :
  Str.trim t = ""
  ∨ ∃ x r init y,
      Str.trim t = String x r ∧ Str.is_white_space x = false
      ∧ Str.trim t = init +:+ String y "" ∧ Str.is_white_space y = false.
Proof.
  unfold Str.trim. destruct (Str.trimEnd (Str.trimStart t)) as [|x r] eqn:E; [by left|].
  right. destruct (trimEnd_last (Str.trimStart t)) as (init & y & E1 & W); [by rewrite E|].
  destruct (trimEnd_head _ _ _ E) as [r' H]. apply trimStart_head in H.
  exists x, r, init, y. by rewrite <- E, E1.
Qed.

(** A text is its trimmed text between two blanks. *)
Lemma trim_split (t : string) :
  ∃ ws1 ws2, Str.blank ws1 = true ∧ Str.blank ws2 = true
    ∧ t = ws1 +:+ Str.trim t +:+ ws2.
Proof.
  destruct (trimStart_split t) as (ws1 & B1 & E1).
  destruct (trimEnd_split (Str.trimStart t)) as (ws2 & B2 & E2).
  exists ws1, ws2. unfold Str.trim. by rewrite <- E2, <- E1.
Qed.

Lemma trim_blank_around (ws1 t ws2 : string) :
  Str.blank ws1 = true → Str.blank ws2 = true →
  Str.trim (ws1 +:+ t +:+ ws2) = Str.trim t.
Proof.
  intros B1 B2. unfold Str.trim. rewrite (trimStart_blank _ _ B1).
  induction t as [|c t IH].
  - rewrite app_nil_s.
    destruct (trimStart_split ws2) as (ws & B & E).
    rewrite E, blank_app in B2. apply andb_true_iff in B2 as [_ B2].
    by rewrite (trimEnd_blank _ B2).
  - rewrite app_cons_s. simpl. destruct (Str.is_white_space c); [done|].
    by rewrite <- app_cons_s, trimEnd_app_blank.
Qed.

Lemma trim_idem (t : string) : Str.trim (Str.trim t) = Str.trim t.
Proof.
  destruct (trim_ends t) as [-> | (x & r & init & y & E1 & W1 & E2 & W2)]; [done|].
  unfold Str.trim at 1. rewrite E1, (trimStart_fixed _ _ W1), <- E1, E2.
  by apply trimEnd_fixed.
Qed.

(** ** Occurrences and `replace` *)

Lemma replace_prefix (p r s : string) : Str.replace p r (p +:+ s) = r +:+ s.
Proof.
  destruct (p +:+ s) eqn:E; simpl.
  - destruct p; [|done]. rewrite app_nil_s in E. by subst.
  - rewrite <- E, startsWith_app.
    replace (String.length p) with (String.length p + 0)%nat by lia.
    by rewrite drop_app_length, drop_0.
Qed.

Lemma replace_absent (p r s : string) :
  Str.includes p s = false → Str.replace p r s = s.
Proof.
  induction s as [|c s IH]; simpl.
  - intros H. apply orb_false_iff in H as [-> _]. done.
  - intros H. apply orb_false_iff in H as [-> H]. by rewrite IH.
Qed.


Lemma startsWith_sep (x : ascii) (p a b : string) :
  Str.lacks x p → p ≠ "" →
  Str.startsWith p (a +:+ String x b) = Str.startsWith p a.
Proof.
  unfold Str.lacks. revert a. induction p as [|c p IH]; intros a L N; [done|].
  simpl in L. apply Forall_cons in L as [Hc L].
  destruct a as [|d a]; rewrite ?app_cons_s, ?app_nil_s; simpl.
  - apply Ascii.eqb_neq in Hc. by rewrite Hc.
  - destruct p as [|c' p]; [done|]. by rewrite (IH a L).
Qed.

Lemma includes_sep (x : ascii) (p a b : string) :
  Str.lacks x p → p ≠ "" →
  Str.includes p (a +:+ String x b) = Str.includes p a || Str.includes p b.
Proof.
  intros L N. induction a as [|d a IH].
  - rewrite app_nil_s. simpl.
    pose proof (startsWith_sep x p "" b L N) as H. rewrite app_nil_s in H.
    rewrite H. by destruct p.
  - rewrite app_cons_s. simpl. rewrite <- app_cons_s.
    rewrite (startsWith_sep x p (String d a) b L N). simpl.
    by rewrite IH, orb_assoc.
Qed.

Lemma replace_sep (x : ascii) (p r a b : string) :
  Str.lacks x p → p ≠ "" → Str.includes p a = false →
  Str.replace p r (a +:+ String x b) = a +:+ String x (Str.replace p r b).
Proof.
  intros L N. induction a as [|d a IH]; intros H.
  - rewrite !app_nil_s. simpl.
    pose proof (startsWith_sep x p "" b L N) as H'. rewrite app_nil_s in H'.
    rewrite H'. by destruct p.
  - simpl in H. apply orb_false_iff in H as [S H].
    rewrite app_cons_s. simpl. rewrite <- app_cons_s.
    rewrite (startsWith_sep x p (String d a) b L N). simpl in *. rewrite S.
    by rewrite (IH H), app_cons_s.
Qed.

Lemma includes_app_false (p a b : string) :
  Str.includes p (a +:+ b) = false →
  Str.includes p a = false ∧ Str.includes p b = false.
Proof.
  induction a as [|d a IH].
  - rewrite app_nil_s. intros H. split; [|done].
    destruct b; simpl in *; apply orb_false_iff in H as [H _];
      destruct p; try done.
  - rewrite app_cons_s. simpl. intros [S H]%orb_false_iff.
    destruct (IH H) as [Ha Hb]. split; [|done].
    rewrite Ha, orb_false_r.
    destruct (Str.startsWith p (String d a)) eqn:E; [|done].
    apply startsWith_spec in E as [r0 E].
    assert (Str.startsWith p (String d (a +:+ b)) = true) as <-; [|done].
    apply startsWith_spec. exists (r0 +:+ b).
    by rewrite <- app_cons_s, E, app_assoc_s.
Qed.

Lemma startsWith_longer (p q s : string) :
  Str.startsWith (p +:+ q) s = true → Str.startsWith p s = true.
Proof.
  intros [r ->]%startsWith_spec. apply startsWith_spec.
  exists (q +:+ r). by rewrite app_assoc_s.
Qed.

Lemma includes_longer (p q s : string) :
  Str.includes p s = false → Str.includes (p +:+ q) s = false.
Proof.
  induction s as [|c s IH]; simpl.
  - intros [S _]%orb_false_iff. rewrite orb_false_r.
    destruct (Str.startsWith (p +:+ q) "") eqn:E; [|done].
    apply startsWith_longer in E. congruence.
  - intros [S H]%orb_false_iff. rewrite (IH H), orb_false_r.
    destruct (Str.startsWith (p +:+ q) (String c s)) eqn:E; [|done].
    apply startsWith_longer in E. congruence.
Qed.

Section Braces.

#[local] Arguments Ascii.eqb : simpl never.

(** ** The braces of the regular expression *)


Lemma upto_last_close_none (s : string) :
  Str.includes "}" s = false → Str.upto_last_close s = None.
Proof.
  induction s as [|c s IH]; [done|]. simpl.
  intros [S H]%orb_false_iff. rewrite (IH H).
  rewrite andb_true_r in S. by rewrite Ascii.eqb_sym, S.
Qed.

Lemma upto_last_close_app (init post : string) :
  Str.includes "}" post = false →
  Str.upto_last_close (init +:+ String "}" post) = Some (init +:+ "}").
Proof.
  intros H. induction init as [|c init IH].
  - rewrite !app_nil_s. simpl. by rewrite (upto_last_close_none _ H).
  - rewrite (app_cons_s c init). simpl. by rewrite IH.
Qed.

Lemma from_first_open_app (pre s : string) :
  Str.includes "{" pre = false →
  Str.from_first_open (pre +:+ s) = Str.from_first_open s.
Proof.
  induction pre as [|c pre IH]; [done|].
  rewrite app_cons_s. simpl. intros [S H]%orb_false_iff.
  rewrite andb_true_r, Ascii.eqb_sym in S. rewrite S. by apply IH.
Qed.

(** The match is the text from the first `{` to the last `}`. *)
Lemma match_braces_app (pre inner init post : string) :
  Str.includes "{" pre = false → Str.includes "}" post = false →
  String "{" inner = init +:+ "}" →
  Str.match_braces (pre +:+ String "{" inner +:+ post) = Some (String "{" inner).
Proof.
  intros Hpre Hpost E. unfold Str.match_braces.
  rewrite (from_first_open_app _ _ Hpre).
  rewrite app_cons_s. simpl.
  destruct init as [|c init]; [done|].
  rewrite app_cons_s in E. injection E as <- ->.
  rewrite app_assoc_s.
  change ("}" +:+ post) with (String "}" post).
  by rewrite (upto_last_close_app init post Hpost).
Qed.

Lemma blank_no_brace (ws : string) (c : ascii) :
  Str.is_white_space c = false → Str.blank ws = true →
  Str.includes (String c "") ws = false.
Proof.
  intros W. induction ws as [|d ws IH]; [done|]. simpl.
  intros [Wd B]%andb_true_iff. rewrite (IH B), orb_false_r, andb_true_r.
  apply Ascii.eqb_neq. intros ->. congruence.
Qed.

(** ** The text of a JSON object *)

(** Trimmed, the text of an object starts with `{` and ends with `}`. *)
Lemma parse_object_braces (t : string) (v : value) :
  parse t = Some v → is_object v = true →
  ∃ inner init, Str.trim t = String "{" inner ∧ Str.trim t = init +:+ "}".
Proof.
  intros P O. apply parse_trim in P. unfold parse in P.
  destruct (lex (Str.trim t)) as [toks|] eqn:L; [|done]. simpl in P.
  destruct (parse_tokens_object _ _ P O) as [Hh Hl].
  destruct (trim_ends t) as [E | (x & r & init & y & E1 & W1 & E2 & W2)].
  - rewrite E in L. injection L as <-. done.
  - destruct toks as [|t0 toks]; [done|]. injection Hh as ->.
    exists r, init. split.
    + rewrite E1 in L. apply lex_first_brace in L as ->; [done|].
      destruct (is_ws x) eqn:J; [|done]. apply ws_white in J. congruence.
    + rewrite E2 in L. by apply lex_last_brace in L as ->.
Qed.

(** ** The parsing of the model's text (C6, C7) *)

Lemma lacks_nl_fence : Str.lacks "010" "```".
Proof. repeat constructor; done. Qed.

Lemma lacks_nl_fence_json : Str.lacks "010" "```json".
Proof. repeat constructor; done. Qed.

Lemma lacks_nl_close : Str.lacks "010" "}".
Proof. repeat constructor; done. Qed.

Lemma trim_fixed (x y : ascii) (s : string) :
  Str.is_white_space x = false → Str.is_white_space y = false →
  Str.trim (String x (s +:+ String y "")) = String x (s +:+ String y "").
Proof.
  intros Wx Wy. unfold Str.trim. rewrite (trimStart_fixed _ _ Wx).
  rewrite <- app_cons_s. by apply trimEnd_fixed.
Qed.

Lemma code_fence_trim (lang t : string) :
  Str.trim (code_fence lang t) = code_fence lang t.
Proof.
  assert (code_fence lang t
          = String "`" (("``" +:+ lang +:+ Str.nl +:+ t +:+ Str.nl +:+ "``")
                          +:+ String "`" "")) as ->.
  { unfold code_fence. by rewrite !app_assoc_s. }
  by apply trim_fixed.
Qed.

(** The text of the model without fences: only `trim` acts on it. *)
Lemma clean_output_plain (t : string) :
  Str.includes "```" t = false → clean_output (Some t) = Str.trim t.
Proof.
  intros H. unfold clean_output.
  destruct (trim_split t) as (ws1 & ws2 & _ & _ & E).
  rewrite E in H. apply includes_app_false in H as [_ H].
  apply includes_app_false in H as [H _].
  rewrite (replace_absent "```json"); [|by apply (includes_longer "```" "json")].
  rewrite (replace_absent _ _ _ H). apply trim_idem.
Qed.

(** Between the fences of a `json` block both markers go. *)
Lemma clean_output_fence_json (t : string) :
  Str.includes "```" t = false →
  clean_output (Some (code_fence "json" t)) = Str.trim t.
Proof.
  intros H. unfold clean_output. rewrite code_fence_trim.
  change (code_fence "json" t)
    with ("```json" +:+ String "010" (t +:+ String "010" "```")).
  rewrite replace_prefix, app_nil_s.
  rewrite <- (app_nil_s (String "010" _)).
  rewrite (replace_sep "010" "```" "" "" _ lacks_nl_fence); [|done..].
  rewrite (replace_sep "010" "```" "" t _ lacks_nl_fence); [|done..].
  rewrite app_nil_s.
  change (String "010" (t +:+ String "010" (Str.replace "```" "" "```")))
    with (Str.nl +:+ t +:+ Str.nl).
  by apply trim_blank_around.
Qed.

(** Between plain fences the closing marker stays, after the text. *)
Lemma clean_output_fence_plain (t inner : string) :
  Str.includes "```" t = false → Str.trim t = String "{" inner →
  ∃ ws2, Str.blank ws2 = true
    ∧ clean_output (Some (code_fence "" t))
      = String "{" inner +:+ ws2 +:+ Str.nl +:+ "```".
Proof.
  intros H T. unfold clean_output. rewrite code_fence_trim.
  change (code_fence "" t) with ("```" +:+ String "010" (t +:+ String "010" "```")).
  rewrite (replace_absent "```json").
  2:{ rewrite (includes_sep "010" _ _ _ lacks_nl_fence_json); [|done].
      rewrite (includes_sep "010" _ _ _ lacks_nl_fence_json); [|done].
      assert (Str.includes "```json" t = false) as ->
        by exact (includes_longer "```" "json" _ H).
      done. }
  rewrite replace_prefix, app_nil_s.
  destruct (trim_split t) as (ws1 & ws2 & B1 & B2 & E).
  exists ws2. split; [done|].
  rewrite T in E. rewrite E. clear E T H.
  replace (String "010" ((ws1 +:+ String "{" inner +:+ ws2) +:+ String "010" "```"))
    with (String "010" ws1
          +:+ String "{" ((inner +:+ ws2 +:+ Str.nl +:+ "``") +:+ String "`" ""))
    by (repeat (rewrite app_cons_s || rewrite app_assoc_s); reflexivity).
  unfold Str.trim.
  rewrite trimStart_blank; [|simpl; by rewrite B1].
  rewrite trimStart_fixed; [|done].
  rewrite <- app_cons_s, trimEnd_fixed; [|done].
  repeat (rewrite app_cons_s || rewrite app_assoc_s). reflexivity.
Qed.

Lemma includes_char_app (x : ascii) (a b : string) :
  Str.includes (String x "") (a +:+ b)
  = Str.includes (String x "") a || Str.includes (String x "") b.
Proof.
  induction a as [|c a IH].
  - rewrite app_nil_s. simpl. by destruct b.
  - rewrite app_cons_s. simpl. by rewrite IH, orb_assoc.
Qed.

Lemma from_first_open_suffix (s r : string) :
  Str.from_first_open s = Some r → ∃ pre, s = pre +:+ r.
Proof.
  induction s as [|c s IH]; [done|]. simpl.
  destruct (Ascii.eqb c "{").
  - intros [= <-]. by exists "".
  - intros [pre ->]%IH. by exists (String c pre).
Qed.

Lemma from_first_open_none (s : string) :
  Str.includes "{" s = false → Str.from_first_open s = None.
Proof.
  induction s as [|c s IH]; [done|]. simpl.
  intros [S H]%orb_false_iff. rewrite andb_true_r, Ascii.eqb_sym in S.
  rewrite S. by apply IH.
Qed.

Lemma match_braces_none (s : string) :
  Str.includes "{" s = false ∨ Str.includes "}" s = false →
  Str.match_braces s = None.
Proof.
  unfold Str.match_braces. intros [H|H].
  - by rewrite from_first_open_none.
  - destruct (Str.from_first_open s) as [r|] eqn:E; [|done]. simpl.
    apply from_first_open_suffix in E as [pre ->].
    rewrite includes_char_app in H. apply orb_false_iff in H as [_ H].
    by apply upto_last_close_none.
Qed.

(** An object between two texts without braces is what the regular
    expression matches, up to the white space around it. *)
Lemma match_braces_object (pre obj post : string) (v : value) :
  Str.includes "{" pre = false → Str.includes "}" post = false →
  parse obj = Some v → is_object v = true →
  Str.match_braces (pre +:+ obj +:+ post) = Some (Str.trim obj).
Proof.
  intros Hpre Hpost P O.
  destruct (parse_object_braces _ _ P O) as (inner & init & T1 & T2).
  destruct (trim_split obj) as (ws1 & ws2 & B1 & B2 & E).
  rewrite E at 1. rewrite T1 in *.
  replace (pre +:+ (ws1 +:+ String "{" inner +:+ ws2) +:+ post)
    with ((pre +:+ ws1) +:+ String "{" inner +:+ (ws2 +:+ post))
    by (repeat (rewrite app_cons_s || rewrite app_assoc_s); reflexivity).
  apply (match_braces_app _ _ init); [| |done].
  - rewrite includes_char_app, Hpre. by apply blank_no_brace.
  - rewrite includes_char_app, Hpost, orb_false_r. by apply blank_no_brace.
Qed.

(** C6, amended.  For every text [t] that is a JSON object and holds no
    run of three backquotes, the parsing step gives the value of [t], and
    gives the same for [t] between the fences of a [json] block or of a
    plain block. *)
Theorem fenced_output_parsed (t : string) (v : value) :
  parse t = Some v → is_object v = true → Str.includes "```" t = false →
  parse_output (Some t) = Return v
  ∧ parse_output (Some (code_fence "json" t)) = parse_output (Some t)
  ∧ parse_output (Some (code_fence "" t)) = parse_output (Some t).
Proof.
  intros P O H.
  assert (parse_output (Some t) = Return v) as U.
  { unfold parse_output. rewrite (clean_output_plain _ H).
    unfold extractJson. by rewrite (parse_trim _ _ P). }
  split; [done|]. split.
  - unfold parse_output. by rewrite clean_output_fence_json, clean_output_plain.
  - rewrite U. unfold parse_output.
    destruct (parse_object_braces _ _ P O) as (inner & init & T1 & T2).
    destruct (clean_output_fence_plain t inner H T1) as (ws2 & B2 & ->).
    unfold extractJson.
    replace (String "{" inner +:+ ws2 +:+ Str.nl +:+ "```")
      with ((String "{" inner +:+ ws2 +:+ Str.nl +:+ "``") +:+ "`")
      by (repeat (rewrite app_cons_s || rewrite app_assoc_s); reflexivity).
    rewrite parse_backquote.
    replace ((String "{" inner +:+ ws2 +:+ Str.nl +:+ "``") +:+ "`")
      with ("" +:+ String "{" inner +:+ (ws2 +:+ String "010" "```"))
      by (repeat (rewrite app_cons_s || rewrite app_assoc_s); reflexivity).
    rewrite (match_braces_app "" inner init); [|done| |by rewrite <- T1].
    + rewrite <- T1. by rewrite (parse_trim _ _ P).
    + rewrite (includes_sep "010" _ _ _ lacks_nl_close); [|done].
      rewrite (blank_no_brace ws2 "}"); done.
Qed.

(** C7, amended.  [extractJson] gives the value of the whole text when it
    is JSON.  When it is not, and the text has no `{` or no `}`, the error is
    [No JSON found in model output]; when the text from the first `{` to the
    last `}` is JSON, its value is given, so an object between two texts
    without braces is parsed; when that text is not JSON, the error is the
    [SyntaxError] of `JSON.parse`. *)
Theorem extractJson_spec (text : string) :
  (∀ v, parse text = Some v → extractJson text = Return v)
  ∧ (parse text = None →
       (Str.includes "{" text = false ∨ Str.includes "}" text = false →
          extractJson text = Throw (Error "No JSON found in model output"))
       ∧ (Str.match_braces text = None →
          extractJson text = Throw (Error "No JSON found in model output"))
       ∧ (∀ m, Str.match_braces text = Some m →
            (∀ v, parse m = Some v → extractJson text = Return v)
            ∧ (parse m = None → extractJson text = Throw SyntaxError))
       ∧ (∀ pre obj post v,
            text = pre +:+ obj +:+ post →
            Str.includes "{" pre = false → Str.includes "}" post = false →
            parse obj = Some v → is_object v = true →
            extractJson text = Return v)).
Proof.
  unfold extractJson. split; [by intros v ->|].
  intros N. rewrite N. split; [|split; [|split]].
  - intros H. by rewrite (match_braces_none _ H).
  - by intros ->.
  - intros m ->. split; [by intros v -> | by intros ->].
  - intros pre obj post v E Hpre Hpost P O. subst text.
    rewrite (match_braces_object pre obj post v Hpre Hpost P O).
    by rewrite (parse_trim _ _ P).
Qed.

End Braces.

(** ** Base64 *)

Lemma digit_not_colon (n : N) : Base64.digit n ≠ ":"%char.
Proof.
  unfold Base64.digit.
  destruct (nth_in_or_default (N.to_nat n) Base64.alphabet Base64.pad) as [H|H].
  - revert H. generalize (nth (N.to_nat n) Base64.alphabet Base64.pad). intros c H.
    cbn in H. repeat (destruct H as [<-|H]; [done|]). done.
  - by rewrite H.
Qed.

(** The Base64 of some bytes is never a data URL. *)
Lemma encode_not_data_url (bytes : list Byte.byte) (g : string) :
  Base64.encode bytes ≠ "data:image/png;base64," +:+ g.
Proof.
  intros H.
  destruct bytes as [|a [|b [|c [|d rest]]]]; cbn in H; try discriminate H.
  injection H as _ _ _ _ H.
  destruct rest as [|e [|f rest]]; cbn in H; injection H as H _;
    by apply digit_not_colon in H.
Qed.

(** ** Runs of the handler, path by path *)

Section Paths.

#[local] Arguments Ascii.eqb : simpl never.
#[local] Opaque PROMPT AVATAR_PROMPT json_config error_payload JStr pretty
  Base64.encode parse_output mime_of find_image content_parts String.append
  get_imageToVideo defined_fields has_undefined.


(** One step of the run in [H]: a case analysis on the answer that decides
    how the run goes on. *)
Ltac exec_step H :=
  match type of H with
  | context [match ?x with _ => _ end] =>
      lazymatch x with
      | context [match _ with _ => _ end] => fail
      | (_, _) => fail
      | _ => let E := fresh "E" in destruct x eqn:E
      end
  end.

Ltac exec H :=
  unfold bind, ret, throw, lift, try_catch in H;
  cbn beta iota zeta in H;
  repeat (exec_step H; cbn beta iota zeta in H).

Ltac unfold_try H :=
  unfold try_block, normalize_asset, product_part, urlToInlineData,
    file_arrayBuffer, now, imagekit_upload, generateContent, fetch,
    console_log, updateDoc in H.

(** The trace of the final world, as the trace of the first world and the
    events of the run. *)
Ltac trace_eq :=
  unfold log_event, commit; cbn [trace store];
  rewrite <- ?app_assoc;
  first [reflexivity | symmetry; apply app_nil_r].

Lemma try_block_uploads env form docId w0 r w1 :
  try_block env form docId w0 = (r, w1) →
  ∃ evs, trace w1 = trace w0 ++ evs
    ∧ if imageUrl_given (Form.imageUrl form)
      then uploads evs = [] ∨ ∃ g t, uploads evs = [creative_upload g t]
      else match Form.file form with
           | None => uploads evs = []
           | Some f =>
               ∃ t, uploads evs = [product_upload (file_bytes f) t]
                    ∨ ∃ g t', uploads evs = [product_upload (file_bytes f) t;
                                              creative_upload g t']
           end.
Proof.
  intros H. unfold_try H. exec H.
  all: injection H as <- <-.
  all: eexists; (split; [trace_eq|]).
  all: repeat match goal with
         | E : negb ?b = _ |- _ => destruct b; simpl in E; try discriminate E; clear E
         end.
  all: cbn [uploads omap list_omap app].
  all: try (by left).
  all: try (right; eexists _, _; reflexivity).
  all: try reflexivity.
  all: eexists; first [left; reflexivity | right; eexists _, _; reflexivity].
Qed.

Ltac no_negb :=
  repeat match goal with
    | E : negb ?b = _ |- _ => destruct b eqn:?; simpl in E; try discriminate E; clear E
    end.

Ltac here := rewrite !elem_of_cons; tauto.

Lemma try_block_generations env form docId w0 r w1 :
  try_block env form docId w0 = (r, w1) →
  ∃ evs, trace w1 = trace w0 ++ evs
    ∧ let prompt := if avatar_given (Form.avatar form)
                    then AVATAR_PROMPT else PROMPT in
      let url := default "" (Form.avatar form) in
      generations evs = []
      ∨ (∃ part, generations evs = [first_request prompt part])
      ∨ (∃ part text more,
           generations evs = [first_request prompt part;
                              second_request text part more]
           ∧ if avatar_given (Form.avatar form)
             then ∃ res bytes,
                    more = [inline_part url res bytes]
                    ∧ res_arrayBuffer res = Return bytes
                    ∧ EvFetch url (Return res) ∈ evs
             else more = []).
Proof.
  intros H. unfold_try H. exec H.
  all: injection H as <- <-.
  all: eexists; (split; [trace_eq|]).
  all: no_negb.
  all: cbn [generations omap list_omap app].
  all: try (by left).
  all: try (right; left; eexists; reflexivity).
  all: right; right; eexists _, _, _; (split; [reflexivity|]).
  all: try reflexivity.
  all: eexists _, _; (split; [reflexivity|]); (split; [eassumption|]); here.
Qed.

Lemma try_block_small_fetch env form docId w0 r w1 :
  try_block env form docId w0 = (r, w1) →
  ∃ evs, trace w1 = trace w0 ++ evs
    ∧ ∀ url res bytes,
        (url, Return res) ∈ fetched_before_model evs →
        res_ok res = true → res_arrayBuffer res = Return bytes →
        (length bytes < 20)%nat →
        generations evs = []
        ∧ r = Throw (Error "Fetched image is empty or too small.").
Proof.
  intros H. unfold_try H. exec H.
  all: injection H as <- <-.
  all: eexists; (split; [trace_eq|]).
  all: no_negb.
  all: cbn [fetched_before_model generations omap list_omap app].
  all: intros url res bytes Hin Hok Hbuf Hlen.
  all: try (by apply elem_of_nil in Hin).
  all: apply list_elem_of_singleton in Hin; simplify_eq.
  all: try (split; reflexivity).
  all: try congruence.
  all: match goal with
       | E : (length ?l <? _)%nat = false |- _ =>
           assert (bytes = l) as -> by congruence; apply Nat.ltb_ge in E; lia
       end.
Qed.

Lemma try_block_store env form docId w0 r w1 :
  try_block env form docId w0 = (r, w1) →
  ∃ evs, trace w1 = trace w0 ++ evs
    ∧ ((∃ e, r = Throw e ∧ store w1 = store w0
          ∧ (store_writes evs = []
             ∨ ∃ u p itv e',
                 store_writes evs
                 = [EvUpdateDoc "user-ads" docId (completed_fields u p itv) (Some e')]))
       ∨ (∃ u p itv,
            r = Return (NextResponse_json (JStr u))
            ∧ store_writes evs
              = [EvUpdateDoc "user-ads" docId (completed_fields u p itv) None]
            ∧ is_Some (store w0 !! ("user-ads", docId))
            ∧ store w1
              = alter (λ d, defined_fields (completed_fields u p itv) ∪ d)
                      ("user-ads", docId) (store w0))).
Proof.
  intros H. unfold_try H. exec H.
  all: injection H as <- <-.
  all: eexists; (split; [trace_eq|]).
  all: unfold log_event, commit; cbn [store trace store_writes omap list_omap app].
  all: first
    [ left; eexists; split; [reflexivity|]; split; [reflexivity|];
      first [left; reflexivity | right; eexists _, _, _, _; reflexivity]
    | right; eexists _, _, _; split; [reflexivity|]; split; [reflexivity|];
      split; [eauto | reflexivity] ].
Qed.

(** The event sought is in the list. *)
Ltac find_event :=
  cbn [app];
  repeat first [apply list_elem_of_here | apply list_elem_of_further].

Lemma try_block_success env form docId w0 resp w1 :
  try_block env form docId w0 = (Return resp, w1) →
  ∃ evs u p itv,
    trace w1 = trace w0 ++ evs
    ∧ resp = NextResponse_json (JStr u)
    ∧ is_Some (store w0 !! ("user-ads", docId))
    ∧ store w1
      = alter (λ d, defined_fields (completed_fields u p itv) ∪ d)
              ("user-ads", docId) (store w0)
    ∧ (∃ g t a, EvUpload (creative_upload g t) (Return a) ∈ evs ∧ up_url a = u)
    ∧ (if imageUrl_given (Form.imageUrl form)
       then Form.imageUrl form = Some p
       else ∃ bytes t a,
              EvUpload (product_upload bytes t) (Return a) ∈ evs ∧ up_url a = p)
    ∧ (∃ prompt part answer json,
         EvGenerate (first_request prompt part) (Return answer) ∈ evs
         ∧ parse_output (g_text answer) = Return json
         ∧ get_imageToVideo json = Return itv).
Proof.
  intros H. unfold_try H. exec H.
  all: try discriminate H.
  all: injection H as <- <-.
  all: no_negb.
  all: eexists _, _, _, _; (split; [trace_eq|]).
  all: unfold log_event, commit; cbn [store trace].
  all: split; [reflexivity|]; split; [eauto|]; split; [reflexivity|].
  all: split; [eexists _, _, _; split; [unfold creative_upload; find_event | reflexivity]|].
  all: split;
    [first [ destruct (Form.imageUrl form) as [x|]; [reflexivity | discriminate]
           | eexists _, _, _; split; [unfold product_upload; find_event | reflexivity] ]|].
  all: eexists _, _, _, _; split; [unfold first_request; find_event|]; split; eassumption.
Qed.

(** ** Intake, cleanup, and the whole handler *)

Lemma quiet_uploads evs : Forall quiet_event evs → uploads evs = [].
Proof.
  induction 1 as [|ev evs Q _ IH]; [done|].
  unfold uploads in *. cbn. rewrite IH. by destruct ev.
Qed.

Lemma quiet_generations evs : Forall quiet_event evs → generations evs = [].
Proof.
  induction 1 as [|ev evs Q _ IH]; [done|].
  unfold generations in *. cbn. rewrite IH. by destruct ev.
Qed.

Lemma quiet_fetched_l evs evs' :
  Forall quiet_event evs →
  fetched_before_model (evs ++ evs') = fetched_before_model evs'.
Proof. induction 1 as [|ev evs Q _ IH]; [done|]. cbn. by destruct ev. Qed.

Lemma quiet_fetched_r evs evs' :
  Forall quiet_event evs' →
  fetched_before_model (evs ++ evs') = fetched_before_model evs.
Proof.
  intros Q. induction evs as [|ev evs IH]; cbn.
  - rewrite <- (app_nil_r evs'). by rewrite quiet_fetched_l.
  - destruct ev; by rewrite ?IH.
Qed.

Lemma uploads_app evs evs' : uploads (evs ++ evs') = uploads evs ++ uploads evs'.
Proof. apply omap_app. Qed.

Lemma generations_app evs evs' :
  generations (evs ++ evs') = generations evs ++ generations evs'.
Proof. apply omap_app. Qed.

Lemma store_writes_app evs evs' :
  store_writes (evs ++ evs') = store_writes evs ++ store_writes evs'.
Proof. apply omap_app. Qed.

Lemma intake_run env form w r w0 :
  intake env form w = (r, w0) →
  let v := field_value (Form.userEmail form) in
  ∃ answer more,
    trace w0 = trace w ++ EvGetDocs "users" "email" v answer :: more
    ∧ Forall quiet_event (EvGetDocs "users" "email" v answer :: more)
    ∧ answer = match store_rejects env w (CallGetDocs "users" "email" v) with
               | Some e => Throw e
               | None => Return (query (store w) "users" "email" v)
               end
    ∧ ((∃ e, r = Throw e ∧ store w0 = store w ∧ more = []
          ∧ (answer = Throw e
             ∨ answer = Return []
               ∧ e = TypeError "Cannot read properties of undefined (reading 'data')"))
       ∨ (∃ e docId, r = Throw e ∧ store w0 = store w
            ∧ more = [EvSetDoc "user-ads" docId (pending_record form docId) (Some e)])
       ∨ (∃ docId, r = Return docId
            ∧ more = [EvSetDoc "user-ads" docId (pending_record form docId) None]
            ∧ store w0
              = <[("user-ads", docId) := pending_record form docId]> (store w))).
Proof.
  intros H. cbn zeta. unfold intake, getDocs, setDoc, now in H. exec H.
  all: injection H as <- <-.
  all: eexists _, _; (split; [trace_eq|]).
  all: unfold log_event, commit; cbn [store trace].
  all: (split; [repeat (constructor; try exact I)|]).
  all: (split; [reflexivity|]).
  all: try match goal with
         | E : head ?l = None |- _ => destruct l; [|discriminate E]
         end.
  all: first
    [ left; eexists; repeat split; try reflexivity;
      first [by left | right; split; reflexivity]
    | right; left; eexists _, _; repeat split; reflexivity
    | right; right; eexists; repeat split; reflexivity ].
Qed.

Lemma catch_block_run env docId e w1 r w2 :
  catch_block env docId e w1 = (r, w2) →
  ∃ evs, trace w2 = trace w1 ++ evs ∧ Forall quiet_event evs
    ∧ match store_rejects env w1 (CallDeleteDoc "user-ads" docId) with
      | None =>
          r = Return (NextResponse_json error_payload)
          ∧ store w2 = delete ("user-ads", docId) (store w1)
          ∧ store_writes evs = [EvDeleteDoc "user-ads" docId None]
      | Some e' =>
          r = Throw e' ∧ store w2 = store w1
          ∧ store_writes evs = [EvDeleteDoc "user-ads" docId (Some e')]
      end.
Proof.
  intros H. unfold catch_block, deleteDoc, console_log in H. exec H.
  all: injection H as <- <-.
  all: eexists; (split; [trace_eq|]).
  all: unfold log_event, commit; cbn [store trace].
  all: split; [repeat (constructor; try exact I)|]; done.
Qed.

Lemma POST_run env form w r w' :
  POST env form w = (r, w') →
  (∃ e, intake env form w = (Throw e, w') ∧ r = Throw e)
  ∨ ∃ docId w0 r1 w1,
      intake env form w = (Return docId, w0)
      ∧ try_block env form docId w0 = (r1, w1)
      ∧ ((∃ resp, r1 = Return resp ∧ r = Return resp ∧ w' = w1)
         ∨ (∃ e, r1 = Throw e ∧ catch_block env docId e w1 = (r, w'))).
Proof.
  unfold POST, bind, try_catch.
  destruct (intake env form w) as [[docId|e] w0] eqn:I.
  - destruct (try_block env form docId w0) as [[resp|e] w1] eqn:T.
    + intros [= <- <-]. right. exists docId, w0, (Return resp), w1. eauto 10.
    + intros C. right. exists docId, w0, (Throw e), w1. eauto 10.
  - intros [= <- <-]. left. eauto.
Qed.

Ltac rewrite_ifs :=
  repeat match goal with
    | E : ?b = _ |- context [if ?b then _ else _] => rewrite E
    end.

Ltac rewrite_matches :=
  repeat match goal with
    | E : ?x = _ |- context [match ?x with _ => _ end] => rewrite E
    end.

(** The goals that wait for the body of a fetch are kept for the end, when
    the trace has told which fetch it is. *)
Ltac main tac :=
  lazymatch goal with
  | |- res_arrayBuffer _ = _ => idtac
  | |- _ => tac
  end.

Ltac split_in H :=
  cbn [app] in H;
  repeat (apply elem_of_cons in H as [H|H]);
  try (by apply elem_of_nil in H).

Lemma try_block_success_trace env form docId w0 resp w1 :
  try_block env form docId w0 = (Return resp, w1) →
  ∃ product p part answer json avatar_fetch more resp2 g t a itv,
    (if imageUrl_given (Form.imageUrl form)
     then p = default "" (Form.imageUrl form)
          ∧ ∃ res bytes,
              product = [EvFetch p (Return res)]
              ∧ part = inline_part p res bytes
              ∧ res_arrayBuffer res = Return bytes
     else ∃ f t0 a0,
            Form.file form = Some f ∧ p = up_url a0
            ∧ if Str.truthy (Base64.encode (file_bytes f))
              then product = [EvUpload (product_upload (file_bytes f) t0) (Return a0)]
                   ∧ part = PInline
                              {| data := Base64.encode (file_bytes f);
                                 mimeType := if Str.truthy (file_type f)
                                             then file_type f else "image/png" |}
              else ∃ res bytes,
                     product = [EvUpload (product_upload (file_bytes f) t0) (Return a0);
                                EvFetch p (Return res)]
                     ∧ part = inline_part p res bytes
                     ∧ res_arrayBuffer res = Return bytes)
    ∧ (if avatar_given (Form.avatar form)
       then ∃ res bytes,
              avatar_fetch = [EvFetch (default "" (Form.avatar form)) (Return res)]
              ∧ more = [inline_part (default "" (Form.avatar form)) res bytes]
              ∧ res_arrayBuffer res = Return bytes
       else avatar_fetch = [] ∧ more = [])
    ∧ trace w1
      = trace w0 ++ product
        ++ [EvGenerate
              (first_request
                 (if avatar_given (Form.avatar form) then AVATAR_PROMPT else PROMPT)
                 part)
              (Return answer);
            EvLog [LogValue (JStr "JSON"); LogValue json]]
        ++ avatar_fetch
        ++ [EvGenerate (second_request (member "textToImage" json) part more)
              (Return resp2);
            EvUpload (creative_upload g t) (Return a);
            EvUpdateDoc "user-ads" docId (completed_fields (up_url a) p itv) None]
    ∧ resp = NextResponse_json (JStr (up_url a))
    ∧ parse_output (g_text answer) = Return json
    ∧ find_image (content_parts resp2) = Some g
    ∧ get_imageToVideo json = Return itv
    ∧ has_undefined (completed_fields (up_url a) p itv)
      && negb (ignoreUndefinedProperties env) = false.
Proof.
  intros H. unfold_try H. exec H.
  all: try discriminate H.
  all: injection H as <- <-.
  all: no_negb.
  all: eexists _, _, _, _, _, _, _, _, _, _, _, _.
  all: rewrite_ifs.
  all: (split;
         [first [ split; [reflexivity|]; eexists _, _;
                  split; [reflexivity|]; split; [reflexivity|]
                | eexists _, _, _; split; [first [eassumption | reflexivity]|];
                  split; [reflexivity|]; rewrite_ifs;
                  first [ split; reflexivity
                        | eexists _, _; split; [reflexivity|];
                          split; [reflexivity|] ] ]|]).
  all: main ltac:(split;
         [first [ split; reflexivity
                | eexists _, _; split; [reflexivity|]; split; [reflexivity|] ]|]).
  all: main ltac:(split; [trace_eq|]).
  all: main ltac:(repeat (split; [first [reflexivity | eassumption]|])).
  all: eassumption.
Qed.

Lemma try_block_product_part env form docId w0 r w1 :
  try_block env form docId w0 = (r, w1) →
  ∃ evs, trace w1 = trace w0 ++ evs
    ∧ match head (generations evs) with
      | None => True
      | Some req =>
          ∃ part,
            req = first_request
                    (if avatar_given (Form.avatar form) then AVATAR_PROMPT else PROMPT)
                    part
            ∧ if imageUrl_given (Form.imageUrl form)
              then ∃ res bytes,
                     fetched_before_model evs
                     = [(default "" (Form.imageUrl form), Return res)]
                     ∧ res_arrayBuffer res = Return bytes
                     ∧ part = inline_part (default "" (Form.imageUrl form)) res bytes
              else ∃ f t0 a0,
                     Form.file form = Some f
                     ∧ head evs
                       = Some (EvUpload (product_upload (file_bytes f) t0) (Return a0))
                     ∧ if Str.truthy (Base64.encode (file_bytes f))
                       then fetched_before_model evs = []
                            ∧ part = PInline
                                       {| data := Base64.encode (file_bytes f);
                                          mimeType := if Str.truthy (file_type f)
                                                      then file_type f
                                                      else "image/png" |}
                       else ∃ res bytes,
                              fetched_before_model evs = [(up_url a0, Return res)]
                              ∧ res_arrayBuffer res = Return bytes
                              ∧ part = inline_part (up_url a0) res bytes
      end.
Proof.
  intros H. unfold_try H. exec H.
  all: injection H as <- <-.
  all: eexists; (split; [trace_eq|]).
  all: no_negb.
  all: cbn [generations omap list_omap app head].
  all: try exact I.
  all: rewrite_ifs.
  all: eexists; (split; [reflexivity|]).
  all: cbn [fetched_before_model app].
  all: first
    [ eexists _, _; split; [reflexivity|]; split; [eassumption|]; reflexivity
    | eexists _, _, _; split; [first [eassumption | reflexivity]|];
      split; [reflexivity|];
      rewrite_ifs;
      first [ split; reflexivity
            | eexists _, _; split; [reflexivity|]; split; [eassumption|]; reflexivity ] ].
Qed.

(** Every upload of a run is the one of the file or the one of the first
    image of the second answer. *)
Lemma try_block_upload_events env form docId w0 r w1 :
  try_block env form docId w0 = (r, w1) →
  ∃ evs, trace w1 = trace w0 ++ evs
    ∧ ∀ o ans,
        EvUpload o ans ∈ evs →
        (∃ f t0, Form.file form = Some f ∧ o = product_upload (file_bytes f) t0)
        ∨ (∃ g t req resp2,
             o = creative_upload g t
             ∧ EvGenerate req (Return resp2) ∈ evs
             ∧ model req = "gemini-2.5-flash-image"
             ∧ find_image (content_parts resp2) = Some g).
Proof.
  intros H. unfold_try H. exec H.
  all: injection H as <- <-.
  all: eexists; (split; [trace_eq|]).
  all: intros o ans Hin; split_in Hin.
  all: try discriminate Hin.
  all: injection Hin as -> ->.
  all: first
    [ left; eexists _, _; split; [first [eassumption | reflexivity]|]; reflexivity
    | right; eexists _, _, _, _; split; [reflexivity|];
      refine (conj _ (conj _ _)); cycle 2;
      [eassumption | find_event | reflexivity] ].
Qed.

(** The final update comes after the upload of the generated image, and
    decides the outcome. *)
Lemma try_block_update_events env form docId w0 r w1 :
  try_block env form docId w0 = (r, w1) →
  ∃ evs, trace w1 = trace w0 ++ evs
    ∧ ∀ c id fields rej,
        EvUpdateDoc c id fields rej ∈ evs →
        ∃ g t a p itv answer json,
          EvUpload (creative_upload g t) (Return a) ∈ evs
          ∧ c = "user-ads" ∧ id = docId
          ∧ fields = completed_fields (up_url a) p itv
          ∧ (∃ prompt part,
               EvGenerate (first_request prompt part) (Return answer) ∈ evs)
          ∧ parse_output (g_text answer) = Return json
          ∧ get_imageToVideo json = Return itv
          ∧ match rej with
            | None => r = Return (NextResponse_json (JStr (up_url a)))
            | Some e =>
                r = Throw e
                ∧ (has_undefined fields && negb (ignoreUndefinedProperties env) = true →
                   e = FirebaseError "invalid-argument")
            end.
Proof.
  intros H. unfold_try H. exec H.
  all: injection H as <- <-.
  all: eexists; (split; [trace_eq|]).
  all: intros c id fields rej Hin; split_in Hin.
  all: try discriminate Hin.
  all: injection Hin as -> -> -> ->.
  all: eexists _, _, _, _, _, _, _.
  all: (split; [unfold creative_upload; find_event|]).
  all: split; [reflexivity|]; split; [reflexivity|]; split; [reflexivity|].
  all: refine (conj _ (conj _ (conj _ _))); cycle 2;
         [eassumption | | eexists _, _; unfold first_request; find_event | eassumption].
  all: first [reflexivity | split; [reflexivity|]; intros Hu; first [reflexivity | congruence]].
Qed.

(** What the answers of the model lead to: a first answer that does not
    parse ends the run before the second request, a second answer without
    an image ends it before any upload of a result. *)
Lemma try_block_answers env form docId w0 r w1 :
  try_block env form docId w0 = (r, w1) →
  ∃ evs, trace w1 = trace w0 ++ evs
    ∧ ∀ req answer,
        EvGenerate req (Return answer) ∈ evs →
        (model req = "gemini-2.0-flash"
         ∧ match parse_output (g_text answer) with
           | Throw e =>
               r = Throw e ∧ generations evs = [req] ∧ store_writes evs = []
               ∧ (uploads evs = [] ∨ ∃ bytes t, uploads evs = [product_upload bytes t])
           | Return json =>
               ∀ resp, r = Return resp →
                 ∃ u p itv,
                   get_imageToVideo json = Return itv
                   ∧ has_undefined (completed_fields u p itv)
                     && negb (ignoreUndefinedProperties env) = false
           end)
        ∨ (model req = "gemini-2.5-flash-image"
           ∧ match find_image (content_parts answer) with
             | None =>
                 r = Throw (Error "No image returned from Gemini")
                 ∧ last (generations evs) = Some req ∧ store_writes evs = []
                 ∧ (uploads evs = [] ∨ ∃ bytes t, uploads evs = [product_upload bytes t])
             | Some _ => True
             end).
Proof.
  intros H. unfold_try H. exec H.
  all: injection H as <- <-.
  all: eexists; (split; [trace_eq|]).
  all: intros req answer Hin; split_in Hin.
  all: try discriminate Hin.
  all: injection Hin as -> ->.
  all: first [ left; split; [reflexivity|] | right; split; [reflexivity|] ].
  all: rewrite_matches.
  all: try exact I.
  all: try (intros resp [=]; fail).
  all: try (intros resp _; eexists _, _, _; split; eassumption).
  all: cbn [generations uploads store_writes omap list_omap app last].
  all: (split; [reflexivity|]); (split; [reflexivity|]); (split; [reflexivity|]).
  all: first [ left; reflexivity | right; eexists _, _; reflexivity ].
Qed.

(** At most two fetches: the product image, when it is not in the request,
    and the avatar. *)
Lemma try_block_fetches env form docId w0 r w1 :
  try_block env form docId w0 = (r, w1) →
  ∃ evs, trace w1 = trace w0 ++ evs
    ∧ (length (fetches evs) ≤ 2)%nat
    ∧ ∀ url ans,
        EvFetch url ans ∈ evs →
        (imageUrl_given (Form.imageUrl form) = true
         ∧ url = default "" (Form.imageUrl form))
        ∨ (avatar_given (Form.avatar form) = true
           ∧ url = default "" (Form.avatar form))
        ∨ (imageUrl_given (Form.imageUrl form) = false
           ∧ ∃ f t0 a0,
               Form.file form = Some f
               ∧ Str.truthy (Base64.encode (file_bytes f)) = false
               ∧ EvUpload (product_upload (file_bytes f) t0) (Return a0) ∈ evs
               ∧ url = up_url a0).
Proof.
  intros H. unfold_try H. exec H.
  all: injection H as <- <-.
  all: eexists; (split; [trace_eq|]).
  all: no_negb.
  all: (split; [cbn; lia|]).
  all: intros url ans Hin; split_in Hin.
  all: try discriminate Hin.
  all: injection Hin as -> ->.
  all: first
    [ left; split; [first [eassumption | reflexivity] | reflexivity]
    | right; left; split; [first [eassumption | reflexivity] | reflexivity]
    | right; right; split; [first [eassumption | reflexivity]|];
      eexists _, _, _; split; [first [eassumption | reflexivity]|];
      split; [first [eassumption | reflexivity]|];
      split; [unfold product_upload; find_event | reflexivity] ].
Qed.

End Paths.

#[local] Transparent PROMPT AVATAR_PROMPT json_config error_payload JStr pretty
  Base64.encode parse_output mime_of find_image content_parts String.append
  get_imageToVideo defined_fields has_undefined.

(** ** The job record *)

Lemma intake_Return env form w docId w0 :
  intake env form w = (Return docId, w0) →
  store w0 = <[("user-ads", docId) := pending_record form docId]> (store w)
  ∧ ∃ evs, trace w0 = trace w ++ evs ∧ Forall quiet_event evs
      ∧ store_writes evs
        = [EvSetDoc "user-ads" docId (pending_record form docId) None].
Proof.
  intros H. destruct (intake_run _ _ _ _ _ H)
    as (answer & more & T & Q & _ & [(e & ? & _)|[(e & d & ? & _)|(d & E & -> & S)]]);
    try discriminate.
  injection E as <-. split; [done|]. eauto.
Qed.

Lemma intake_Throw env form w e w0 :
  intake env form w = (Throw e, w0) →
  store w0 = store w
  ∧ ∃ evs, trace w0 = trace w ++ evs ∧ Forall quiet_event evs
      ∧ (store_writes evs = []
         ∨ ∃ docId, store_writes evs
                    = [EvSetDoc "user-ads" docId (pending_record form docId) (Some e)]).
Proof.
  intros H. destruct (intake_run _ _ _ _ _ H)
    as (answer & more & T & Q & _
        & [(e' & E & S & -> & _)|[(e' & d & E & S & ->)|(d & ? & _)]]);
    try discriminate.
  - split; [done|]. eexists. split; [done|]. split; [done|]. by left.
  - injection E as <-. split; [done|]. eexists. split; [done|]. split; [done|].
    right. by exists d.
Qed.

Lemma try_block_Throw env form docId w0 e w1 :
  try_block env form docId w0 = (Throw e, w1) → store w1 = store w0.
Proof.
  intros H. destruct (try_block_store _ _ _ _ _ _ H)
    as (evs & _ & [(? & _ & S & _)|(? & ? & ? & ? & _)]); [done | discriminate].
Qed.

Lemma POST_failure env form w docId w0 e w1 :
  intake env form w = (Return docId, w0) →
  try_block env form docId w0 = (Throw e, w1) →
  POST env form w = catch_block env docId e w1.
Proof. intros I T. unfold POST, bind, try_catch. by rewrite I, T. Qed.

(** C1, amended.  When an exception is raised after the job record was
    created, the record is still the one of intake; if the `deleteDoc` of the
    cleanup is accepted, the record is deleted and the handler answers, with
    status 200, the payload `{error: "Please Try Again"}`, which does not
    depend on the exception; if that `deleteDoc` is rejected, the handler
    throws the rejection and the record stays. *)
Theorem failure_cleanup env form w docId w0 e w1 :
  intake env form w = (Return docId, w0) →
  try_block env form docId w0 = (Throw e, w1) →
  store w1 !! ("user-ads", docId) = Some (pending_record form docId)
  ∧ match store_rejects env w1 (CallDeleteDoc "user-ads" docId) with
    | None =>
        ∃ w2, POST env form w = (Return (NextResponse_json error_payload), w2)
          ∧ status (NextResponse_json error_payload) = 200
          ∧ store w2 = delete ("user-ads", docId) (store w)
          ∧ store w2 !! ("user-ads", docId) = None
    | Some e' =>
        ∃ w2, POST env form w = (Throw e', w2) ∧ store w2 = store w1
    end.
Proof.
  intros I T. rewrite (POST_failure _ _ _ _ _ _ _ I T).
  apply intake_Return in I as [S0 _].
  pose proof (try_block_Throw _ _ _ _ _ _ T) as S1.
  split; [by rewrite S1, S0, lookup_insert_eq|].
  destruct (catch_block env docId e w1) as [r w2] eqn:C.
  apply catch_block_run in C as (evs & _ & _ & C).
  destruct (store_rejects env w1 _) as [e'|].
  - destruct C as (-> & S & _). by exists w2.
  - destruct C as (-> & S & _). exists w2. split; [done|]. split; [done|].
    rewrite S, S1, S0, delete_insert_eq. split; [done|]. apply lookup_delete_eq.
Qed.

(** C10.  When no document of `users` has the e-mail of the request, the
    handler throws before any job record is written: the store is unchanged,
    the only call is the query, and nothing is returned, so not the payload
    of the failures either.  Unless the query itself is rejected, what is
    thrown is the `TypeError` of reading `data` of `undefined`. *)
Theorem unknown_user env form w :
  query (store w) "users" "email" (field_value (Form.userEmail form)) = [] →
  ∃ e w' answer,
    POST env form w = (Throw e, w')
    ∧ store w' = store w
    ∧ trace w'
      = trace w ++ [EvGetDocs "users" "email"
                      (field_value (Form.userEmail form)) answer]
    ∧ (store_rejects env w
         (CallGetDocs "users" "email" (field_value (Form.userEmail form))) = None →
       answer = Return []
       ∧ e = TypeError "Cannot read properties of undefined (reading 'data')").
Proof.
  intros Q. unfold POST, intake, getDocs, bind, throw. rewrite Q.
  destruct (store_rejects env w _) as [e|]; cbn.
  - by eexists _, _, _.
  - by eexists _, _, _.
Qed.

Lemma completed_record_fields form docId u p itv :
  let doc := completed_record form docId u p itv in
  doc !! "status" = Some (JStr "completed")
  ∧ doc !! "finalProductImageUrl" = Some (JStr u)
  ∧ doc !! "productImageUrl" = Some (JStr p)
  ∧ doc !! "imageToVideoPrompt" = itv
  ∧ doc !! "docId" = Some (JStr docId)
  ∧ doc !! "userEmail" = Some (field_value (Form.userEmail form))
  ∧ doc !! "description" = Some (field_value (Form.description form))
  ∧ doc !! "size" = Some (field_value (Form.size form)).
Proof.
  unfold completed_record, completed_fields, defined_fields, pending_record.
  destruct itv as [v|]; cbn [foldr fst snd];
    repeat split; by simplify_map_eq.
Qed.

Lemma pending_record_fields form docId :
  let doc := pending_record form docId in
  doc !! "status" = Some (JStr "pending")
  ∧ doc !! "docId" = Some (JStr docId)
  ∧ doc !! "finalProductImageUrl" = None
  ∧ doc !! "productImageUrl" = None
  ∧ doc !! "imageToVideoPrompt" = None.
Proof. unfold pending_record. repeat split; by simplify_map_eq. Qed.

Lemma units_inj (a b : string) : Str.units a = Str.units b → a = b.
Proof.
  revert b. induction a as [|c a IH]; intros [|d b] E; cbn in E; try done.
  injection E as E1 E2. apply (f_equal ascii_of_N) in E1.
  rewrite !ascii_N_embedding in E1. subst. f_equal. by apply IH.
Qed.

Lemma error_payload_not_string u :
  NextResponse_json error_payload ≠ NextResponse_json (JStr u).
Proof. done. Qed.

Lemma get_imageToVideo_Return json itv :
  get_imageToVideo json = Return itv → itv = member "imageToVideo" json.
Proof. destruct json; cbn; by intros [= <-]. Qed.

Lemma imageUrl_given_spec (o : option string) :
  imageUrl_given o = true ↔ ∃ u, o = Some u ∧ u ≠ "".
Proof.
  destruct o as [[|c u]|]; cbn; split; try done.
  - by intros (u & [= <-] & ?).
  - intros _. by eexists.
  - by intros (u & ? & _).
Qed.

(** C2, amended.  After a run that returns a URL, the job record has the
    status `completed`, its `finalProductImageUrl` is the URL returned (the
    one that the image host gave to the upload of the generated image), its
    `productImageUrl` is the `imageUrl` of the request, which is not empty,
    or else the URL that the image host gave to the upload of the file, and
    its `imageToVideoPrompt` is the `imageToVideo` of the model's output,
    whatever value that is: these fields are not empty when the answers of
    the collaborators are not. *)
Theorem success_record env form w u w' :
  POST env form w = (Return (NextResponse_json (JStr u)), w') →
  ∃ docId p itv evs,
    trace w' = trace w ++ evs
    ∧ store w'
      = <[("user-ads", docId) := completed_record form docId u p itv]> (store w)
    ∧ completed_record form docId u p itv !! "status" = Some (JStr "completed")
    ∧ completed_record form docId u p itv !! "finalProductImageUrl" = Some (JStr u)
    ∧ completed_record form docId u p itv !! "productImageUrl" = Some (JStr p)
    ∧ completed_record form docId u p itv !! "imageToVideoPrompt" = itv
    ∧ (∃ g t a, EvUpload (creative_upload g t) (Return a) ∈ evs ∧ up_url a = u)
    ∧ (if imageUrl_given (Form.imageUrl form)
       then Form.imageUrl form = Some p ∧ p ≠ ""
       else ∃ bytes t a,
              EvUpload (product_upload bytes t) (Return a) ∈ evs ∧ up_url a = p)
    ∧ (∃ prompt part answer json,
         EvGenerate (first_request prompt part) (Return answer) ∈ evs
         ∧ parse_output (g_text answer) = Return json
         ∧ itv = member "imageToVideo" json).
Proof.
  intros H. apply POST_run in H
    as [(e & _ & ?)|(docId & w0 & r1 & w1 & I & T
                     & [(resp & -> & E & ->)|(e & -> & C)])]; [done| |].
  - injection E as <-.
    apply intake_Return in I as (S0 & evs0 & T0 & _ & _).
    apply try_block_success in T
      as (evs & u' & p & itv & T1 & E & _ & S1 & (g & t & a & Hu & Eu) & Hp
          & (prompt & part & answer & json & Hg & Hj & Hi)).
    injection E as E. apply units_inj in E as <-.
    destruct (completed_record_fields form docId u p itv) as (F1 & F2 & F3 & F4 & _).
    exists docId, p, itv, (evs0 ++ evs).
    split; [by rewrite T1, T0, app_assoc|].
    split; [by rewrite S1, S0, alter_insert_eq|].
    do 4 (split; [done|]).
    split; [exists g, t, a; split; [apply elem_of_app; by right | done]|].
    split.
    + destruct (imageUrl_given (Form.imageUrl form)) eqn:G.
      * split; [done|]. apply imageUrl_given_spec in G as (x & Ex & Nx). congruence.
      * destruct Hp as (bytes & t' & a' & Hin & Ea).
        exists bytes, t', a'. split; [apply elem_of_app; by right | done].
    + exists prompt, part, answer, json.
      split; [apply elem_of_app; by right|]. split; [done|].
      by apply get_imageToVideo_Return.
  - apply catch_block_run in C as (evs & _ & _ & C).
    destruct (store_rejects env w1 _); destruct C as (E & _); [done|].
    injection E as E. by destruct (error_payload_not_string u).
Qed.

(** The events of a run of the whole handler: those of intake, of the `try`
    block and of the `catch` block. *)
Lemma POST_events env form w r w' :
  POST env form w = (r, w') →
  (∃ e evs, intake env form w = (Throw e, w') ∧ r = Throw e
     ∧ trace w' = trace w ++ evs ∧ Forall quiet_event evs)
  ∨ ∃ docId w0 r1 w1 evs0 evs1 evs2,
      intake env form w = (Return docId, w0)
      ∧ try_block env form docId w0 = (r1, w1)
      ∧ trace w0 = trace w ++ evs0 ∧ Forall quiet_event evs0
      ∧ trace w1 = trace w0 ++ evs1
      ∧ trace w' = trace w ++ evs0 ++ evs1 ++ evs2 ∧ Forall quiet_event evs2
      ∧ ((∃ resp, r1 = Return resp ∧ r = Return resp ∧ w' = w1 ∧ evs2 = [])
         ∨ (∃ e, r1 = Throw e ∧ catch_block env docId e w1 = (r, w')
              ∧ trace w' = trace w1 ++ evs2)).
Proof.
  intros H. apply POST_run in H
    as [(e & I & ->)|(docId & w0 & r1 & w1 & I & T & H)].
  - left. destruct (intake_Throw _ _ _ _ _ I) as (_ & evs & T0 & Q & _).
    by exists e, evs.
  - right. destruct (intake_Return _ _ _ _ _ I) as (_ & evs0 & T0 & Q0 & _).
    destruct (try_block_store _ _ _ _ _ _ T) as (evs1 & T1 & _).
    destruct H as [(resp & -> & -> & ->)|(e & -> & C)].
    + exists docId, w0, (Return resp), w1, evs0, evs1, [].
      repeat (split; [done|]). split; [by rewrite T1, T0, app_nil_r, app_assoc|].
      split; [constructor|]. left. by exists resp.
    + destruct (catch_block_run _ _ _ _ _ _ C) as (evs2 & T2 & Q2 & _).
      exists docId, w0, (Throw e), w1, evs0, evs1, evs2.
      repeat (split; [done|]).
      split; [by rewrite T2, T1, T0, <- !app_assoc|].
      split; [done|]. right. by exists e.
Qed.

Lemma templates_differ : PROMPT ≠ AVATAR_PROMPT.
Proof.
  intros H. apply String.eqb_eq in H.
  assert (String.eqb PROMPT AVATAR_PROMPT = false) as E by (vm_compute; reflexivity).
  congruence.
Qed.

Lemma avatar_given_spec (o : option string) :
  avatar_given o = true ↔ ∃ a, o = Some a ∧ (2 < String.length a)%nat.
Proof.
  destruct o as [a|]; unfold avatar_given; split.
  - intros H%Nat.ltb_lt. by exists a.
  - intros (a' & [= <-] & H). by apply Nat.ltb_lt.
  - done.
  - by intros (a & ? & _).
Qed.

(** A run of the `try` block that returns has sent the two requests. *)
Lemma try_block_Return_generations env form docId w0 resp w1 evs :
  try_block env form docId w0 = (Return resp, w1) →
  trace w1 = trace w0 ++ evs →
  ∃ q1 q2, generations evs = [q1; q2].
Proof.
  intros H T.
  apply try_block_success_trace in H
    as (product & p & part & answer & json & avatar_fetch & more & resp2 & g & t
        & a & itv & Hp & Ha & Tr & _).
  rewrite Tr in T. apply app_inv_head in T as <-.
  assert (generations product = []) as Ep.
  { destruct (imageUrl_given (Form.imageUrl form)).
    - by destruct Hp as (_ & res & bytes & -> & _).
    - destruct Hp as (f & t0 & a0 & _ & _ & Hp).
      destruct (Str.truthy (Base64.encode (file_bytes f))).
      + by destruct Hp as (-> & _).
      + by destruct Hp as (res & bytes & -> & _). }
  assert (generations avatar_fetch = []) as E.
  { destruct (avatar_given (Form.avatar form)).
    - by destruct Ha as (res & bytes & -> & _).
    - by destruct Ha as (-> & _). }
  rewrite !generations_app, Ep, E. cbn. by eexists _, _.
Qed.

(** C8.  The first request to the model carries the avatar template when
    the `avatar` field is a string longer than 2, and the product template
    when the field is absent or not longer than 2; the two templates
    differ.  The second request carries, after the text and the product
    image, the avatar image that [urlToInlineData] fetched in the first
    case, and nothing more in the second.  Every run that returns a URL has
    sent the two requests, in that form; a run that fails may have stopped
    before the first or before the second. *)
Theorem avatar_selects_template env form w r w' :
  POST env form w = (r, w') →
  PROMPT ≠ AVATAR_PROMPT
  ∧ (avatar_given (Form.avatar form) = true
     ↔ ∃ a, Form.avatar form = Some a ∧ (2 < String.length a)%nat)
  ∧ ∃ evs, trace w' = trace w ++ evs
      ∧ let prompt := if avatar_given (Form.avatar form)
                      then AVATAR_PROMPT else PROMPT in
        let url := default "" (Form.avatar form) in
        let both :=
          ∃ part text more,
            generations evs = [first_request prompt part;
                               second_request text part more]
            ∧ if avatar_given (Form.avatar form)
              then ∃ res bytes,
                     more = [inline_part url res bytes]
                     ∧ res_arrayBuffer res = Return bytes
                     ∧ EvFetch url (Return res) ∈ evs
              else more = [] in
        (generations evs = []
         ∨ (∃ part, generations evs = [first_request prompt part])
         ∨ both)
        ∧ ((∃ u, r = Return (NextResponse_json (JStr u))) → both).
Proof.
  intros H. split; [apply templates_differ|]. split; [apply avatar_given_spec|].
  apply POST_events in H
    as [(e & evs & _ & -> & T & Q)
       |(docId & w0 & r1 & w1 & evs0 & evs1 & evs2 & _ & B & _ & Q0 & T1 & T & Q2 & O)].
  - exists evs. split; [done|]. cbn zeta. split.
    + left. by apply quiet_generations.
    + by intros (u & ?).
  - exists (evs0 ++ evs1 ++ evs2). split; [done|].
    destruct (try_block_generations _ _ _ _ _ _ B) as (evs & T1' & G).
    assert (evs = evs1) as -> by (apply (app_inv_head (trace w0)); congruence).
    rewrite !generations_app, (quiet_generations _ Q0), (quiet_generations _ Q2).
    rewrite app_nil_r. cbn [app]. cbn zeta in *.
    assert (∀ part text more,
              generations evs1 = [first_request
                                    (if avatar_given (Form.avatar form)
                                     then AVATAR_PROMPT else PROMPT) part;
                                  second_request text part more] →
              (if avatar_given (Form.avatar form)
               then ∃ res bytes,
                      more = [inline_part (default "" (Form.avatar form)) res bytes]
                      ∧ res_arrayBuffer res = Return bytes
                      ∧ EvFetch (default "" (Form.avatar form)) (Return res) ∈ evs1
               else more = []) →
              if avatar_given (Form.avatar form)
              then ∃ res bytes,
                     more = [inline_part (default "" (Form.avatar form)) res bytes]
                     ∧ res_arrayBuffer res = Return bytes
                     ∧ EvFetch (default "" (Form.avatar form)) (Return res)
                       ∈ evs0 ++ evs1 ++ evs2
              else more = []) as Lift.
    { intros part text more _ A.
      destruct (avatar_given (Form.avatar form)); [|done].
      destruct A as (res & bytes & -> & Hb & Hin).
      exists res, bytes. split; [done|]. split; [done|].
      rewrite !elem_of_app. tauto. }
    split.
    + destruct G as [G|[G|(part & text & more & G & A)]]; [by left | by right; left|].
      right. right. exists part, text, more. split; [done|]. by apply (Lift part text).
    + intros (u & ->).
      destruct O as [(resp & -> & _)|(e & _ & C & _)].
      * destruct (try_block_Return_generations _ _ _ _ _ _ _ B T1) as (q1 & q2 & L).
        destruct G as [G|[(part & G)|(part & text & more & G & A)]];
          [congruence | congruence |].
        exists part, text, more. split; [done|]. by apply (Lift part text).
      * apply catch_block_run in C as (evs2' & _ & _ & C).
        destruct (store_rejects env w1 _); destruct C as (E & _); [done|].
        injection E as E. by destruct (error_payload_not_string u).
Qed.

(** C9, amended.  On every run that reaches the `try` block, the image host
    receives exactly one upload of the bytes of the file when the request has
    no `imageUrl` and has a file; on every run of a request with an
    `imageUrl`, every upload is the one of the generated image, a data URL,
    which the Base64 of a file never is; a run that stops at intake uploads
    nothing. *)
Theorem product_upload_once env form w r w' :
  POST env form w = (r, w') →
  ∃ evs, trace w' = trace w ++ evs
    ∧ (∀ docId w0 f,
         intake env form w = (Return docId, w0) →
         imageUrl_given (Form.imageUrl form) = false →
         Form.file form = Some f →
         length (filter (λ o, up_file o = Base64.encode (file_bytes f)) (uploads evs))
         = 1%nat)
    ∧ (imageUrl_given (Form.imageUrl form) = true →
       (length (uploads evs) ≤ 1)%nat
       ∧ ∀ o, o ∈ uploads evs →
           (∃ g, up_file o = "data:image/png;base64," +:+ g)
           ∧ ∀ bytes, up_file o ≠ Base64.encode bytes)
    ∧ (∀ e w0, intake env form w = (Throw e, w0) → uploads evs = []).
Proof.
  intros H. apply POST_events in H
    as [(e & evs & I & _ & T & Q)
       |(docId & w0 & r1 & w1 & evs0 & evs1 & evs2 & I & B & _ & Q0 & T1 & T & Q2 & _)].
  - exists evs. split; [done|]. rewrite (quiet_uploads _ Q).
    split; [intros; congruence|]. split; [|done].
    intros _. split; [cbn; lia|]. by intros o ?%elem_of_nil.
  - exists (evs0 ++ evs1 ++ evs2). split; [done|].
    destruct (try_block_uploads _ _ _ _ _ _ B) as (evs & T1' & U).
    rewrite T1' in T1. apply app_inv_head in T1 as ->.
    rewrite !uploads_app, (quiet_uploads _ Q0), (quiet_uploads _ Q2).
    rewrite app_nil_r. cbn [app].
    split; [|split; [|intros; congruence]].
    + intros docId' w0' f _ G F. rewrite G, F in U.
      destruct U as (t & [-> | (g & t' & ->)]).
      * cbn. by rewrite decide_True.
      * cbn. rewrite decide_True by done. rewrite decide_False; [done|].
        cbn. intros E. symmetry in E. by apply encode_not_data_url in E.
    + intros G. rewrite G in U. destruct U as [-> | (g & t & ->)].
      * split; [cbn; lia|]. by intros o ?%elem_of_nil.
      * split; [cbn; lia|]. intros o ->%list_elem_of_singleton.
        split; [by exists g|]. intros bytes E. symmetry in E.
        by apply encode_not_data_url in E.
Qed.

(** C5, amended.  When `fetch` answers with a status from 200 to 299 and a
    body of fewer than 20 bytes, [urlToInlineData] throws the error `Fetched
    image is empty or too small.`; and on every run in which this happens to
    a fetch that comes before the first request to the model, that is to the
    product image, the model is never called. *)
Theorem small_image_rejected env :
  (∀ url w res bytes,
     fetch_answer env w url = Return res →
     res_ok res = true → res_arrayBuffer res = Return bytes →
     (length bytes < 20)%nat →
     urlToInlineData env url w
     = (Throw (Error "Fetched image is empty or too small."),
        log_event (EvFetch url (Return res)) w))
  ∧ (∀ form w r w',
       POST env form w = (r, w') →
       ∃ evs, trace w' = trace w ++ evs
         ∧ ∀ url res bytes,
             (url, Return res) ∈ fetched_before_model evs →
             res_ok res = true → res_arrayBuffer res = Return bytes →
             (length bytes < 20)%nat →
             generations evs = []).
Proof.
  split.
  - intros url w res bytes F O B L.
    unfold urlToInlineData, fetch, bind, lift, throw.
    rewrite F. cbn beta iota zeta. rewrite O. cbn [negb]. rewrite B.
    cbn beta iota zeta. apply Nat.ltb_lt in L. by rewrite L.
  - intros form w r w' H. apply POST_events in H
      as [(e & evs & _ & _ & T & Q)
         |(docId & w0 & r1 & w1 & evs0 & evs1 & evs2 & _ & B & _ & Q0 & T1 & T & Q2 & _)].
    + exists evs. split; [done|]. intros. by apply quiet_generations.
    + exists (evs0 ++ evs1 ++ evs2). split; [done|].
      destruct (try_block_small_fetch _ _ _ _ _ _ B) as (evs & T1' & S).
      rewrite T1' in T1. apply app_inv_head in T1 as ->.
      intros url res bytes Hin O Hb L.
      rewrite (quiet_fetched_l _ _ Q0), (quiet_fetched_r _ _ Q2) in Hin.
      destruct (S url res bytes Hin O Hb L) as [G _].
      rewrite !generations_app, G, (quiet_generations _ Q0), (quiet_generations _ Q2).
      done.
Qed.

(** C3, amended.  A run of the handler writes the store in one of five
    ways.  It throws at intake and no record is written.  Or one record is
    created, with the status `pending`, and then: it is updated to
    `completed`, with the fields of success, and the URL is returned; or,
    after a failure (which may be the rejected update), it is deleted and the
    payload of the failures is returned; or the `deleteDoc` of the cleanup is
    rejected, the handler throws, and the record stays as intake wrote it.
    No other document changes, and no status but `pending` and `completed`
    is written. *)
Theorem job_record_lifecycle env form w r w' :
  POST env form w = (r, w') →
  ∃ evs, trace w' = trace w ++ evs
    ∧ ((∃ e, r = Throw e ∧ store w' = store w
          ∧ (store_writes evs = []
             ∨ ∃ docId,
                 store_writes evs
                 = [EvSetDoc "user-ads" docId (pending_record form docId) (Some e)]))
       ∨ ∃ docId attempts,
           let created := EvSetDoc "user-ads" docId (pending_record form docId) None in
           pending_record form docId !! "status" = Some (JStr "pending")
           ∧ (attempts = []
              ∨ ∃ u p itv e,
                  attempts
                  = [EvUpdateDoc "user-ads" docId (completed_fields u p itv) (Some e)])
           ∧ ((∃ u p itv,
                 r = Return (NextResponse_json (JStr u))
                 ∧ store_writes evs
                   = [created;
                      EvUpdateDoc "user-ads" docId (completed_fields u p itv) None]
                 ∧ store w'
                   = <[("user-ads", docId) := completed_record form docId u p itv]>
                       (store w)
                 ∧ completed_record form docId u p itv !! "status"
                   = Some (JStr "completed"))
              ∨ (r = Return (NextResponse_json error_payload)
                 ∧ store_writes evs
                   = created :: attempts ++ [EvDeleteDoc "user-ads" docId None]
                 ∧ store w' = delete ("user-ads", docId) (store w))
              ∨ (∃ e, r = Throw e
                   ∧ store_writes evs
                     = created :: attempts ++ [EvDeleteDoc "user-ads" docId (Some e)]
                   ∧ store w'
                     = <[("user-ads", docId) := pending_record form docId]> (store w)))).
Proof.
  intros H. apply POST_events in H
    as [(e & evs & I & -> & T & Q)
       |(docId & w0 & r1 & w1 & evs0 & evs1 & evs2 & I & B & T0 & Q0 & T1 & T & Q2 & H)].
  - exists evs. split; [done|]. left. exists e. split; [done|].
    destruct (intake_Throw _ _ _ _ _ I) as (S & evs' & T' & _ & W).
    rewrite T' in T. apply app_inv_head in T as ->. done.
  - exists (evs0 ++ evs1 ++ evs2). split; [done|]. right.
    destruct (intake_Return _ _ _ _ _ I) as (S0 & evs0' & T0' & _ & W0).
    rewrite T0' in T0. apply app_inv_head in T0 as ->.
    destruct (try_block_store _ _ _ _ _ _ B) as (evs1' & T1' & W1).
    rewrite T1' in T1. apply app_inv_head in T1 as ->.
    rewrite !store_writes_app, W0.
    destruct (pending_record_fields form docId) as (P & _).
    destruct H as [(resp & -> & -> & -> & ->)|(e & -> & C & T2)].
    + destruct W1 as [(e & ? & _)|(u & p & itv & E & W1 & _ & S1)]; [done|].
      injection E as ->. exists docId, []. cbn zeta.
      split; [done|]. split; [by left|]. left. exists u, p, itv.
      split; [done|]. split; [by rewrite W1|].
      split; [by rewrite S1, S0, alter_insert_eq|].
      by destruct (completed_record_fields form docId u p itv) as (F & _).
    + destruct W1 as [(e' & _ & S1 & W1)|(u & p & itv & ? & _)]; [|done].
      destruct (catch_block_run _ _ _ _ _ _ C) as (evs2' & T2' & _ & D).
      rewrite T2' in T2. apply app_inv_head in T2 as ->.
      exists docId, (store_writes evs1). cbn zeta.
      split; [done|]. split; [done|]. right.
      destruct (store_rejects env w1 _) as [e''|]; destruct D as (-> & S2 & ->).
      * right. exists e''. split; [done|]. split; [done|].
        by rewrite S2, S1, S0.
      * left. split; [done|]. split; [done|].
        by rewrite S2, S1, S0, delete_insert_eq.
Qed.

(** ** The claims on concrete runs *)

(** C1 as stated fails: the page is missing, so the `try` block throws after
    the record was created; the store refuses the `deleteDoc`; the handler
    throws, and the record is still there. *)
Lemma cleanup_rejected :
  intake (shop good_output missing true) url_form users_world
  = (Return job, w_intake (shop good_output missing true) url_form)
  ∧ try_block (shop good_output missing true) url_form job
      (w_intake (shop good_output missing true) url_form)
    = (Throw (Error "Failed to fetch image. Status 404"),
       w_try (shop good_output missing true) url_form)
  ∧ POST (shop good_output missing true) url_form users_world
    = (Throw (FirebaseError "permission-denied"),
       w_post (shop good_output missing true) url_form)
  ∧ store (w_post (shop good_output missing true) url_form) !! ("user-ads", job)
    = Some (pending_record url_form job).
Proof. repeat split; vm_compute; reflexivity. Qed.

Lemma failure_cleanup_witness :
  store (w_try (shop good_output missing false) url_form) !! ("user-ads", job)
  = Some (pending_record url_form job)
  ∧ ∃ w2,
      POST (shop good_output missing false) url_form users_world
      = (Return (NextResponse_json error_payload), w2)
      ∧ status (NextResponse_json error_payload) = 200
      ∧ store w2 = delete ("user-ads", job) (store users_world)
      ∧ store w2 !! ("user-ads", job) = None.
Proof.
  refine (failure_cleanup (shop good_output missing false) url_form users_world job
            (w_intake (shop good_output missing false) url_form)
            (Error "Failed to fetch image. Status 404")
            (w_try (shop good_output missing false) url_form) _ _);
    vm_compute; reflexivity.
Defined.

(** C2 as stated fails: the model gives an empty `imageToVideo`, the run
    succeeds, and the `imageToVideoPrompt` of the record is the empty
    string. *)
Lemma empty_video_prompt :
  POST (shop terse_output png false) url_form users_world
  = (Return (NextResponse_json
               (JStr "https://ik.imagekit.io/shop/generate-1700000000006.png")),
     w_post (shop terse_output png false) url_form)
  ∧ (store (w_post (shop terse_output png false) url_form) !! ("user-ads", job))
      ≫= (λ doc : Doc, doc !! "imageToVideoPrompt")
    = Some (JStr "").
Proof. split; vm_compute; reflexivity. Qed.

Lemma success_record_witness :
  ∃ docId p itv evs,
    trace (w_post (shop good_output png false) url_form)
    = trace users_world ++ evs
    ∧ store (w_post (shop good_output png false) url_form)
      = <[("user-ads", docId) :=
            completed_record url_form docId
              "https://ik.imagekit.io/shop/generate-1700000000006.png" p itv]>
          (store users_world)
    ∧ completed_record url_form docId
        "https://ik.imagekit.io/shop/generate-1700000000006.png" p itv !! "status"
      = Some (JStr "completed")
    ∧ completed_record url_form docId
        "https://ik.imagekit.io/shop/generate-1700000000006.png" p itv
        !! "finalProductImageUrl"
      = Some (JStr "https://ik.imagekit.io/shop/generate-1700000000006.png")
    ∧ completed_record url_form docId
        "https://ik.imagekit.io/shop/generate-1700000000006.png" p itv
        !! "productImageUrl"
      = Some (JStr p)
    ∧ completed_record url_form docId
        "https://ik.imagekit.io/shop/generate-1700000000006.png" p itv
        !! "imageToVideoPrompt"
      = itv
    ∧ (∃ g t a, EvUpload (creative_upload g t) (Return a) ∈ evs
         ∧ up_url a = "https://ik.imagekit.io/shop/generate-1700000000006.png")
    ∧ (Form.imageUrl url_form = Some p ∧ p ≠ "")
    ∧ (∃ prompt part answer json,
         EvGenerate (first_request prompt part) (Return answer) ∈ evs
         ∧ parse_output (g_text answer) = Return json
         ∧ itv = member "imageToVideo" json).
Proof.
  refine (success_record (shop good_output png false) url_form users_world
            "https://ik.imagekit.io/shop/generate-1700000000006.png"
            (w_post (shop good_output png false) url_form) _);
    vm_compute; reflexivity.
Defined.

(** C3 as stated fails: the model gives no JSON, the store refuses the
    `deleteDoc`, and the record that intake created stays, `pending`: it is
    neither completed nor deleted. *)
Lemma record_left_pending :
  POST (shop "no json here" png true) url_form users_world
  = (Throw (FirebaseError "permission-denied"),
     w_post (shop "no json here" png true) url_form)
  ∧ store (w_post (shop "no json here" png true) url_form) !! ("user-ads", job)
    = Some (pending_record url_form job)
  ∧ pending_record url_form job !! "status" = Some (JStr "pending").
Proof. repeat split; vm_compute; reflexivity. Qed.

Lemma job_record_lifecycle_witness :
  ∃ evs, trace (w_post (shop good_output png false) file_form)
         = trace users_world ++ evs
    ∧ ((∃ e, (POST (shop good_output png false) file_form users_world).1 = Throw e
          ∧ store (w_post (shop good_output png false) file_form) = store users_world
          ∧ (store_writes evs = []
             ∨ ∃ docId,
                 store_writes evs
                 = [EvSetDoc "user-ads" docId (pending_record file_form docId) (Some e)]))
       ∨ ∃ docId attempts,
           let created :=
             EvSetDoc "user-ads" docId (pending_record file_form docId) None in
           pending_record file_form docId !! "status" = Some (JStr "pending")
           ∧ (attempts = []
              ∨ ∃ u p itv e,
                  attempts
                  = [EvUpdateDoc "user-ads" docId (completed_fields u p itv) (Some e)])
           ∧ ((∃ u p itv,
                 (POST (shop good_output png false) file_form users_world).1
                 = Return (NextResponse_json (JStr u))
                 ∧ store_writes evs
                   = [created;
                      EvUpdateDoc "user-ads" docId (completed_fields u p itv) None]
                 ∧ store (w_post (shop good_output png false) file_form)
                   = <[("user-ads", docId) := completed_record file_form docId u p itv]>
                       (store users_world)
                 ∧ completed_record file_form docId u p itv !! "status"
                   = Some (JStr "completed"))
              ∨ ((POST (shop good_output png false) file_form users_world).1
                 = Return (NextResponse_json error_payload)
                 ∧ store_writes evs
                   = created :: attempts ++ [EvDeleteDoc "user-ads" docId None]
                 ∧ store (w_post (shop good_output png false) file_form)
                   = delete ("user-ads", docId) (store users_world))
              ∨ (∃ e, (POST (shop good_output png false) file_form users_world).1
                      = Throw e
                   ∧ store_writes evs
                     = created :: attempts ++ [EvDeleteDoc "user-ads" docId (Some e)]
                   ∧ store (w_post (shop good_output png false) file_form)
                     = <[("user-ads", docId) := pending_record file_form docId]>
                         (store users_world)))).
Proof.
  refine (job_record_lifecycle (shop good_output png false) file_form users_world
            (POST (shop good_output png false) file_form users_world).1
            (w_post (shop good_output png false) file_form) _);
    vm_compute; reflexivity.
Defined.

Lemma urlToInlineData_mimeType_witness :
  ∃ res d,
    fetch_answer (shop good_output untyped false) users_world
      "https://ik.imagekit.io/shop/mug.webp" = Return res
    ∧ PInline {| data := Base64.encode (repeat Byte.x41 32); mimeType := "image/webp" |}
      = PInline {| data := d;
                   mimeType := mime_of (res_content_type res)
                                 "https://ik.imagekit.io/shop/mug.webp" |}
    ∧ let header := default "" (res_content_type res) in
      let lower := Str.toLowerCase "https://ik.imagekit.io/shop/mug.webp" in
      let m := mime_of (res_content_type res) "https://ik.imagekit.io/shop/mug.webp" in
      (Str.startsWith "image/" header = true → m = header)
      ∧ (Str.startsWith "image/" header = false →
           (Str.endsWith ".jpg" lower = true ∨ Str.endsWith ".jpeg" lower = true →
              m = "image/jpeg")
           ∧ (Str.endsWith ".webp" lower = true → m = "image/webp")
           ∧ (Str.endsWith ".gif" lower = true → m = "image/gif")
           ∧ (Str.endsWith ".jpg" lower = false → Str.endsWith ".jpeg" lower = false →
              Str.endsWith ".webp" lower = false → Str.endsWith ".gif" lower = false →
              m = "image/png")
           ∧ (∀ p, "https://ik.imagekit.io/shop/mug.webp" = p +:+ ".webp" →
                m = "image/webp")
           ∧ (∀ p, "https://ik.imagekit.io/shop/mug.webp" = p +:+ ".xyz" →
                m = "image/png")).
Proof.
  refine (urlToInlineData_mimeType (shop good_output untyped false)
            "https://ik.imagekit.io/shop/mug.webp" users_world
            (PInline {| data := Base64.encode (repeat Byte.x41 32);
                        mimeType := "image/webp" |})
            (log_event (EvFetch "https://ik.imagekit.io/shop/mug.webp" (Return untyped))
               users_world) _);
    vm_compute; reflexivity.
Defined.

(** C5 as stated fails: the page is missing and its body has 9 bytes;
    [urlToInlineData] throws the error of the failed fetch, not the one of
    the small image. *)
Lemma small_body_of_missing_page :
  fetch_answer (shop good_output missing false) users_world
    "https://ik.imagekit.io/shop/mug.webp" = Return missing
  ∧ res_arrayBuffer missing = Return (repeat Byte.x41 9)
  ∧ (length (repeat Byte.x41 9) < 20)%nat
  ∧ (urlToInlineData (shop good_output missing false)
       "https://ik.imagekit.io/shop/mug.webp" users_world).1
    = Throw (Error "Failed to fetch image. Status 404")
  ∧ (urlToInlineData (shop good_output missing false)
       "https://ik.imagekit.io/shop/mug.webp" users_world).1
    ≠ Throw (Error "Fetched image is empty or too small.").
Proof. repeat split; try (vm_compute; reflexivity); [cbn; lia | vm_compute; discriminate]. Qed.

Lemma small_image_rejected_witness :
  urlToInlineData (shop good_output tiny false)
    "https://ik.imagekit.io/shop/mug.webp" users_world
  = (Throw (Error "Fetched image is empty or too small."),
     log_event (EvFetch "https://ik.imagekit.io/shop/mug.webp" (Return tiny))
       users_world)
  ∧ ∃ evs, trace (w_post (shop good_output tiny false) url_form)
           = trace users_world ++ evs
      ∧ ∀ url res bytes,
          (url, Return res) ∈ fetched_before_model evs →
          res_ok res = true → res_arrayBuffer res = Return bytes →
          (length bytes < 20)%nat →
          generations evs = [].
Proof.
  split.
  - refine (proj1 (small_image_rejected (shop good_output tiny false))
              "https://ik.imagekit.io/shop/mug.webp" users_world tiny
              (repeat Byte.x41 9) _ _ _ _);
      [vm_compute; reflexivity .. | cbn; lia].
  - refine (proj2 (small_image_rejected (shop good_output tiny false))
              url_form users_world
              (POST (shop good_output tiny false) url_form users_world).1
              (w_post (shop good_output tiny false) url_form) _).
    vm_compute; reflexivity.
Defined.

(** C6 as stated fails: the text is a JSON object with a fence marker inside
    a string; between the fences of a `json` block it gives another value
    than alone. *)
Lemma fence_inside_text :
  (∃ v, parse fenced_inside = Some v ∧ is_object v = true)
  ∧ parse_output (Some (code_fence "json" fenced_inside))
    ≠ parse_output (Some fenced_inside).
Proof.
  split.
  - eexists. split; vm_compute; reflexivity.
  - vm_compute. discriminate.
Qed.

Lemma fenced_output_parsed_witness :
  parse_output (Some good_output)
  = Return (JObject [(Str.units "textToImage", JStr "a mug on a table");
                     (Str.units "imageToVideo", JStr "slow zoom")])
  ∧ parse_output (Some (code_fence "json" good_output))
    = parse_output (Some good_output)
  ∧ parse_output (Some (code_fence "" good_output))
    = parse_output (Some good_output).
Proof.
  refine (fenced_output_parsed good_output
            (JObject [(Str.units "textToImage", JStr "a mug on a table");
                      (Str.units "imageToVideo", JStr "slow zoom")]) _ _ _);
    vm_compute; reflexivity.
Defined.

(** C7 as stated fails: the text from the first `{` to the last `}` is not
    JSON, and the error is the `SyntaxError` of `JSON.parse`, not `No JSON
    found in model output`. *)
Lemma invalid_match_throws_SyntaxError :
  parse "{oops}" = None
  ∧ Str.match_braces "{oops}" = Some "{oops}"
  ∧ extractJson "{oops}" = Throw SyntaxError
  ∧ extractJson "{oops}" ≠ Throw (Error "No JSON found in model output").
Proof. repeat split; try (vm_compute; reflexivity). vm_compute. discriminate. Qed.

Lemma extractJson_spec_witness :
  extractJson chatty_output
  = Return (JObject [(Str.units "textToImage", JStr "a mug");
                     (Str.units "imageToVideo", JStr "pan")]).
Proof.
  refine (proj2 (proj2 (proj2 (proj2 (extractJson_spec chatty_output) _)))
            "Here it is: "
            (Str.q "{'textToImage': 'a mug', 'imageToVideo': 'pan'}")
            " Enjoy!"
            _ _ _ _ _ _);
    vm_compute; reflexivity.
Defined.

(** C8 on two runs that succeed: with an avatar, the avatar template and
    the fetched avatar image; without one, the product template and no third
    part. *)
Lemma avatar_selects_template_witness :
  (∃ evs part text res bytes,
     trace (w_post (shop good_output png false) file_form) = trace users_world ++ evs
     ∧ generations evs
       = [first_request AVATAR_PROMPT part;
          second_request text part
            [inline_part "https://ik.imagekit.io/shop/ann.jpg" res bytes]]
     ∧ res_arrayBuffer res = Return bytes
     ∧ EvFetch "https://ik.imagekit.io/shop/ann.jpg" (Return res) ∈ evs)
  ∧ (∃ evs part text,
       trace (w_post (shop good_output png false) url_form) = trace users_world ++ evs
       ∧ generations evs = [first_request PROMPT part; second_request text part []]).
Proof.
  split.
  - assert (POST (shop good_output png false) file_form users_world
            = (Return (NextResponse_json
                         (JStr "https://ik.imagekit.io/shop/generate-1700000000007.png")),
               w_post (shop good_output png false) file_form)) as H
      by (vm_compute; reflexivity).
    destruct (avatar_selects_template _ _ _ _ _ H) as (_ & _ & evs & T & S).
    cbv zeta in S. destruct S as (_ & S).
    change (avatar_given (Form.avatar file_form)) with true in S.
    change (default "" (Form.avatar file_form))
      with "https://ik.imagekit.io/shop/ann.jpg" in S.
    cbv iota in S.
    destruct S as (part & text & more & G & res & bytes & -> & Hb & Hin);
      [eexists; reflexivity|].
    exists evs, part, text, res, bytes.
    split; [exact T|]. split; [exact G|]. split; [exact Hb | exact Hin].
  - assert (POST (shop good_output png false) url_form users_world
            = (Return (NextResponse_json
                         (JStr "https://ik.imagekit.io/shop/generate-1700000000006.png")),
               w_post (shop good_output png false) url_form)) as H
      by (vm_compute; reflexivity).
    destruct (avatar_selects_template _ _ _ _ _ H) as (_ & _ & evs & T & S).
    cbv zeta in S. destruct S as (_ & S).
    change (avatar_given (Form.avatar url_form)) with false in S.
    cbv iota in S.
    destruct S as (part & text & more & G & ->); [eexists; reflexivity|].
    exists evs, part, text. split; [exact T | exact G].
Defined.

(** C9 as stated fails: the request brings a file and no `imageUrl`, the
    user is unknown, and the image host receives nothing. *)
Lemma stranger_uploads_nothing :
  Form.file stranger_form
  = Some {| file_bytes := repeat Byte.x41 5; file_type := "image/png" |}
  ∧ Form.imageUrl stranger_form = None
  ∧ uploads (trace (w_post (shop good_output png false) stranger_form)) = [].
Proof. repeat split; vm_compute; reflexivity. Qed.

Lemma product_upload_once_witness :
  ∃ evs, trace (w_post (shop good_output png false) file_form)
         = trace users_world ++ evs
    ∧ (∀ docId w0 f,
         intake (shop good_output png false) file_form users_world
         = (Return docId, w0) →
         imageUrl_given (Form.imageUrl file_form) = false →
         Form.file file_form = Some f →
         length (filter (λ o, up_file o = Base64.encode (file_bytes f)) (uploads evs))
         = 1%nat)
    ∧ (imageUrl_given (Form.imageUrl file_form) = true →
       (length (uploads evs) ≤ 1)%nat
       ∧ ∀ o, o ∈ uploads evs →
           (∃ g, up_file o = "data:image/png;base64," +:+ g)
           ∧ ∀ bytes, up_file o ≠ Base64.encode bytes)
    ∧ (∀ e w0,
         intake (shop good_output png false) file_form users_world = (Throw e, w0) →
         uploads evs = []).
Proof.
  refine (product_upload_once (shop good_output png false) file_form users_world
            (POST (shop good_output png false) file_form users_world).1
            (w_post (shop good_output png false) file_form) _);
    vm_compute; reflexivity.
Defined.

Lemma unknown_user_witness :
  ∃ e w' answer,
    POST (shop good_output png false) stranger_form users_world = (Throw e, w')
    ∧ store w' = store users_world
    ∧ trace w'
      = trace users_world
        ++ [EvGetDocs "users" "email"
              (field_value (Form.userEmail stranger_form)) answer]
    ∧ (store_rejects (shop good_output png false) users_world
         (CallGetDocs "users" "email" (field_value (Form.userEmail stranger_form)))
       = None →
       answer = Return []
       ∧ e = TypeError "Cannot read properties of undefined (reading 'data')").
Proof.
  refine (unknown_user (shop good_output png false) stranger_form users_world _);
    vm_compute; reflexivity.
Defined.

(** The query finds the user of the scenarios. *)
Example query_ex :
  query (store users_world) "users" "email" (JStr "ann@example.com")
  = [("u1", {[ "email" := JStr "ann@example.com" ]})].
Proof. vm_compute. reflexivity. Qed.

(** * Further properties of the code *)

(** ** [urlToInlineData]: when it returns, what it returns, how it fails *)

Lemma res_ok_spec (res : FetchResponse) :
  res_ok res = true ↔ 200 ≤ res_status res ≤ 299.
Proof. unfold res_ok. rewrite andb_true_iff, !Z.leb_le. done. Qed.

(** X1.  [urlToInlineData] returns a part exactly when `fetch` answers with
    a status from 200 to 299 and a body of at least 20 bytes; the part is
    then the Base64 of that body with the MIME type of [mime_of], and the
    run has made one call, the fetch, and has left the store as it was. *)
Theorem urlToInlineData_returns env url w part w' :
  urlToInlineData env url w = (Return part, w')
  ↔ ∃ res bytes,
      fetch_answer env w url = Return res
      ∧ 200 ≤ res_status res ≤ 299
      ∧ res_arrayBuffer res = Return bytes
      ∧ (20 ≤ length bytes)%nat
      ∧ part = inline_part url res bytes
      ∧ w' = log_event (EvFetch url (Return res)) w.
Proof.
  split.
  - intros (res & bytes & F & O & B & L & -> & ->)%urlToInlineData_Return.
    exists res, bytes. by rewrite <- res_ok_spec.
  - intros (res & bytes & F & O%res_ok_spec & B & L & -> & ->).
    unfold urlToInlineData, fetch, bind, lift, throw, ret.
    rewrite F. cbn beta iota zeta. rewrite O. cbn [negb]. rewrite B.
    cbn beta iota zeta. apply Nat.ltb_ge in L. by rewrite L.
Qed.

(** X2.  The failures of [urlToInlineData].  The status is looked at before
    the body: an answer outside 200-299 gives the error `Failed to fetch
    image. Status` followed by the status in decimal, whatever the body is.
    Otherwise the error is the rejection of `fetch` or of `arrayBuffer()`
    itself, or `Fetched image is empty or too small.` for a body of fewer
    than 20 bytes.  In each case the only call is the fetch. *)
Theorem urlToInlineData_throws env url w e w' :
  urlToInlineData env url w = (Throw e, w') →
  w' = log_event (EvFetch url (fetch_answer env w url)) w
  ∧ (fetch_answer env w url = Throw e
     ∨ ∃ res, fetch_answer env w url = Return res
         ∧ (res_ok res = false
            ∧ e = Error ("Failed to fetch image. Status " +:+ pretty (res_status res))
            ∨ res_ok res = true
              ∧ (res_arrayBuffer res = Throw e
                 ∨ ∃ bytes, res_arrayBuffer res = Return bytes
                     ∧ (length bytes < 20)%nat
                     ∧ e = Error "Fetched image is empty or too small."))).
Proof.
  unfold urlToInlineData, fetch, bind, lift, throw, ret.
  destruct (fetch_answer env w url) as [res|e0] eqn:F.
  - destruct (res_ok res) eqn:Hok; cbn [negb].
    + destruct (res_arrayBuffer res) as [bytes|e1] eqn:B.
      * destruct (length bytes <? 20)%nat eqn:L; [|done].
        intros [= <- <-]. split; [done|]. right. exists res. split; [done|].
        right. split; [done|]. right. exists bytes. apply Nat.ltb_lt in L. done.
      * intros [= <- <-]. split; [done|]. right. exists res. split; [done|].
        right. split; [done|]. by left.
    + intros [= <- <-]. split; [done|]. right. exists res. split; [done|]. by left.
  - intros [= <- <-]. split; [done|]. by left.
Qed.

(** ** Base64, three bytes at a time *)

(** Induction on lists, three elements at a time. *)
Lemma list_ind3 {A} (P : list A → Prop) :
  P [] → (∀ a, P [a]) → (∀ a b, P [a; b]) →
  (∀ a b c r, P r → P (a :: b :: c :: r)) →
  ∀ l, P l.
Proof.
  intros H0 H1 H2 H3.
  assert (∀ l, P l ∧ (∀ a, P (a :: l)) ∧ (∀ a b, P (a :: b :: l))) as H.
  { induction l as [|x l (IH0 & IH1 & IH2)]; [done|].
    split; [apply IH1|]. split; [intros a; apply IH2|]. intros a b. by apply H3. }
  intros l. apply H.
Qed.

Lemma encode_length (bs : list Byte.byte) :
  String.length (Base64.encode bs) = (4 * ((length bs + 2) / 3))%nat.
Proof.
  induction bs as [|a|a b|a b c r IH] using list_ind3; try reflexivity.
  cbn [Base64.encode String.length length]. rewrite IH.
  replace (S (S (S (length r))) + 2)%nat with (1 * 3 + (length r + 2))%nat by lia.
  rewrite Nat.div_add_l by done. lia.
Qed.

Lemma alphabet_NoDup : NoDup Base64.alphabet.
Proof. apply (bool_decide_unpack _). vm_compute. reflexivity. Qed.

Lemma digit_inj (n m : N) :
  (n < 64)%N → (m < 64)%N → Base64.digit n = Base64.digit m → n = m.
Proof.
  intros Hn Hm E. unfold Base64.digit in E.
  apply N2Nat.inj.
  apply (proj1 (List.NoDup_nth Base64.alphabet Base64.pad)
           (proj1 (NoDup_ListNoDup _) alphabet_NoDup)); [| |done].
  - change (length Base64.alphabet) with 64%nat. lia.
  - change (length Base64.alphabet) with 64%nat. lia.
Qed.

Lemma digit_not_pad (n : N) : (n < 64)%N → Base64.digit n ≠ Base64.pad.
Proof.
  intros Hn E. unfold Base64.digit in E.
  assert (nth (N.to_nat n) Base64.alphabet Base64.pad ∈ Base64.alphabet) as H.
  { apply list_elem_of_In, nth_In. change (length Base64.alphabet) with 64%nat. lia. }
  rewrite E in H. revert H. apply (bool_decide_eq_false _).
  vm_compute. reflexivity.
Qed.

Lemma to_N_inj (a b : Byte.byte) : Byte.to_N a = Byte.to_N b → a = b.
Proof.
  intros E. pose proof (Byte.of_to_N a) as Ha. pose proof (Byte.of_to_N b) as Hb.
  rewrite E in Ha. congruence.
Qed.

Ltac byte_bounds :=
  repeat match goal with
    | a : Byte.byte |- _ =>
        lazymatch goal with
        | _ : (Byte.to_N a <= 255)%N |- _ => fail
        | _ => pose proof (Byte.to_N_bounded a)
        end
    end.

Ltac div_lia := zify; Z.to_euclidean_division_equations; lia.

Lemma pack16 (a b a' b' : N) :
  (b < 16 → b' < 16 → a * 16 + b = a' * 16 + b' → a = a' ∧ b = b')%N.
Proof. lia. Qed.

Lemma pack4 (a b a' b' : N) :
  (b < 4 → b' < 4 → a * 4 + b = a' * 4 + b' → a = a' ∧ b = b')%N.
Proof. lia. Qed.

Lemma sextets_inj (x y z x' y' z' : N) :
  (x <= 255 → y <= 255 → z <= 255 → x' <= 255 → y' <= 255 → z' <= 255 →
   x / 4 = x' / 4 →
   x mod 4 * 16 + y / 16 = x' mod 4 * 16 + y' / 16 →
   y mod 16 * 4 + z / 64 = y' mod 16 * 4 + z' / 64 →
   z mod 64 = z' mod 64 →
   x = x' ∧ y = y' ∧ z = z')%N.
Proof.
  intros Hx Hy Hz Hx' Hy' Hz' E1 E2 E3 E4.
  apply pack16 in E2 as [A1 A2];
    [|apply N.Div0.div_lt_upper_bound; lia|apply N.Div0.div_lt_upper_bound; lia].
  apply pack4 in E3 as [A3 A4];
    [|apply N.Div0.div_lt_upper_bound; lia|apply N.Div0.div_lt_upper_bound; lia].
  rewrite (N.div_mod x 4), (N.div_mod x' 4), (N.div_mod y 16), (N.div_mod y' 16),
    (N.div_mod z 64), (N.div_mod z' 64) by done.
  by rewrite E1, A1, A2, A3, A4, E4.
Qed.

Lemma encode_cons3 a b c r :
  Base64.encode (a :: b :: c :: r)
  = (let x := Byte.to_N a in
     let y := Byte.to_N b in
     let z := Byte.to_N c in
     String (Base64.digit (x / 4)) (String (Base64.digit (x mod 4 * 16 + y / 16))
       (String (Base64.digit (y mod 16 * 4 + z / 64)) (String (Base64.digit (z mod 64))
         (Base64.encode r)))))%N.
Proof. reflexivity. Qed.

Section Base64_facts.

#[local] Arguments Base64.digit : simpl never.

(** The Base64 of the bytes determines the bytes. *)
Lemma encode_inj (a b : list Byte.byte) :
  Base64.encode a = Base64.encode b → a = b.
Proof.
  revert b. induction a as [|x|x y|x y z r IH] using list_ind3;
    intros [|x' [|y' [|z' r']]] E; try discriminate E; try reflexivity.
  all: cbn [Base64.encode] in E; cbn zeta in E.
  all: byte_bounds.
  all: injection E; clear E; intros.
  all: try (exfalso;
            match goal with
            | H : Base64.pad = Base64.digit _ |- _ =>
                symmetry in H; apply digit_not_pad in H; [done|div_lia]
            | H : Base64.digit _ = Base64.pad |- _ =>
                apply digit_not_pad in H; [done|div_lia]
            end).
  all: repeat match goal with
         | H : Base64.digit _ = Base64.digit _ |- _ =>
             apply digit_inj in H; [|div_lia..]
         end.
  - f_equal. apply to_N_inj. div_lia.
  - destruct (sextets_inj (Byte.to_N x) (Byte.to_N y) 0 (Byte.to_N x') (Byte.to_N y') 0)
      as (A & B & _); try done.
    { by rewrite !N.add_0_r. }
    apply to_N_inj in A, B. by subst.
  - destruct (sextets_inj (Byte.to_N x) (Byte.to_N y) (Byte.to_N z)
                (Byte.to_N x') (Byte.to_N y') (Byte.to_N z'))
      as (A & B & C); try done.
    apply to_N_inj in A, B, C. subst. do 3 f_equal. by apply IH.
Qed.

End Base64_facts.

(** ** The part that [urlToInlineData] returns *)

Lemma mime_of_image (ct : option string) (url : string) :
  Str.startsWith "image/" (mime_of ct url) = true.
Proof.
  unfold mime_of. destruct (Str.startsWith "image/" (default "" ct)) eqn:E; [done|].
  cbn [negb].
  by repeat match goal with |- context [if ?b then _ else _] => destruct b end.
Qed.

Lemma digit_in_alphabet (n : N) :
  Base64.digit n ∈ Base64.alphabet ∨ Base64.digit n = Base64.pad.
Proof.
  unfold Base64.digit.
  destruct (nth_in_or_default (N.to_nat n) Base64.alphabet Base64.pad) as [H|H].
  - left. by apply list_elem_of_In.
  - by right.
Qed.

Lemma encode_alphabet (bs : list Byte.byte) :
  Forall (λ c, c ∈ Base64.alphabet ∨ c = Base64.pad)
         (String.list_ascii_of_string (Base64.encode bs)).
Proof.
  induction bs as [|a|a b|a b c r IH] using list_ind3.
  - constructor.
  - cbn [Base64.encode String.list_ascii_of_string].
    repeat (constructor; [first [apply digit_in_alphabet | by right]|]). constructor.
  - cbn [Base64.encode String.list_ascii_of_string].
    repeat (constructor; [first [apply digit_in_alphabet | by right]|]). constructor.
  - rewrite encode_cons3. cbn [String.list_ascii_of_string].
    repeat (constructor; [apply digit_in_alphabet|]). done.
Qed.

(** X3.  The part that [urlToInlineData] returns is never empty and always
    typed as an image: its data is the Base64 of at least 20 bytes, so it
    has four characters for every three bytes, rounded up, at least 28,
    all of the Base64 alphabet or the padding; its MIME type starts with
    `image/`. *)
Theorem urlToInlineData_part_shape env url w part w' :
  urlToInlineData env url w = (Return part, w') →
  ∃ d m bytes,
    part = PInline {| data := d; mimeType := m |}
    ∧ d = Base64.encode bytes
    ∧ (20 ≤ length bytes)%nat
    ∧ String.length d = (4 * ((length bytes + 2) / 3))%nat
    ∧ (28 ≤ String.length d)%nat
    ∧ Forall (λ c, c ∈ Base64.alphabet ∨ c = Base64.pad) (String.list_ascii_of_string d)
    ∧ Str.startsWith "image/" m = true.
Proof.
  intros (res & bytes & _ & _ & _ & L & -> & _)%urlToInlineData_Return.
  exists (Base64.encode bytes), (mime_of (res_content_type res) url), bytes.
  split; [done|]. split; [done|]. split; [done|].
  split; [apply encode_length|]. split.
  - rewrite encode_length.
    assert (7 ≤ (length bytes + 2) / 3)%nat; [|lia].
    apply Nat.div_le_lower_bound; lia.
  - split; [apply encode_alphabet | apply mime_of_image].
Qed.

(** ** Base64 loses nothing *)

(** X4.  `Buffer.from(bytes).toString("base64")` loses nothing: two
    sequences of bytes with the same encoding are equal.  So the part that
    goes to the model and the payload that goes to the image host determine
    the bytes of the image.  The encoding of [n] bytes has [4 * ceil(n/3)]
    characters. *)
Theorem Base64_encode_lossless :
  (∀ a b : list Byte.byte, Base64.encode a = Base64.encode b → a = b)
  ∧ (∀ url res bytes url' res' bytes',
       inline_part url res bytes = inline_part url' res' bytes' → bytes = bytes')
  ∧ (∀ bytes t bytes' t',
       product_upload bytes t = product_upload bytes' t' → bytes = bytes')
  ∧ (∀ bs : list Byte.byte,
       String.length (Base64.encode bs) = (4 * ((length bs + 2) / 3))%nat).
Proof.
  split; [apply encode_inj|]. split; [|split; [|apply encode_length]].
  - intros url res bytes url' res' bytes' [= E _]. by apply encode_inj.
  - intros bytes t bytes' t' [= E _]. by apply encode_inj.
Qed.

(** ** The text that starts with a brace *)

Lemma top_char_grows ts c st1 :
  top_char ts c = Some st1 → ∃ pre, st1.1 = pre ++ ts.
Proof.
  unfold top_char. destruct (is_ws c); [intros [= <-]; by exists []|].
  destruct (punctuation c) as [p|]; [intros [= <-]; by exists [p]|].
  destruct (Ascii.eqb c _); [intros [= <-]; by exists []|].
  destruct (is_word_char c); [intros [= <-]; by exists []|done].
Qed.

Lemma lex_char_grows st c st1 :
  lex_char st c = Some st1 → ∃ pre, st1.1 = pre ++ st.1.
Proof.
  destruct st as [ts m]. unfold lex_char. destruct m as [|w|u|u|u k code].
  - apply top_char_grows.
  - destruct (is_word_char c); [intros [= <-]; by exists []|].
    destruct (word_token w) as [t|]; [|done]. cbn.
    intros [pre ->]%top_char_grows. exists (pre ++ [t]). by rewrite <- app_assoc.
  - destruct (Ascii.eqb c _); [intros [= <-]; by eexists [_]|].
    destruct (Ascii.eqb c _); [intros [= <-]; by exists []|].
    destruct (_ <? _)%N; [done|]. intros [= <-]. by exists [].
  - destruct (Ascii.eqb c _); [intros [= <-]; by exists []|].
    destruct (escape c); [|done]. cbn. intros [= <-]. by exists [].
  - destruct (hex_digit c); [|done]. cbn.
    destruct (k =? 3)%nat; intros [= <-]; by exists [].
Qed.

Lemma lex_run_grows s st st1 :
  lex_run st s = Some st1 → ∃ pre, st1.1 = pre ++ st.1.
Proof.
  revert st. induction s as [|c s IH]; intros st; cbn.
  - intros [= <-]. by exists [].
  - destruct (lex_char st c) as [st'|] eqn:E; [|done]. cbn.
    intros [pre ->]%IH. apply lex_char_grows in E as [pre' ->].
    exists (pre ++ pre'). by rewrite app_assoc.
Qed.

Lemma lex_open_brace (s : string) (toks : list token) :
  lex (String "{" s) = Some toks → head toks = Some TLBrace.
Proof.
  change (lex (String "{" s)) with (lex_run ([TLBrace], Top) s ≫= lex_end).
  destruct (lex_run ([TLBrace], Top) s) as [[ts m]|] eqn:R; [|done].
  apply lex_run_grows in R as [pre E]. cbn [fst] in E. subst ts.
  cbn [mbind option_bind]. unfold lex_end.
  destruct m as [|w| | |]; try done.
  - intros [= <-]. by rewrite head_reverse, last_snoc.
  - destruct (word_token w) as [t|]; [|done]. cbn [mbind option_bind]. intros [= <-].
    rewrite head_reverse. change (t :: pre ++ [TLBrace]) with ((t :: pre) ++ [TLBrace]).
    by rewrite last_snoc.
Qed.

Lemma parse_members_object (n : nat) :
  ∀ ts acc v r, parse_members n ts acc = Some (v, r) → is_object v = true.
Proof.
  induction n as [|n IH]; [done|]. intros ts acc v r H. cbn in H.
  destruct ts as [|[] [|[] ts]]; try done.
  destruct (parse_value n ts) as [[v0 [|[] r0]]|]; try done.
  - by injection H as <- <-.
  - by apply IH in H.
Qed.

Lemma parse_open_brace (s : string) (v : value) :
  parse (String "{" s) = Some v → is_object v = true.
Proof.
  unfold parse. destruct (lex _) as [toks|] eqn:L; [|done]. cbn.
  apply lex_open_brace in L. destruct toks as [|t toks]; [done|].
  injection L as ->. unfold parse_tokens.
  destruct (parse_value _ _) as [[v0 r]|] eqn:P; [|done].
  destruct r; [|done]. intros [= ->]. cbn in P.
  destruct toks as [|t toks]; [done|].
  destruct t; try (by apply parse_members_object in P).
  by injection P as <- _.
Qed.

(** ** The regular expression of [extractJson] *)

Section Braces_more.

#[local] Arguments Ascii.eqb : simpl never.

Lemma upto_last_close_includes (r : string) :
  Str.upto_last_close r = None → Str.includes "}" r = false.
Proof.
  induction r as [|d r IH]; [done|]. simpl.
  destruct (Str.upto_last_close r); [done|].
  destruct (Ascii.eqb d "}") eqn:D; [done|]. intros _.
  rewrite IH by done. by rewrite Ascii.eqb_sym, D.
Qed.

Lemma upto_last_close_split (r m : string) :
  Str.upto_last_close r = Some m →
  ∃ init post, m = init +:+ "}" ∧ r = m +:+ post ∧ Str.includes "}" post = false.
Proof.
  revert m. induction r as [|c r IH]; [done|]. intros m. simpl.
  destruct (Str.upto_last_close r) as [m'|] eqn:E.
  - intros [= <-]. destruct (IH m' eq_refl) as (init & post & -> & Er & Hp).
    exists (String c init), post. rewrite !app_cons_s. by rewrite Er at 1.
  - destruct (Ascii.eqb c "}") eqn:C; [|done]. intros [= <-].
    apply Ascii.eqb_eq in C as ->. exists "", r. split; [done|]. split; [done|].
    by apply upto_last_close_includes.
Qed.

Lemma from_first_open_split (s r : string) :
  Str.from_first_open s = Some r →
  ∃ pre rest, s = pre +:+ r ∧ r = String "{" rest ∧ Str.includes "{" pre = false.
Proof.
  induction s as [|c s IH]; [done|]. simpl.
  destruct (Ascii.eqb c "{") eqn:C.
  - intros [= <-]. apply Ascii.eqb_eq in C as ->. by exists "", s.
  - intros (pre & rest & -> & -> & H)%IH. exists (String c pre), rest.
    split; [done|]. split; [done|]. simpl. by rewrite Ascii.eqb_sym, C, H.
Qed.

Lemma match_braces_Some (text m : string) :
  Str.match_braces text = Some m →
  ∃ pre inner post,
    text = pre +:+ m +:+ post
    ∧ m = "{" +:+ inner +:+ "}"
    ∧ Str.includes "{" pre = false
    ∧ Str.includes "}" post = false.
Proof.
  unfold Str.match_braces.
  destruct (Str.from_first_open text) as [r|] eqn:F; [|done].
  cbn [mbind option_bind].
  apply from_first_open_split in F as (pre & rest & -> & -> & Hpre).
  intros (init & post & -> & Er & Hpost)%upto_last_close_split.
  destruct init as [|c init]; [done|].
  rewrite app_cons_s in Er. injection Er as <- Er.
  exists pre, init, post. rewrite app_cons_s, Er.
  repeat split; done.
Qed.

(** X5.  The regular expression `/\{[\s\S]*\}/` of [extractJson] matches
    the text from its first `{` to its last `}`: [m] is the match exactly
    when the text is [m] between a text without `{` and a text without
    `}`, and [m] starts with `{` and ends with `}`. *)
Theorem match_braces_spec (text m : string) :
  Str.match_braces text = Some m
  ↔ ∃ pre inner post,
      text = pre +:+ m +:+ post
      ∧ m = "{" +:+ inner +:+ "}"
      ∧ Str.includes "{" pre = false
      ∧ Str.includes "}" post = false.
Proof.
  split; [apply match_braces_Some|].
  intros (pre & inner & post & -> & -> & Hpre & Hpost).
  rewrite app_cons_s, app_nil_s.
  by apply (match_braces_app pre _ (String "{" inner)).
Qed.

End Braces_more.

(** ** What [extractJson] returns *)

(** X6.  What [extractJson] returns is the value of the whole text, of any
    kind (a number, an array, `null`: it need not be an object), or else,
    when the whole text is not JSON, the value of the text from the first
    `{` to the last `}`, which is always an object. *)
Theorem extractJson_returns (text : string) (v : value) :
  extractJson text = Return v →
  parse text = Some v
  ∨ (parse text = None
     ∧ is_object v = true
     ∧ ∃ pre inner post,
         text = pre +:+ ("{" +:+ inner +:+ "}") +:+ post
         ∧ Str.includes "{" pre = false
         ∧ Str.includes "}" post = false
         ∧ parse ("{" +:+ inner +:+ "}") = Some v).
Proof.
  unfold extractJson. destruct (parse text) as [v0|] eqn:P.
  - intros [= ->]. by left.
  - destruct (Str.match_braces text) as [m|] eqn:B; [|done].
    destruct (parse m) as [v1|] eqn:Pm; [|done]. intros [= ->]. right.
    apply match_braces_Some in B as (pre & inner & post & -> & -> & Hpre & Hpost).
    split; [done|]. split.
    + rewrite app_cons_s, app_nil_s in Pm. by apply parse_open_brace in Pm.
    + by exists pre, inner, post.
Qed.

(** A value that is not an object comes out of [extractJson] as it is. *)
Example extractJson_scalar :
  extractJson "42" = Return (JNumber "42")
  ∧ extractJson "[]" = Return (JArray [])
  ∧ extractJson "null" = Return JNull.
Proof. repeat split; reflexivity. Qed.

(** ** The text of the model, cleaned *)

(** X7.  The parsing step of lines 192-194 does not see the white space
    around the text of the model; a text that is absent or only white space
    fails with `No JSON found in model output`. *)
Theorem parse_output_white_space (ws1 ws2 t : string) :
  Str.blank ws1 = true →
  Str.blank ws2 = true →
  parse_output (Some (ws1 +:+ t +:+ ws2)) = parse_output (Some t)
  ∧ parse_output (Some ws1) = Throw (Error "No JSON found in model output")
  ∧ parse_output None = Throw (Error "No JSON found in model output").
Proof.
  intros B1 B2. unfold parse_output, clean_output.
  rewrite (trim_blank_around _ _ _ B1 B2). split; [done|]. split; [|done].
  unfold Str.trim. rewrite <- (app_empty_r ws1), (trimStart_blank _ _ B1). done.
Qed.

(** ** The image of the second answer *)

Lemma part_data_Some (p : AnswerPart) (d : string) :
  part_data p = Some d
  ↔ ∃ i, a_inlineData p = Some i ∧ a_data i = Some d ∧ d ≠ "".
Proof.
  unfold part_data. destruct (a_inlineData p) as [i|]; [|split; [done|by intros (? & ? & _)]].
  destruct (a_data i) as [x|] eqn:D.
  - destruct x as [|c x]; cbn.
    + split; [done|]. intros (i' & [= <-] & E & N). congruence.
    + split.
      * intros [= <-]. by exists i.
      * intros (i' & [= <-] & E & _). congruence.
  - split; [done|]. intros (i' & [= <-] & E & _). congruence.
Qed.

Lemma find_image_Some (ps : list AnswerPart) (d : string) :
  find_image ps = Some d
  ↔ ∃ pre p post,
      ps = pre ++ p :: post ∧ part_data p = Some d
      ∧ Forall (λ q, part_data q = None) pre.
Proof.
  induction ps as [|q ps IH]; cbn.
  - split; [done|]. intros (pre & p & post & E & _). by destruct pre.
  - destruct (part_data q) as [x|] eqn:Q.
    + split.
      * intros [= <-]. exists [], q, ps. by repeat split.
      * intros ([|q' pre] & p & post & E & P & F).
        -- injection E as <- _. congruence.
        -- injection E as <- _. apply Forall_cons in F as [F _]. congruence.
    + rewrite IH. split.
      * intros (pre & p & post & -> & P & F). exists (q :: pre), p, post.
        split; [done|]. split; [done|]. by constructor.
      * intros ([|q' pre] & p & post & E & P & F).
        -- injection E as <- _. congruence.
        -- injection E as <- ->. apply Forall_cons in F as [_ F].
           by exists pre, p, post.
Qed.

(** X8.  Lines 215-217: the image taken from the second answer is the data
    of the first part, among the parts of the first candidate, whose
    `inlineData.data` is a non-empty string; the parts before it carry none,
    and the other candidates are not looked at. *)
Theorem find_image_spec (resp : GenerateResponse) (d : string) :
  find_image (content_parts resp) = Some d
  ↔ ∃ c cs k pre p post i,
      g_candidates resp = Some (c :: cs)
      ∧ c_content c = Some k
      ∧ a_parts k = Some (pre ++ p :: post)
      ∧ a_inlineData p = Some i ∧ a_data i = Some d ∧ d ≠ ""
      ∧ Forall (λ q, part_data q = None) pre.
Proof.
  rewrite find_image_Some. unfold content_parts. split.
  - intros (pre & p & post & E & (i & Hi & Hd & N)%part_data_Some & F).
    destruct (g_candidates resp) as [[|c cs]|]; cbn in E; try (by destruct pre).
    destruct (c_content c) as [k|] eqn:Hk; [|by destruct pre].
    destruct (a_parts k) as [ps|] eqn:Hp; cbn in E; [|by destruct pre]. subst ps.
    exists c, cs, k, pre, p, post, i. by repeat (split; [done|]).
  - intros (c & cs & k & pre & p & post & i & -> & Hk & Hp & Hi & Hd & N & F).
    cbn. rewrite Hk, Hp. cbn. exists pre, p, post. split; [done|].
    split; [|done]. apply part_data_Some. by exists i.
Qed.

(** ** The job of a request *)

Lemma intake_Return_world env form w docId w0 :
  intake env form w = (Return docId, w0) →
  docId = job_id env form w
  ∧ query (store w) "users" "email" (field_value (Form.userEmail form)) ≠ []
  ∧ w0 = commit (<[("user-ads", docId) := pending_record form docId]> (store w))
           (EvSetDoc "user-ads" docId (pending_record form docId) None)
           (after_lookup form w).
Proof.
  unfold intake, getDocs, setDoc, now, bind, ret, throw, job_id, after_lookup.
  cbn beta iota zeta.
  destruct (store_rejects env w _) as [e|]; [done|].
  destruct (query _ _ _ _) as [|userDoc docs] eqn:Q; [done|]. cbn [head].
  destruct (store_rejects env _ _) as [e|]; [done|].
  intros [= <- <-]. done.
Qed.

(** How a run of the handler leaves the document of its job. *)
Lemma POST_outcome env form w r w' :
  POST env form w = (r, w') →
  (∃ e, r = Throw e ∧ intake env form w = (Throw e, w') ∧ store w' = store w)
  ∨ ∃ w0,
      intake env form w = (Return (job_id env form w), w0)
      ∧ ((∃ u p itv,
            r = Return (NextResponse_json (JStr u))
            ∧ store w'
              = <[("user-ads", job_id env form w) :=
                    completed_record form (job_id env form w) u p itv]> (store w))
         ∨ (r = Return (NextResponse_json error_payload)
            ∧ store w' = delete ("user-ads", job_id env form w) (store w))
         ∨ (∃ e, r = Throw e
              ∧ store w'
                = <[("user-ads", job_id env form w) :=
                      pending_record form (job_id env form w)]> (store w))).
Proof.
  intros H. apply POST_run in H
    as [(e & I & ->)|(docId & w0 & r1 & w1 & I & T & H)].
  - left. exists e. destruct (intake_Throw _ _ _ _ _ I) as (S & _). done.
  - right. destruct (intake_Return_world _ _ _ _ _ I) as (-> & _ & _).
    exists w0. split; [done|].
    destruct (intake_Return _ _ _ _ _ I) as (S0 & _).
    destruct (try_block_store _ _ _ _ _ _ T) as (evs1 & _ & W1).
    destruct H as [(resp & -> & -> & ->)|(e & -> & C)].
    + destruct W1 as [(e & ? & _)|(u & p & itv & E & _ & _ & S1)]; [done|].
      injection E as ->. left. exists u, p, itv. split; [done|].
      by rewrite S1, S0, alter_insert_eq.
    + destruct W1 as [(e' & _ & S1 & _)|(u & p & itv & ? & _)]; [|done].
      destruct (catch_block_run _ _ _ _ _ _ C) as (evs2 & _ & _ & D).
      right. destruct (store_rejects env w1 _) as [e''|]; destruct D as (-> & S2 & _).
      * right. exists e''. split; [done|]. by rewrite S2, S1, S0.
      * left. split; [done|]. by rewrite S2, S1, S0, delete_insert_eq.
Qed.

(** X9.  The identifier of a job is the decimal form of the clock, read
    after the user lookup.  `setDoc` writes the pending record under that
    key, whatever was stored there, and leaves every other document as it
    was.  Two jobs have the same identifier exactly when their requests read
    the same value of the clock. *)
Theorem job_id_is_timestamp env form w docId w0 :
  intake env form w = (Return docId, w0) →
  docId = pretty (Date_now env (after_lookup form w))
  ∧ trace w0
    = trace (after_lookup form w)
      ++ [EvSetDoc "user-ads" docId (pending_record form docId) None]
  ∧ store w0 !! ("user-ads", docId) = Some (pending_record form docId)
  ∧ pending_record form docId !! "docId" = Some (JStr docId)
  ∧ (∀ k, k ≠ ("user-ads", docId) → store w0 !! k = store w !! k)
  ∧ (∀ form2 w2 docId2 w3,
       intake env form2 w2 = (Return docId2, w3) →
       docId2 = docId
       ↔ Date_now env (after_lookup form2 w2) = Date_now env (after_lookup form w)).
Proof.
  intros I. destruct (intake_Return_world _ _ _ _ _ I) as (E & _ & ->).
  split; [done|]. split; [done|]. cbn [store commit].
  split; [by rewrite lookup_insert_eq|].
  split; [by destruct (pending_record_fields form docId) as (_ & ? & _)|].
  split; [intros k Hk; by rewrite lookup_insert_ne|].
  intros form2 w2 docId2 w3 I2.
  destruct (intake_Return_world _ _ _ _ _ I2) as (-> & _ & _). subst docId.
  unfold job_id. split; [apply (inj pretty) | by intros ->].
Qed.

(** X10.  The identifiers are not unique.  When a request reads the clock
    value that an earlier, successful request has read, it works on the
    record of that request: if it succeeds the record becomes its own, and
    if it fails the completed record of the earlier request is deleted. *)
Theorem same_timestamp_collision env form1 form2 w u w1 r2 w2 :
  POST env form1 w = (Return (NextResponse_json (JStr u)), w1) →
  POST env form2 w1 = (r2, w2) →
  Date_now env (after_lookup form2 w1) = Date_now env (after_lookup form1 w) →
  (∃ p itv,
     store w1 !! ("user-ads", job_id env form1 w)
     = Some (completed_record form1 (job_id env form1 w) u p itv))
  ∧ (r2 = Return (NextResponse_json error_payload) →
     store w2 !! ("user-ads", job_id env form1 w) = None)
  ∧ (∀ u2, r2 = Return (NextResponse_json (JStr u2)) →
       ∃ p itv,
         store w2 !! ("user-ads", job_id env form1 w)
         = Some (completed_record form2 (job_id env form1 w) u2 p itv)).
Proof.
  intros H1 H2 Hclock.
  assert (job_id env form2 w1 = job_id env form1 w) as J
    by (unfold job_id; by rewrite Hclock).
  apply POST_outcome in H1
    as [(e & ? & _)|(w0 & _ & [(u' & p & itv & E & S1)|[(E & _)|(e & ? & _)]])];
    try done.
  injection E as E%units_inj. subst u'.
  split; [exists p, itv; by rewrite S1, lookup_insert_eq|].
  apply POST_outcome in H2
    as [(e & -> & _)|(w0' & _ & [(u2 & p2 & itv2 & -> & S2)|[(-> & S2)|(e & -> & _)]])];
    try done.
  - split; [done|].
    intros u2' [= E%units_inj]. subst u2'. exists p2, itv2.
    by rewrite S2, J, lookup_insert_eq.
  - split; [|done]. intros _. by rewrite S2, J, lookup_delete_eq.
Qed.

Lemma completed_record_keys form docId u p itv k :
  is_Some (completed_record form docId u p itv !! k) → k ∈ record_fields.
Proof.
  intros [v Hk]. destruct (decide (k ∈ record_fields)) as [|N]; [done|]. exfalso.
  unfold record_fields in N. rewrite !not_elem_of_cons in N.
  destruct N as (N1 & N2 & N3 & N4 & N5 & N6 & N7 & N8 & _).
  unfold completed_record, completed_fields, defined_fields, pending_record in Hk.
  apply lookup_union_Some_raw in Hk as [Hk|[_ Hk]].
  - destruct itv; cbn [foldr fst snd] in Hk;
      rewrite ?lookup_insert_ne, ?lookup_empty in Hk by done; done.
  - rewrite ?lookup_insert_ne, ?lookup_singleton_ne in Hk by done. done.
Qed.

(** X11.  `updateDoc` merges: after a successful run the job record still
    has the fields of intake, `docId`, `userEmail`, `description` and `size`
    (a field absent from the form is stored as `null`), next to `status`,
    `finalProductImageUrl`, `productImageUrl` and `imageToVideoPrompt`, and
    it has no other field. *)
Theorem success_keeps_intake_fields env form w u w' :
  POST env form w = (Return (NextResponse_json (JStr u)), w') →
  ∃ doc,
    store w' !! ("user-ads", job_id env form w) = Some doc
    ∧ doc !! "docId" = Some (JStr (job_id env form w))
    ∧ doc !! "userEmail" = Some (field_value (Form.userEmail form))
    ∧ doc !! "description" = Some (field_value (Form.description form))
    ∧ doc !! "size" = Some (field_value (Form.size form))
    ∧ doc !! "status" = Some (JStr "completed")
    ∧ doc !! "finalProductImageUrl" = Some (JStr u)
    ∧ is_Some (doc !! "productImageUrl")
    ∧ (∀ k, is_Some (doc !! k) → k ∈ record_fields).
Proof.
  intros H. apply POST_outcome in H
    as [(e & ? & _)|(w0 & _ & [(u' & p & itv & E & S)|[(E & _)|(e & ? & _)]])];
    try done.
  injection E as E%units_inj. subst u'.
  exists (completed_record form (job_id env form w) u p itv).
  split; [by rewrite S, lookup_insert_eq|].
  destruct (completed_record_fields form (job_id env form w) u p itv)
    as (F1 & F2 & F3 & F4 & F5 & F6 & F7 & F8).
  split; [done|]. split; [done|]. split; [done|]. split; [done|].
  split; [done|]. split; [done|]. split; [by rewrite F3|].
  intros k. apply completed_record_keys.
Qed.

(** ** A request without an image *)

(** X12.  A request with neither a file nor an `imageUrl` (absent or
    empty): the job record is created, `file.arrayBuffer()` throws the
    `TypeError` of reading a property of `null` before any call to the
    image host, to `fetch` or to the model, and the cleanup deletes the
    record and answers the payload of the failures. *)
Theorem no_file_no_url env form w docId w0 :
  intake env form w = (Return docId, w0) →
  Form.file form = None →
  imageUrl_given (Form.imageUrl form) = false →
  let e := TypeError "Cannot read properties of null (reading 'arrayBuffer')" in
  try_block env form docId w0 = (Throw e, w0)
  ∧ match store_rejects env w0 (CallDeleteDoc "user-ads" docId) with
    | None =>
        ∃ w2, POST env form w = (Return (NextResponse_json error_payload), w2)
          ∧ trace w2
            = trace w0 ++ [EvDeleteDoc "user-ads" docId None; EvLog [LogError e]]
          ∧ store w2 = delete ("user-ads", docId) (store w)
    | Some e' =>
        ∃ w2, POST env form w = (Throw e', w2)
          ∧ trace w2 = trace w0 ++ [EvDeleteDoc "user-ads" docId (Some e')]
          ∧ store w2 = store w0
    end.
Proof.
  intros I F U e.
  assert (try_block env form docId w0 = (Throw e, w0)) as T.
  { unfold try_block, normalize_asset, bind. rewrite U, F. reflexivity. }
  split; [done|].
  rewrite (POST_failure _ _ _ _ _ _ _ I T).
  destruct (intake_Return _ _ _ _ _ I) as (S0 & _).
  unfold catch_block, deleteDoc, console_log, bind, ret.
  destruct (store_rejects env w0 _) as [e'|].
  - eexists. split; [reflexivity|]. done.
  - eexists. split; [reflexivity|]. cbn [trace store commit log_event].
    split; [by rewrite <- app_assoc|]. by rewrite S0, delete_insert_eq.
Qed.

(** ** The calls of a run *)

Lemma quiet_no_upload evs o a : Forall quiet_event evs → EvUpload o a ∉ evs.
Proof. intros Q Hin. by apply (proj1 (Forall_forall _ _) Q) in Hin. Qed.

Lemma quiet_no_generate evs q a : Forall quiet_event evs → EvGenerate q a ∉ evs.
Proof. intros Q Hin. by apply (proj1 (Forall_forall _ _) Q) in Hin. Qed.

Lemma quiet_no_fetch evs u a : Forall quiet_event evs → EvFetch u a ∉ evs.
Proof. intros Q Hin. by apply (proj1 (Forall_forall _ _) Q) in Hin. Qed.

Lemma quiet_fetches evs : Forall quiet_event evs → fetches evs = [].
Proof.
  induction 1 as [|ev evs Q _ IH]; [done|].
  unfold fetches in *. cbn. rewrite IH. by destruct ev.
Qed.

Lemma fetches_app evs evs' : fetches (evs ++ evs') = fetches evs ++ fetches evs'.
Proof. apply omap_app. Qed.

Lemma update_in_writes evs c i f r :
  EvUpdateDoc c i f r ∈ evs → EvUpdateDoc c i f r ∈ store_writes evs.
Proof. intros Hin. apply list_elem_of_omap. by exists (EvUpdateDoc c i f r). Qed.

Lemma upload_in_uploads evs o a : EvUpload o a ∈ evs → o ∈ uploads evs.
Proof. intros Hin. apply list_elem_of_omap. by exists (EvUpload o a). Qed.

Lemma app_inv_head_s (a b c : string) : a +:+ b = a +:+ c → b = c.
Proof.
  induction a as [|x a IH]; [by rewrite !app_nil_s|].
  rewrite !app_cons_s. intros [= E]. by apply IH.
Qed.

Lemma creative_upload_inj g t g' t' :
  creative_upload g t = creative_upload g' t' → g = g'.
Proof. intros [= E _]. by apply app_inv_head_s in E. Qed.

Lemma creative_not_product g t bytes t0 :
  creative_upload g t ≠ product_upload bytes t0.
Proof. intros [= E _]. symmetry in E. by apply encode_not_data_url in E. Qed.

Lemma truthy_encode (bs : list Byte.byte) :
  Str.truthy (Base64.encode bs) = match bs with [] => false | _ :: _ => true end.
Proof. by destruct bs as [|a [|b [|c r]]]. Qed.

Lemma catch_block_Return env docId e w1 resp w2 :
  catch_block env docId e w1 = (Return resp, w2) →
  resp = NextResponse_json error_payload
  ∧ trace w2 = trace w1 ++ [EvDeleteDoc "user-ads" docId None; EvLog [LogError e]]
  ∧ store w2 = delete ("user-ads", docId) (store w1).
Proof.
  unfold catch_block, deleteDoc, console_log, bind, ret.
  destruct (store_rejects env w1 _) as [e'|]; [done|].
  intros [= <- <-]. cbn [trace store commit log_event].
  by rewrite <- app_assoc.
Qed.

(** A run that returns the payload of the failures has logged the exception
    of its `try` block. *)
Lemma POST_error_logged env form w w' docId w0 e w1 evs :
  intake env form w = (Return docId, w0) →
  try_block env form docId w0 = (Throw e, w1) →
  POST env form w = (Return (NextResponse_json error_payload), w') →
  trace w' = trace w ++ evs →
  EvLog [LogError e] ∈ evs.
Proof.
  intros I T H Tr. rewrite (POST_failure _ _ _ _ _ _ _ I T) in H.
  apply catch_block_Return in H as (_ & T2 & _).
  destruct (intake_Return _ _ _ _ _ I) as (_ & evs0 & T0 & _).
  destruct (try_block_store _ _ _ _ _ _ T) as (evs1 & T1 & _).
  rewrite T2, T1, T0, <- !app_assoc in Tr. apply app_inv_head in Tr as <-.
  rewrite !elem_of_app, !elem_of_cons. tauto.
Qed.

(** X13.  The calls of a successful run, in order: the user lookup, the
    creation of the record, the product image (one fetch of the `imageUrl`;
    or one upload of the file, followed by a fetch of the uploaded URL only
    when the file is empty), the first request to the model, the log of the
    parsed answer, the fetch of the avatar when there is one, the second
    request, whose text is the `textToImage` of the parsed answer (or
    `undefined`), the upload of the generated image, and the update of the
    record.  Nothing else is called, and nothing twice. *)
Theorem success_calls_in_order env form w u w' :
  POST env form w = (Return (NextResponse_json (JStr u)), w') →
  ∃ users docId product p part answer json avatar_fetch more resp2 g t a itv,
    trace w'
    = trace w
      ++ [EvGetDocs "users" "email" (field_value (Form.userEmail form)) (Return users);
          EvSetDoc "user-ads" docId (pending_record form docId) None]
      ++ product
      ++ [EvGenerate
            (first_request
               (if avatar_given (Form.avatar form) then AVATAR_PROMPT else PROMPT)
               part)
            (Return answer);
          EvLog [LogValue (JStr "JSON"); LogValue json]]
      ++ avatar_fetch
      ++ [EvGenerate (second_request (member "textToImage" json) part more)
            (Return resp2);
          EvUpload (creative_upload g t) (Return a);
          EvUpdateDoc "user-ads" docId (completed_fields u p itv) None]
    ∧ users ≠ []
    ∧ up_url a = u
    ∧ parse_output (g_text answer) = Return json
    ∧ find_image (content_parts resp2) = Some g
    ∧ itv = member "imageToVideo" json
    ∧ (if imageUrl_given (Form.imageUrl form)
       then Form.imageUrl form = Some p
            ∧ ∃ res, product = [EvFetch p (Return res)]
       else ∃ f t0 a0,
              Form.file form = Some f ∧ p = up_url a0
              ∧ match file_bytes f with
                | _ :: _ =>
                    product = [EvUpload (product_upload (file_bytes f) t0) (Return a0)]
                | [] =>
                    ∃ res,
                      product = [EvUpload (product_upload (file_bytes f) t0) (Return a0);
                                 EvFetch p (Return res)]
                end)
    ∧ (if avatar_given (Form.avatar form)
       then ∃ url res bytes,
              Form.avatar form = Some url
              ∧ avatar_fetch = [EvFetch url (Return res)]
              ∧ more = [inline_part url res bytes]
       else avatar_fetch = [] ∧ more = []).
Proof.
  intros H. apply POST_run in H
    as [(e & _ & ?)|(docId & w0 & r1 & w1 & I & T
                     & [(resp & -> & E & ->)|(e & -> & C)])]; [done| |].
  2: { apply catch_block_run in C as (evs & _ & _ & C).
       destruct (store_rejects env w1 _); destruct C as (E & _); [done|].
       injection E as E. by destruct (error_payload_not_string u). }
  injection E as <-.
  destruct (intake_Return_world _ _ _ _ _ I) as (_ & Q & ->).
  apply try_block_success_trace in T
    as (product & p & part & answer & json & avatar_fetch & more & resp2 & g & t
        & a & itv & Hp & Ha & Tr & E & Pj & Fi & Gi & _).
  injection E as E%units_inj. subst u.
  eexists _, docId, product, p, part, answer, json, avatar_fetch, more, resp2, g, t, a, itv.
  split.
  { rewrite Tr. unfold after_lookup, commit, log_event. cbn [trace].
    by rewrite <- !app_assoc. }
  split; [done|]. split; [done|]. split; [done|]. split; [done|].
  split; [by apply get_imageToVideo_Return|].
  split.
  - destruct (imageUrl_given (Form.imageUrl form)) eqn:G.
    + destruct Hp as (-> & res & bytes & -> & _).
      apply imageUrl_given_spec in G as (x & -> & _). split; [done|]. by exists res.
    + destruct Hp as (f & t0 & a0 & F & -> & Hp). exists f, t0, a0.
      split; [done|]. split; [done|].
      rewrite truthy_encode in Hp. destruct (file_bytes f).
      * destruct Hp as (res & bytes & -> & _). by exists res.
      * by destruct Hp as (-> & _).
  - destruct (avatar_given (Form.avatar form)) eqn:G; [|done].
    destruct Ha as (res & bytes & -> & -> & _).
    apply avatar_given_spec in G as (x & -> & _). by exists x, res, bytes.
Qed.

(** X14.  The product image that the model receives.  With an `imageUrl`,
    it is what [urlToInlineData] made of the one fetch of that URL.  With a
    file that is not empty, it is the Base64 of the bytes of the file, typed
    by `file.type`, or `image/png` when that is empty, and nothing is
    fetched before the first request.  With an empty file, the handler
    fetches the URL that the image host gave to the upload. *)
Theorem product_image_sent env form w r w' :
  POST env form w = (r, w') →
  ∃ evs, trace w' = trace w ++ evs
    ∧ ∀ req, head (generations evs) = Some req →
        ∃ part,
          req = first_request
                  (if avatar_given (Form.avatar form) then AVATAR_PROMPT else PROMPT)
                  part
          ∧ if imageUrl_given (Form.imageUrl form)
            then ∃ url res bytes,
                   Form.imageUrl form = Some url
                   ∧ fetched_before_model evs = [(url, Return res)]
                   ∧ res_arrayBuffer res = Return bytes
                   ∧ part = inline_part url res bytes
            else ∃ f t0 a0,
                   Form.file form = Some f
                   ∧ EvUpload (product_upload (file_bytes f) t0) (Return a0) ∈ evs
                   ∧ match file_bytes f with
                     | _ :: _ =>
                         fetched_before_model evs = []
                         ∧ part = PInline
                                    {| data := Base64.encode (file_bytes f);
                                       mimeType := if Str.truthy (file_type f)
                                                   then file_type f
                                                   else "image/png" |}
                     | [] =>
                         ∃ res bytes,
                           fetched_before_model evs = [(up_url a0, Return res)]
                           ∧ res_arrayBuffer res = Return bytes
                           ∧ part = inline_part (up_url a0) res bytes
                     end.
Proof.
  intros H. apply POST_events in H
    as [(e & evs & _ & _ & T & Q)
       |(docId & w0 & r1 & w1 & evs0 & evs1 & evs2 & _ & B & _ & Q0 & T1 & T & Q2 & _)].
  - exists evs. split; [done|]. rewrite (quiet_generations _ Q). done.
  - exists (evs0 ++ evs1 ++ evs2). split; [done|].
    destruct (try_block_product_part _ _ _ _ _ _ B) as (evs & T1' & P).
    rewrite T1' in T1. apply app_inv_head in T1 as ->.
    rewrite !generations_app, (quiet_generations _ Q0), (quiet_generations _ Q2).
    rewrite app_nil_r. cbn [app].
    rewrite (quiet_fetched_l _ _ Q0), (quiet_fetched_r _ _ Q2).
    intros req Hreq. rewrite Hreq in P. destruct P as (part & -> & P).
    exists part. split; [done|].
    destruct (imageUrl_given (Form.imageUrl form)) eqn:G.
    + destruct P as (res & bytes & F & Hb & ->).
      apply imageUrl_given_spec in G as (x & E & _). rewrite E in *.
      by exists x, res, bytes.
    + destruct P as (f & t0 & a0 & F & Hh & P). exists f, t0, a0.
      split; [done|]. split.
      { rewrite !elem_of_app. right. left.
        destruct evs1 as [|ev evs1]; [done|]. injection Hh as ->. left. }
      rewrite truthy_encode in P. by destruct (file_bytes f).
Qed.

(** X15.  The image that is uploaded as the result is the first inline
    image of the second answer of the model ([find_image]), labelled
    `image/png`.  When that answer carries no image, nothing is uploaded as
    a result, the record is not updated, no URL is returned, and a run that
    answers the payload of the failures has logged the error `No image
    returned from Gemini`. *)
Theorem creative_is_first_inline_image env form w r w' :
  POST env form w = (r, w') →
  ∃ evs, trace w' = trace w ++ evs
    ∧ (∀ g t ans,
         EvUpload (creative_upload g t) ans ∈ evs →
         ∃ req resp2,
           EvGenerate req (Return resp2) ∈ evs
           ∧ model req = "gemini-2.5-flash-image"
           ∧ find_image (content_parts resp2) = Some g)
    ∧ (∀ req resp2,
         EvGenerate req (Return resp2) ∈ evs →
         model req = "gemini-2.5-flash-image" →
         find_image (content_parts resp2) = None →
         (∀ u, r ≠ Return (NextResponse_json (JStr u)))
         ∧ (∀ g t ans, EvUpload (creative_upload g t) ans ∉ evs)
         ∧ (∀ c id fields rej, EvUpdateDoc c id fields rej ∉ evs)
         ∧ (r = Return (NextResponse_json error_payload) →
            EvLog [LogError (Error "No image returned from Gemini")] ∈ evs)).
Proof.
  intros H. pose proof H as H0. apply POST_events in H
    as [(e & evs & _ & _ & T & Q)
       |(docId & w0 & r1 & w1 & evs0 & evs1 & evs2 & I & B & T0 & Q0 & T1 & T & Q2 & O)].
  - exists evs. split; [done|]. split.
    + intros g t ans Hin. by apply quiet_no_upload in Hin.
    + intros req resp2 Hin. by apply quiet_no_generate in Hin.
  - exists (evs0 ++ evs1 ++ evs2). split; [done|]. split.
    + intros g t ans Hin. rewrite !elem_of_app in Hin.
      destruct Hin as [Hin|[Hin|Hin]];
        [by apply quiet_no_upload in Hin| |by apply quiet_no_upload in Hin].
      destruct (try_block_upload_events _ _ _ _ _ _ B) as (evs & T1' & U).
      rewrite T1' in T1. apply app_inv_head in T1 as ->.
      destruct (U _ _ Hin) as [(f & t0 & _ & E)|(g' & t' & req & resp2 & E & Hg & M & Fi)].
      * by apply creative_not_product in E.
      * apply creative_upload_inj in E as <-. exists req, resp2.
        split; [|done]. rewrite !elem_of_app. tauto.
    + intros req resp2 Hin M Fi. rewrite !elem_of_app in Hin.
      destruct Hin as [Hin|[Hin|Hin]];
        [by apply quiet_no_generate in Hin| |by apply quiet_no_generate in Hin].
      destruct (try_block_answers _ _ _ _ _ _ B) as (evs & T1' & A).
      rewrite T1' in T1. apply app_inv_head in T1 as ->.
      destruct (A _ _ Hin) as [(M' & _)|(_ & A')]; [congruence|].
      rewrite Fi in A'. destruct A' as (-> & _ & W & U).
      destruct O as [(resp & ? & _)|(e & [= <-] & C & T2)]; [done|].
      apply catch_block_run in C as (evs2' & T2' & _ & C).
      rewrite T2' in T2. apply app_inv_head in T2 as ->.
      split; [|split; [|split]].
      * intros u ->. destruct (store_rejects env w1 _); destruct C as (E & _); [done|].
        injection E as E. by destruct (error_payload_not_string u).
      * intros g t ans Hu. rewrite !elem_of_app in Hu.
        destruct Hu as [Hu|[Hu|Hu]];
          [by apply quiet_no_upload in Hu| |by apply quiet_no_upload in Hu].
        apply upload_in_uploads in Hu.
        destruct U as [U|(bytes & t0 & U)]; rewrite U in Hu.
        -- by apply elem_of_nil in Hu.
        -- apply list_elem_of_singleton in Hu. by apply creative_not_product in Hu.
      * intros c id fields rej Hu. apply update_in_writes in Hu.
        rewrite !store_writes_app, W in Hu.
        destruct (intake_Return _ _ _ _ _ I) as (_ & evs0' & T0' & _ & W0).
        rewrite T0' in T0. apply app_inv_head in T0 as ->. rewrite W0 in Hu.
        destruct (store_rejects env w1 _); destruct C as (_ & _ & W2);
          rewrite W2 in Hu; cbn in Hu;
          rewrite !elem_of_cons in Hu; destruct Hu as [?|[?|?%elem_of_nil]]; done.
      * intros ->. by apply (POST_error_logged _ _ _ _ _ _ _ _ _ I B H0).
Qed.

(** X16.  A run succeeds only if the first answer of the model parses to a
    value other than `null`, and, unless the `db` handle ignores undefined
    properties, to one that has an `imageToVideo` member: `updateDoc`
    refuses an `undefined` field. *)
Theorem success_needs_imageToVideo env form w u w' :
  POST env form w = (Return (NextResponse_json (JStr u)), w') →
  ∃ evs, trace w' = trace w ++ evs
    ∧ ∀ req answer,
        EvGenerate req (Return answer) ∈ evs →
        model req = "gemini-2.0-flash" →
        ∃ json,
          parse_output (g_text answer) = Return json
          ∧ json ≠ JNull
          ∧ (ignoreUndefinedProperties env = false →
             is_Some (member "imageToVideo" json)).
Proof.
  intros H. apply POST_events in H
    as [(e & evs & _ & ? & _)
       |(docId & w0 & r1 & w1 & evs0 & evs1 & evs2 & I & B & T0 & Q0 & T1 & T & Q2 & O)];
    [done|].
  exists (evs0 ++ evs1 ++ evs2). split; [done|].
  destruct O as [(resp & -> & [= <-] & _ & _)|(e & -> & C & _)].
  2: { apply catch_block_run in C as (evs & _ & _ & C).
       destruct (store_rejects env w1 _); destruct C as (E & _); [done|].
       injection E as E. by destruct (error_payload_not_string u). }
  intros req answer Hin M. rewrite !elem_of_app in Hin.
  destruct Hin as [Hin|[Hin|Hin]];
    [by apply quiet_no_generate in Hin| |by apply quiet_no_generate in Hin].
  destruct (try_block_answers _ _ _ _ _ _ B) as (evs & T1' & A).
  rewrite T1' in T1. apply app_inv_head in T1 as ->.
  destruct (A _ _ Hin) as [(_ & A')|(M' & _)]; [|congruence].
  destruct (parse_output (g_text answer)) as [json|e]; [|by destruct A'].
  destruct (A' _ eq_refl) as (u' & p & itv & G & U).
  exists json. split; [done|]. split; [by intros ->|].
  intros Ig. rewrite Ig, andb_true_r in U.
  apply get_imageToVideo_Return in G as <-.
  unfold completed_fields, has_undefined in U. cbn in U.
  by destruct itv.
Qed.

(** X17.  When the final `updateDoc` is rejected, the generated image has
    already been uploaded, and the handler makes no call to take it back:
    no URL is returned, and after an accepted cleanup the job record is gone
    and the rejection has been logged.  An `imageToVideo` that is
    `undefined` is rejected with `invalid-argument`, unless undefined
    properties are ignored. *)
Theorem rejected_update_leaves_creative env form w r w' :
  POST env form w = (r, w') →
  ∃ evs, trace w' = trace w ++ evs
    ∧ ∀ c id fields e,
        EvUpdateDoc c id fields (Some e) ∈ evs →
        (∃ g t a p json,
           EvUpload (creative_upload g t) (Return a) ∈ evs
           ∧ c = "user-ads" ∧ id = job_id env form w
           ∧ fields = completed_fields (up_url a) p (member "imageToVideo" json)
           ∧ (member "imageToVideo" json = None →
              ignoreUndefinedProperties env = false →
              e = FirebaseError "invalid-argument"))
        ∧ (∀ u, r ≠ Return (NextResponse_json (JStr u)))
        ∧ (r = Return (NextResponse_json error_payload) →
           store w' !! ("user-ads", job_id env form w) = None
           ∧ EvLog [LogError e] ∈ evs).
Proof.
  intros H. pose proof H as H0. pose proof H as H1. apply POST_events in H
    as [(e & evs & I & _ & T & Q)
       |(docId & w0 & r1 & w1 & evs0 & evs1 & evs2 & I & B & T0 & Q0 & T1 & T & Q2 & O)].
  - exists evs. split; [done|]. intros c id fields e' Hin. exfalso.
    apply update_in_writes in Hin.
    destruct (intake_Throw _ _ _ _ _ I) as (_ & evs' & T' & _ & W).
    rewrite T' in T. apply app_inv_head in T as ->.
    destruct W as [W|(d & W)]; rewrite W in Hin.
    + by apply elem_of_nil in Hin.
    + by apply list_elem_of_singleton in Hin.
  - exists (evs0 ++ evs1 ++ evs2). split; [done|].
    intros c id fields e' Hin.
    assert (EvUpdateDoc c id fields (Some e') ∈ evs1) as Hin1.
    { apply update_in_writes in Hin. rewrite !store_writes_app in Hin.
      destruct (intake_Return _ _ _ _ _ I) as (_ & evs0' & T0' & _ & W0).
      rewrite T0' in T0. apply app_inv_head in T0 as ->. rewrite W0 in Hin.
      assert (∃ x, store_writes evs2 = [] ∨ store_writes evs2 = [EvDeleteDoc "user-ads" docId x])
        as (x & W2).
      { destruct O as [(resp & _ & _ & _ & ->)|(e & _ & C & T2)]; [exists None; by left|].
        apply catch_block_run in C as (evs2' & T2' & _ & C).
        rewrite T2' in T2. apply app_inv_head in T2 as ->.
        destruct (store_rejects env w1 _) as [x|]; destruct C as (_ & _ & W2);
          eexists; right; exact W2. }
      rewrite !elem_of_app in Hin. destruct Hin as [Hin|[Hin|Hin]].
      - by apply list_elem_of_singleton in Hin.
      - apply list_elem_of_omap in Hin as (ev & Hev & E).
        destruct ev; try done. by simplify_eq.
      - destruct W2 as [W2|W2]; rewrite W2 in Hin.
        + by apply elem_of_nil in Hin.
        + by apply list_elem_of_singleton in Hin. }
    destruct (try_block_update_events _ _ _ _ _ _ B) as (evs & T1' & U).
    rewrite T1' in T1. apply app_inv_head in T1 as ->.
    destruct (U _ _ _ _ Hin1)
      as (g & t & a & p & itv & answer & json & Hu & -> & -> & -> & _ & _ & G & -> & Inv).
    apply get_imageToVideo_Return in G as ->.
    destruct (intake_Return_world _ _ _ _ _ I) as (-> & _ & _).
    destruct O as [(resp & ? & _)|(e & [= <-] & C & T2)]; [done|].
    split; [|split].
    + exists g, t, a, p, json. split; [rewrite !elem_of_app; tauto|].
      split; [done|]. split; [done|]. split; [done|].
      intros N Ig. apply Inv. rewrite Ig, N. done.
    + intros u ->. apply catch_block_run in C as (evs2' & _ & _ & C).
      destruct (store_rejects env w1 _); destruct C as (E & _); [done|].
      injection E as E. by destruct (error_payload_not_string u).
    + intros ->. split; [|by apply (POST_error_logged _ _ _ _ _ _ _ _ _ I B H0)].
      apply POST_outcome in H1
        as [(? & ? & _)|(? & _ & [(? & ? & ? & ? & _)|[(_ & S)|(? & ? & _)]])]; try done.
      by rewrite S, lookup_delete_eq.
Qed.

(** X18.  When the first answer of the model does not parse, the run stops
    there: the model is not asked a second time, no generated image is
    uploaded, no URL is returned, and a run that answers the payload of the
    failures has logged the error of the parsing step. *)
Theorem unparsable_answer_stops env form w r w' :
  POST env form w = (r, w') →
  ∃ evs, trace w' = trace w ++ evs
    ∧ ∀ req answer e,
        EvGenerate req (Return answer) ∈ evs →
        model req = "gemini-2.0-flash" →
        parse_output (g_text answer) = Throw e →
        generations evs = [req]
        ∧ (∀ g t ans, EvUpload (creative_upload g t) ans ∉ evs)
        ∧ (∀ u, r ≠ Return (NextResponse_json (JStr u)))
        ∧ (r = Return (NextResponse_json error_payload) → EvLog [LogError e] ∈ evs).
Proof.
  intros H. pose proof H as H0. apply POST_events in H
    as [(e & evs & _ & _ & T & Q)
       |(docId & w0 & r1 & w1 & evs0 & evs1 & evs2 & I & B & T0 & Q0 & T1 & T & Q2 & O)].
  - exists evs. split; [done|]. intros req answer e' Hin.
    by apply quiet_no_generate in Hin.
  - exists (evs0 ++ evs1 ++ evs2). split; [done|].
    intros req answer e Hin M P. rewrite !elem_of_app in Hin.
    destruct Hin as [Hin|[Hin|Hin]];
      [by apply quiet_no_generate in Hin| |by apply quiet_no_generate in Hin].
    destruct (try_block_answers _ _ _ _ _ _ B) as (evs & T1' & A).
    rewrite T1' in T1. apply app_inv_head in T1 as ->.
    destruct (A _ _ Hin) as [(_ & A')|(M' & _)]; [|congruence].
    rewrite P in A'. destruct A' as (-> & G & _ & U).
    destruct O as [(resp & ? & _)|(e' & [= <-] & C & T2)]; [done|].
    split; [|split; [|split]].
    + rewrite !generations_app, (quiet_generations _ Q0), (quiet_generations _ Q2), G.
      done.
    + intros g t ans Hu. rewrite !elem_of_app in Hu.
      destruct Hu as [Hu|[Hu|Hu]];
        [by apply quiet_no_upload in Hu| |by apply quiet_no_upload in Hu].
      apply upload_in_uploads in Hu.
      destruct U as [U|(bytes & t0 & U)]; rewrite U in Hu.
      * by apply elem_of_nil in Hu.
      * apply list_elem_of_singleton in Hu. by apply creative_not_product in Hu.
    + intros u ->. apply catch_block_run in C as (evs2' & _ & _ & C).
      destruct (store_rejects env w1 _); destruct C as (E & _); [done|].
      injection E as E. by destruct (error_payload_not_string u).
    + intros ->. by apply (POST_error_logged _ _ _ _ _ _ _ _ _ I B H0).
Qed.

(** X19.  No retry and no loop: a run makes at most two fetches, two
    uploads, two requests to the model and three writes to the store.  What
    it fetches is the `imageUrl` of the request, its `avatar` when that is
    longer than 2, or the URL that the image host gave to the upload of an
    empty file. *)
Theorem calls_bounded env form w r w' :
  POST env form w = (r, w') →
  ∃ evs, trace w' = trace w ++ evs
    ∧ (length (fetches evs) ≤ 2)%nat
    ∧ (length (uploads evs) ≤ 2)%nat
    ∧ (length (generations evs) ≤ 2)%nat
    ∧ (length (store_writes evs) ≤ 3)%nat
    ∧ ∀ url ans,
        EvFetch url ans ∈ evs →
        (Form.imageUrl form = Some url ∧ url ≠ "")
        ∨ (Form.avatar form = Some url ∧ (2 < String.length url)%nat)
        ∨ ∃ f t0 a0,
            Form.file form = Some f ∧ file_bytes f = []
            ∧ EvUpload (product_upload [] t0) (Return a0) ∈ evs
            ∧ url = up_url a0.
Proof.
  intros H. apply POST_events in H
    as [(e & evs & I & _ & T & Q)
       |(docId & w0 & r1 & w1 & evs0 & evs1 & evs2 & I & B & T0 & Q0 & T1 & T & Q2 & O)].
  - exists evs. split; [done|].
    rewrite (quiet_fetches _ Q), (quiet_uploads _ Q), (quiet_generations _ Q).
    destruct (intake_Throw _ _ _ _ _ I) as (_ & evs' & T' & _ & W).
    rewrite T' in T. apply app_inv_head in T as ->.
    repeat (split; [cbn; lia|]). split.
    + destruct W as [->|(d & ->)]; cbn; lia.
    + intros url ans Hin. by apply quiet_no_fetch in Hin.
  - exists (evs0 ++ evs1 ++ evs2). split; [done|].
    rewrite !fetches_app, !uploads_app, !generations_app, !store_writes_app.
    rewrite (quiet_fetches _ Q0), (quiet_fetches _ Q2), (quiet_uploads _ Q0),
      (quiet_uploads _ Q2), (quiet_generations _ Q0), (quiet_generations _ Q2).
    rewrite !app_nil_r. cbn [app]. rewrite !length_app.
    destruct (intake_Return _ _ _ _ _ I) as (_ & evs0' & T0' & _ & W0).
    rewrite T0' in T0. apply app_inv_head in T0 as ->. rewrite W0.
    destruct (try_block_fetches _ _ _ _ _ _ B) as (evs & Tf & Lf & Hf).
    assert (evs = evs1) as -> by (apply (app_inv_head (trace w0)); congruence).
    destruct (try_block_uploads _ _ _ _ _ _ B) as (evs & Tu & Hu).
    assert (evs = evs1) as -> by (apply (app_inv_head (trace w0)); congruence).
    destruct (try_block_generations _ _ _ _ _ _ B) as (evs & Tg & Hg).
    assert (evs = evs1) as -> by (apply (app_inv_head (trace w0)); congruence).
    destruct (try_block_store _ _ _ _ _ _ B) as (evs & Tw & Hw).
    assert (evs = evs1) as -> by (apply (app_inv_head (trace w0)); congruence).
    split; [done|]. split.
    { destruct (imageUrl_given (Form.imageUrl form)).
      - destruct Hu as [->|(g & t & ->)]; cbn; lia.
      - destruct (Form.file form); [|rewrite Hu; cbn; lia].
        destruct Hu as (t & [->|(g & t' & ->)]); cbn; lia. }
    split.
    { cbn zeta in Hg.
      destruct Hg as [->|[(part & ->)|(part & text & more & -> & _)]]; cbn; lia. }
    split.
    { assert (length (store_writes evs2) ≤ 1)%nat as L2.
      { destruct O as [(resp & _ & _ & _ & ->)|(e & _ & C & T2)]; [cbn; lia|].
        apply catch_block_run in C as (evs2' & T2' & _ & C).
        rewrite T2' in T2. apply app_inv_head in T2 as ->.
        destruct (store_rejects env w1 _); destruct C as (_ & _ & ->); cbn; lia. }
      assert (length (store_writes evs1) ≤ 1)%nat as L1.
      { destruct Hw as [(e & _ & _ & [->|(u & p & itv & e' & ->)])
                       |(u & p & itv & _ & -> & _)]; cbn; lia. }
      cbn [length]. lia. }
    intros url ans Hin. rewrite !elem_of_app in Hin.
    destruct Hin as [Hin|[Hin|Hin]];
      [by apply quiet_no_fetch in Hin| |by apply quiet_no_fetch in Hin].
    destruct (Hf _ _ Hin) as [(G & ->)|[(G & ->)|(G & f & t0 & a0 & F & E & Hup & ->)]].
    + left. apply imageUrl_given_spec in G as (x & -> & ?). done.
    + right. left. apply avatar_given_spec in G as (x & -> & ?). done.
    + right. right. exists f, t0, a0. split; [done|].
      rewrite truthy_encode in E. destruct (file_bytes f) eqn:Fb; [|done].
      split; [done|]. split; [|done]. rewrite !elem_of_app. tauto.
Qed.

(** ** The further properties on concrete runs *)

Lemma urlToInlineData_throws_witness :
  (log_event (EvFetch mug_url (Return missing)) users_world) = log_event (EvFetch mug_url
      (fetch_answer (shop good_output missing false) users_world mug_url)) users_world
  ∧ (fetch_answer (shop good_output missing false) users_world mug_url = Throw (Error
      "Failed to fetch image. Status 404")
     ∨ ∃ res, fetch_answer (shop good_output missing false) users_world mug_url = Return res
         ∧ (res_ok res = false
            ∧ (Error "Failed to fetch image. Status 404") = Error
                ("Failed to fetch image. Status " +:+ pretty (res_status res))
            ∨ res_ok res = true
              ∧ (res_arrayBuffer res = Throw (Error "Failed to fetch image. Status 404")
                 ∨ ∃ bytes, res_arrayBuffer res = Return bytes
                     ∧ (length bytes < 20)%nat
                     ∧ (Error "Failed to fetch image. Status 404") = Error
                         "Fetched image is empty or too small."))).
Proof.
  refine (urlToInlineData_throws (shop good_output missing false) mug_url users_world
            (Error "Failed to fetch image. Status 404")
            (log_event (EvFetch mug_url (Return missing)) users_world) _);
    vm_compute; reflexivity.
Defined.

Lemma urlToInlineData_part_shape_witness :
  ∃ d m bytes,
    (inline_part mug_url untyped (repeat Byte.x41 32)) = PInline {| data := d; mimeType := m |}
    ∧ d = Base64.encode bytes
    ∧ (20 ≤ length bytes)%nat
    ∧ String.length d = (4 * ((length bytes + 2) / 3))%nat
    ∧ (28 ≤ String.length d)%nat
    ∧ Forall (λ c, c ∈ Base64.alphabet ∨ c = Base64.pad) (String.list_ascii_of_string d)
    ∧ Str.startsWith "image/" m = true.
Proof.
  refine (urlToInlineData_part_shape (shop good_output untyped false) mug_url
            users_world (inline_part mug_url untyped (repeat Byte.x41 32))
            (log_event (EvFetch mug_url (Return untyped)) users_world) _);
    vm_compute; reflexivity.
Defined.

Lemma extractJson_returns_witness :
  parse chatty_output = Some chatty_value
  ∨ (parse chatty_output = None
     ∧ is_object chatty_value = true
     ∧ ∃ pre inner post,
         chatty_output = pre +:+ ("{" +:+ inner +:+ "}") +:+ post
         ∧ Str.includes "{" pre = false
         ∧ Str.includes "}" post = false
         ∧ parse ("{" +:+ inner +:+ "}") = Some chatty_value).
Proof.
  refine (extractJson_returns chatty_output chatty_value _);
    vm_compute; reflexivity.
Defined.

Lemma parse_output_white_space_witness :
  parse_output (Some (" " +:+ good_output +:+ (Str.nl))) = parse_output (Some good_output)
  ∧ parse_output (Some " ") = Throw (Error "No JSON found in model output")
  ∧ parse_output None = Throw (Error "No JSON found in model output").
Proof.
  refine (parse_output_white_space " " (Str.nl) good_output _ _);
    vm_compute; reflexivity.
Defined.

Lemma job_id_is_timestamp_witness :
  job = pretty (Date_now good_shop (after_lookup url_form users_world))
  ∧ trace (w_intake (good_shop) url_form)
    = trace (after_lookup url_form users_world)
      ++ [EvSetDoc "user-ads" job (pending_record url_form job) None]
  ∧ store (w_intake (good_shop) url_form) !! ("user-ads", job) = Some (pending_record url_form
      job)
  ∧ pending_record url_form job !! "docId" = Some (JStr job)
  ∧ (∀ k, k ≠ ("user-ads", job) → store (w_intake (good_shop) url_form) !! k = store users_world
      !! k)
  ∧ (∀ form2 w2 docId2 w3,
       intake good_shop form2 w2 = (Return docId2, w3) →
       docId2 = job
       ↔ Date_now good_shop (after_lookup form2 w2) = Date_now good_shop (after_lookup url_form
           users_world)).
Proof.
  refine (job_id_is_timestamp good_shop url_form users_world job
            (w_intake (good_shop) url_form) _);
    vm_compute; reflexivity.
Defined.

Lemma same_timestamp_collision_witness :
  (∃ p itv,
     store (w_post (frozen_shop good_output png) url_form) !! ("user-ads", job_id (frozen_shop
         good_output png) url_form users_world)
     = Some (completed_record url_form (job_id (frozen_shop good_output png) url_form
         users_world) (result_url 1700000000000) p itv))
  ∧ ((Return (NextResponse_json (JStr (result_url 1700000000000)))) = Return (NextResponse_json
      error_payload) →
     store ((POST (frozen_shop good_output png) file_form (w_post (frozen_shop good_output png)
         url_form)).2) !! ("user-ads", job_id (frozen_shop good_output png) url_form
             users_world) = None)
  ∧ (∀ u2, (Return (NextResponse_json (JStr (result_url 1700000000000)))) = Return
      (NextResponse_json (JStr u2)) →
       ∃ p itv,
         store ((POST (frozen_shop good_output png) file_form (w_post (frozen_shop good_output
             png) url_form)).2) !! ("user-ads", job_id (frozen_shop good_output png) url_form
                 users_world)
         = Some (completed_record file_form (job_id (frozen_shop good_output png) url_form
             users_world) u2 p itv)).
Proof.
  refine (same_timestamp_collision (frozen_shop good_output png) url_form file_form
            users_world (result_url 1700000000000)
            (w_post (frozen_shop good_output png) url_form)
            (Return (NextResponse_json (JStr (result_url 1700000000000))))
            ((POST (frozen_shop good_output png) file_form (w_post (frozen_shop good_output png)
                url_form)).2)
            _ _ _);
    vm_compute; reflexivity.
Defined.

Lemma success_keeps_intake_fields_witness :
  ∃ doc,
    store (w_post (good_shop) url_form) !! ("user-ads", job_id good_shop url_form users_world) =
        Some doc
    ∧ doc !! "docId" = Some (JStr (job_id good_shop url_form users_world))
    ∧ doc !! "userEmail" = Some (field_value (Form.userEmail url_form))
    ∧ doc !! "description" = Some (field_value (Form.description url_form))
    ∧ doc !! "size" = Some (field_value (Form.size url_form))
    ∧ doc !! "status" = Some (JStr "completed")
    ∧ doc !! "finalProductImageUrl" = Some (JStr (result_url 1700000000006))
    ∧ is_Some (doc !! "productImageUrl")
    ∧ (∀ k, is_Some (doc !! k) → k ∈ record_fields).
Proof.
  refine (success_keeps_intake_fields good_shop url_form users_world
            (result_url 1700000000006) (w_post (good_shop) url_form) _);
    vm_compute; reflexivity.
Defined.

Lemma no_file_no_url_witness :
  let e := TypeError "Cannot read properties of null (reading 'arrayBuffer')" in
  try_block good_shop bare_form job (w_intake (good_shop) bare_form) = (Throw e, (w_intake
      (good_shop) bare_form))
  ∧ match store_rejects good_shop (w_intake (good_shop) bare_form) (CallDeleteDoc "user-ads"
      job) with
    | None =>
        ∃ w2, POST good_shop bare_form users_world = (Return (NextResponse_json error_payload),
            w2)
          ∧ trace w2
            = trace (w_intake (good_shop) bare_form) ++ [EvDeleteDoc "user-ads" job None; EvLog
                [LogError e]]
          ∧ store w2 = delete ("user-ads", job) (store users_world)
    | Some e' =>
        ∃ w2, POST good_shop bare_form users_world = (Throw e', w2)
          ∧ trace w2 = trace (w_intake (good_shop) bare_form) ++ [EvDeleteDoc "user-ads" job
              (Some e')]
          ∧ store w2 = store (w_intake (good_shop) bare_form)
    end.
Proof.
  refine (no_file_no_url good_shop bare_form users_world job
            (w_intake (good_shop) bare_form) _ _ _);
    vm_compute; reflexivity.
Defined.

Lemma success_calls_in_order_witness :
  ∃ users docId product p part answer json avatar_fetch more resp2 g t a itv,
    trace (w_post (good_shop) file_form)
    = trace users_world
      ++ [EvGetDocs "users" "email" (field_value (Form.userEmail file_form)) (Return users);
          EvSetDoc "user-ads" docId (pending_record file_form docId) None]
      ++ product
      ++ [EvGenerate
            (first_request
               (if avatar_given (Form.avatar file_form) then AVATAR_PROMPT else PROMPT)
               part)
            (Return answer);
          EvLog [LogValue (JStr "JSON"); LogValue json]]
      ++ avatar_fetch
      ++ [EvGenerate (second_request (member "textToImage" json) part more)
            (Return resp2);
          EvUpload (creative_upload g t) (Return a);
          EvUpdateDoc "user-ads" docId (completed_fields (result_url 1700000000007) p itv) None]
    ∧ users ≠ []
    ∧ up_url a = (result_url 1700000000007)
    ∧ parse_output (g_text answer) = Return json
    ∧ find_image (content_parts resp2) = Some g
    ∧ itv = member "imageToVideo" json
    ∧ (if imageUrl_given (Form.imageUrl file_form)
       then Form.imageUrl file_form = Some p
            ∧ ∃ res, product = [EvFetch p (Return res)]
       else ∃ f t0 a0,
              Form.file file_form = Some f ∧ p = up_url a0
              ∧ match file_bytes f with
                | _ :: _ =>
                    product = [EvUpload (product_upload (file_bytes f) t0) (Return a0)]
                | [] =>
                    ∃ res,
                      product = [EvUpload (product_upload (file_bytes f) t0) (Return a0);
                                 EvFetch p (Return res)]
                end)
    ∧ (if avatar_given (Form.avatar file_form)
       then ∃ url res bytes,
              Form.avatar file_form = Some url
              ∧ avatar_fetch = [EvFetch url (Return res)]
              ∧ more = [inline_part url res bytes]
       else avatar_fetch = [] ∧ more = []).
Proof.
  refine (success_calls_in_order good_shop file_form users_world
            (result_url 1700000000007) (w_post (good_shop) file_form) _);
    vm_compute; reflexivity.
Defined.

Lemma product_image_sent_witness :
  ∃ evs, trace (w_post (good_shop) file_form) = trace users_world ++ evs
    ∧ ∀ req, head (generations evs) = Some req →
        ∃ part,
          req = first_request
                  (if avatar_given (Form.avatar file_form) then AVATAR_PROMPT else PROMPT)
                  part
          ∧ if imageUrl_given (Form.imageUrl file_form)
            then ∃ url res bytes,
                   Form.imageUrl file_form = Some url
                   ∧ fetched_before_model evs = [(url, Return res)]
                   ∧ res_arrayBuffer res = Return bytes
                   ∧ part = inline_part url res bytes
            else ∃ f t0 a0,
                   Form.file file_form = Some f
                   ∧ EvUpload (product_upload (file_bytes f) t0) (Return a0) ∈ evs
                   ∧ match file_bytes f with
                     | _ :: _ =>
                         fetched_before_model evs = []
                         ∧ part = PInline
                                    {| data := Base64.encode (file_bytes f);
                                       mimeType := if Str.truthy (file_type f)
                                                   then file_type f
                                                   else "image/png" |}
                     | [] =>
                         ∃ res bytes,
                           fetched_before_model evs = [(up_url a0, Return res)]
                           ∧ res_arrayBuffer res = Return bytes
                           ∧ part = inline_part (up_url a0) res bytes
                     end.
Proof.
  refine (product_image_sent good_shop file_form users_world
            (Return (NextResponse_json (JStr (result_url 1700000000007))))
            (w_post (good_shop) file_form) _);
    vm_compute; reflexivity.
Defined.

Lemma creative_is_first_inline_image_witness :
  ∃ evs, trace (w_post (wordy_shop good_output png) url_form) = trace users_world ++ evs
    ∧ (∀ g t ans,
         EvUpload (creative_upload g t) ans ∈ evs →
         ∃ req resp2,
           EvGenerate req (Return resp2) ∈ evs
           ∧ model req = "gemini-2.5-flash-image"
           ∧ find_image (content_parts resp2) = Some g)
    ∧ (∀ req resp2,
         EvGenerate req (Return resp2) ∈ evs →
         model req = "gemini-2.5-flash-image" →
         find_image (content_parts resp2) = None →
         (∀ u, (Return (NextResponse_json error_payload)) ≠ Return (NextResponse_json (JStr u)))
         ∧ (∀ g t ans, EvUpload (creative_upload g t) ans ∉ evs)
         ∧ (∀ c id fields rej, EvUpdateDoc c id fields rej ∉ evs)
         ∧ ((Return (NextResponse_json error_payload)) = Return (NextResponse_json
             error_payload) →
            EvLog [LogError (Error "No image returned from Gemini")] ∈ evs)).
Proof.
  refine (creative_is_first_inline_image (wordy_shop good_output png) url_form
            users_world (Return (NextResponse_json error_payload))
            (w_post (wordy_shop good_output png) url_form) _);
    vm_compute; reflexivity.
Defined.

Lemma success_needs_imageToVideo_witness :
  ∃ evs, trace (w_post (good_shop) url_form) = trace users_world ++ evs
    ∧ ∀ req answer,
        EvGenerate req (Return answer) ∈ evs →
        model req = "gemini-2.0-flash" →
        ∃ json,
          parse_output (g_text answer) = Return json
          ∧ json ≠ JNull
          ∧ (ignoreUndefinedProperties good_shop = false →
             is_Some (member "imageToVideo" json)).
Proof.
  refine (success_needs_imageToVideo good_shop url_form users_world
            (result_url 1700000000006) (w_post (good_shop) url_form) _);
    vm_compute; reflexivity.
Defined.

Lemma rejected_update_leaves_creative_witness :
  ∃ evs, trace (w_post (shop partial_output png false) url_form) = trace users_world ++ evs
    ∧ ∀ c id fields e,
        EvUpdateDoc c id fields (Some e) ∈ evs →
        (∃ g t a p json,
           EvUpload (creative_upload g t) (Return a) ∈ evs
           ∧ c = "user-ads" ∧ id = job_id (shop partial_output png false) url_form users_world
           ∧ fields = completed_fields (up_url a) p (member "imageToVideo" json)
           ∧ (member "imageToVideo" json = None →
              ignoreUndefinedProperties (shop partial_output png false) = false →
              e = FirebaseError "invalid-argument"))
        ∧ (∀ u, (Return (NextResponse_json error_payload)) ≠ Return (NextResponse_json (JStr
            u)))
        ∧ ((Return (NextResponse_json error_payload)) = Return (NextResponse_json error_payload)
            →
           store (w_post (shop partial_output png false) url_form) !! ("user-ads", job_id (shop
               partial_output png false) url_form users_world) = None
           ∧ EvLog [LogError e] ∈ evs).
Proof.
  refine (rejected_update_leaves_creative (shop partial_output png false) url_form
            users_world (Return (NextResponse_json error_payload))
            (w_post (shop partial_output png false) url_form) _);
    vm_compute; reflexivity.
Defined.

Lemma unparsable_answer_stops_witness :
  ∃ evs, trace (w_post (shop "no json here" png false) url_form) = trace users_world ++ evs
    ∧ ∀ req answer e,
        EvGenerate req (Return answer) ∈ evs →
        model req = "gemini-2.0-flash" →
        parse_output (g_text answer) = Throw e →
        generations evs = [req]
        ∧ (∀ g t ans, EvUpload (creative_upload g t) ans ∉ evs)
        ∧ (∀ u, (Return (NextResponse_json error_payload)) ≠ Return (NextResponse_json (JStr
            u)))
        ∧ ((Return (NextResponse_json error_payload)) = Return (NextResponse_json error_payload)
            → EvLog [LogError e] ∈ evs).
Proof.
  refine (unparsable_answer_stops (shop "no json here" png false) url_form users_world
            (Return (NextResponse_json error_payload))
            (w_post (shop "no json here" png false) url_form) _);
    vm_compute; reflexivity.
Defined.

Lemma calls_bounded_witness :
  ∃ evs, trace (w_post (good_shop) file_form) = trace users_world ++ evs
    ∧ (length (fetches evs) ≤ 2)%nat
    ∧ (length (uploads evs) ≤ 2)%nat
    ∧ (length (generations evs) ≤ 2)%nat
    ∧ (length (store_writes evs) ≤ 3)%nat
    ∧ ∀ url ans,
        EvFetch url ans ∈ evs →
        (Form.imageUrl file_form = Some url ∧ url ≠ "")
        ∨ (Form.avatar file_form = Some url ∧ (2 < String.length url)%nat)
        ∨ ∃ f t0 a0,
            Form.file file_form = Some f ∧ file_bytes f = []
            ∧ EvUpload (product_upload [] t0) (Return a0) ∈ evs
            ∧ url = up_url a0.
Proof.
  refine (calls_bounded good_shop file_form users_world
            (Return (NextResponse_json (JStr (result_url 1700000000007))))
            (w_post (good_shop) file_form) _);
    vm_compute; reflexivity.
Defined.

(** The model leaves `imageToVideo` out: the generated image is uploaded,
    the update is refused, and the record is deleted. *)
Example rejected_update_run :
  POST (shop partial_output png false) url_form users_world
  = (Return (NextResponse_json error_payload),
     w_post (shop partial_output png false) url_form)
  ∧ uploads (trace (w_post (shop partial_output png false) url_form))
    = [creative_upload "iVBORw0KGgo=" 1700000000006]
  ∧ store_writes (trace (w_post (shop partial_output png false) url_form))
    = [EvSetDoc "user-ads" job (pending_record url_form job) None;
       EvUpdateDoc "user-ads" job
         (completed_fields (result_url 1700000000006) mug_url None)
         (Some (FirebaseError "invalid-argument"));
       EvDeleteDoc "user-ads" job None]
  ∧ store (w_post (shop partial_output png false) url_form) !! ("user-ads", job) = None.
Proof. repeat split; vm_compute; reflexivity. Qed.

(** The second answer of the model carries no image. *)
Example imageless_answer_run :
  POST (wordy_shop good_output png) url_form users_world
  = (Return (NextResponse_json error_payload), w_post (wordy_shop good_output png) url_form)
  ∧ length (generations (trace (w_post (wordy_shop good_output png) url_form))) = 2%nat
  ∧ uploads (trace (w_post (wordy_shop good_output png) url_form)) = []
  ∧ last (trace (w_post (wordy_shop good_output png) url_form))
    = Some (EvLog [LogError (Error "No image returned from Gemini")]).
Proof. repeat split; vm_compute; reflexivity. Qed.

(** The first answer of the model is not JSON. *)
Example unparsable_answer_run :
  POST (shop "no json here" png false) url_form users_world
  = (Return (NextResponse_json error_payload),
     w_post (shop "no json here" png false) url_form)
  ∧ length (generations (trace (w_post (shop "no json here" png false) url_form))) = 1%nat
  ∧ uploads (trace (w_post (shop "no json here" png false) url_form)) = []
  ∧ last (trace (w_post (shop "no json here" png false) url_form))
    = Some (EvLog [LogError (Error "No JSON found in model output")]).
Proof. repeat split; vm_compute; reflexivity. Qed.

(** An empty file is uploaded, and then the uploaded URL is fetched; an
    avatar of two characters is not. *)
Example empty_file_run :
  POST good_shop hollow_form users_world
  = (Return (NextResponse_json (JStr (result_url 1700000000007))),
     w_post good_shop hollow_form)
  ∧ uploads (trace (w_post good_shop hollow_form))
    = [product_upload [] 1700000000002; creative_upload "iVBORw0KGgo=" 1700000000007]
  ∧ fetches (trace (w_post good_shop hollow_form))
    = ["https://ik.imagekit.io/shop/1700000000002.png"].
Proof. repeat split; vm_compute; reflexivity. Qed.

(** With a clock that stands still, the second request takes the record of
    the first. *)
Example frozen_clock_run :
  job_id (frozen_shop good_output png) url_form users_world = "1700000000000"
  ∧ job_id (frozen_shop good_output png) file_form
      (w_post (frozen_shop good_output png) url_form)
    = "1700000000000"
  ∧ (store (w_post (frozen_shop good_output png) url_form) !! ("user-ads", "1700000000000"))
      ≫= (λ doc : Doc, doc !! "productImageUrl")
    = Some (JStr mug_url)
  ∧ (store (POST (frozen_shop good_output png) file_form
              (w_post (frozen_shop good_output png) url_form)).2
       !! ("user-ads", "1700000000000"))
      ≫= (λ doc : Doc, doc !! "productImageUrl")
    = Some (JStr "https://ik.imagekit.io/shop/1700000000000.png").
Proof. repeat split; vm_compute; reflexivity. Qed.
